(** * SecureOps Workbench: detection engine and incident evidence pipeline

    A shallow embedding of [backend/app/detect.py], [backend/app/reporting.py]
    and the incident endpoints of [backend/app/main.py], together with the
    properties of rule matching, alert de-duplication, incident packets,
    evidence records and incident bookkeeping.

    Conventions of the embedding.
    - Python text is a Rocq [string]; one [ascii] stands for one code point in
      the range 0..255, on which lower-casing, stripping and comparison are
      the ones Python performs.
    - A JSON payload is the tagged tree [json]; Python's [None] is [JNull].
    - A dict is an association list in insertion order; lookup takes the
      first binding of a key.
    - Code that may raise runs in the exception monad [exc].
    - A table of the database is the list of its rows in insertion order; the
      session is the record [Store], threaded through every operation. *)

From Stdlib Require Import ZArith Ascii String DecimalString.
From stdpp Require Import base option list gmap strings sorting.

Local Open Scope Z_scope.
Local Open Scope nat_scope.

(** ** Python text *)

Module Py.

(** [bool(s)] for a string: the empty string is falsy. *)
Definition truthy (s : string) : bool :=
  match s with EmptyString => false | String _ _ => true end.

(** [c.lower()] on one code point below 256: the letters A..Z and the
    Latin-1 capitals 0xC0..0xDE (0xD7, the multiplication sign, apart)
    move up by 32. *)
Definition lower_char (c : ascii) : ascii :=
  let n := N_of_ascii c in
  if ((65 <=? n) && (n <=? 90))%N then ascii_of_N (n + 32)
  else if ((192 <=? n) && (n <=? 222) && negb (n =? 215))%N
       then ascii_of_N (n + 32)
       else c.

(** [s.lower()]. *)
Fixpoint lower (s : string) : string :=
  match s with
  | EmptyString => EmptyString
  | String c s' => String (lower_char c) (lower s')
  end.

(** [c.isspace()] on one code point below 256. *)
Definition isspace (c : ascii) : bool :=
  let n := N_of_ascii c in
  ((9 <=? n) && (n <=? 13) || (28 <=? n) && (n <=? 32)
   || (n =? 133) || (n =? 160))%N.

(** [s.lstrip()]. *)
Fixpoint lstrip (s : string) : string :=
  match s with
  | EmptyString => EmptyString
  | String c s' => if isspace c then lstrip s' else s
  end.

(** [s.strip()]: white space removed at both ends. *)
Definition strip (s : string) : string :=
  String.rev (lstrip (String.rev (lstrip s))).

(** [s.startswith(p)]. *)
Fixpoint startswith (p s : string) : bool :=
  match p, s with
  | EmptyString, _ => true
  | String _ _, EmptyString => false
  | String a p', String b s' => if decide (a = b) then startswith p' s' else false
  end.

(** [needle in hay] on strings: [needle] starts at some position of [hay]. *)
Fixpoint contains (needle hay : string) : bool :=
  startswith needle hay
  || match hay with
     | EmptyString => false
     | String _ hay' => contains needle hay'
     end.

(** [s.split(sep)] for a separator of one character. The result is never
    empty: a string without the separator is returned whole. *)
Fixpoint split (sep : ascii) (s : string) : list string :=
  match s with
  | EmptyString => [EmptyString]
  | String c s' =>
      if decide (c = sep) then EmptyString :: split sep s'
      else match split sep s' with
           | [] => [String c EmptyString]
           | w :: ws => String c w :: ws
           end
  end.

(** [s[:n]]. *)
Fixpoint take (n : nat) (s : string) : string :=
  match n, s with
  | S n', String c s' => String c (take n' s')
  | _, _ => EmptyString
  end.

(** [sep.join(parts)]. *)
Fixpoint join (sep : string) (parts : list string) : string :=
  match parts with
  | [] => EmptyString
  | [p] => p
  | p :: rest => p +:+ sep +:+ join sep rest
  end.

(** [str(n)] for an integer. *)
Definition str_int (n : Z) : string := NilZero.string_of_int (Z.to_int n).

End Py.

(** ** Exceptions *)

Inductive error :=
| KeyError (key : string)
| TypeError (msg : string)
| ValueError (msg : string)
| HTTPException (status_code : nat) (detail : string).

Inductive exc (A : Type) :=
| Ok (a : A)
| Raise (e : error).
Arguments Ok {A} a.
Arguments Raise {A} e.

Definition exc_bind {A B} (m : exc A) (k : A → exc B) : exc B :=
  match m with
  | Ok a => k a
  | Raise e => Raise e
  end.

Notation "'try!' x ':=' m 'in' k" := (exc_bind m (fun x => k))
  (at level 10, x name, m at level 100, k at level 200, only parsing).

(** ** JSON payloads *)

(** The values [json.loads] produces: [None], booleans, integers, floats
    (kept as the text [repr] prints for them), strings, lists and dicts. *)
#[warnings="-register-all"]
Inductive json :=
| JNull
| JBool (b : bool)
| JInt (n : Z)
| JFloat (repr : string)
| JStr (s : string)
| JList (items : list json)
| JDict (fields : list (string * json)).

(** [d.get(k)] on the association list of a dict. *)
Fixpoint assoc_get (k : string) (fields : list (string * json)) : option json :=
  match fields with
  | [] => None
  | (k', v) :: rest => if decide (k' = k) then Some v else assoc_get k rest
  end.

Definition isinstance_dict (v : json) : bool :=
  match v with JDict _ => true | _ => false end.

Definition is_None (v : json) : bool :=
  match v with JNull => true | _ => false end.

(** [part in cur], where [cur] is a dict. *)
Definition dict_has (cur : json) (part : string) : bool :=
  match cur with
  | JDict fields => bool_decide (is_Some (assoc_get part fields))
  | _ => false
  end.

(** [cur[part]] with a string subscript, as Python evaluates it on any
    value: a missing key raises [KeyError], a value that is not a dict
    raises [TypeError]. *)
Definition getitem (cur : json) (part : string) : exc json :=
  match cur with
  | JDict fields =>
      match assoc_get part fields with
      | Some v => Ok v
      | None => Raise (KeyError part)
      end
  | JStr _ => Raise (TypeError "string indices must be integers")
  | JList _ => Raise (TypeError "list indices must be integers or slices")
  | _ => Raise (TypeError "object is not subscriptable")
  end.

(** The [for part in ...] loop of [_get_by_path]. *)
Fixpoint get_by_path_loop (cur : json) (parts : list string) : exc json :=
  match parts with
  | [] => Ok cur
  | part :: rest =>
      if isinstance_dict cur && dict_has cur part
      then try! cur' := getitem cur part in get_by_path_loop cur' rest
      else Ok JNull
  end.

(** [_get_by_path(obj, path)] of detect.py. *)
Definition _get_by_path (obj : json) (path : string) : exc json :=
  get_by_path_loop obj (Py.split "." path).

(** ** [json.dumps(value, ensure_ascii=False)] *)

Definition dquote : ascii := "034"%char.
Definition backslash : ascii := "092"%char.

Definition hex_digit (n : N) : ascii :=
  if (n <? 10)%N then ascii_of_N (48 + n) else ascii_of_N (87 + n).

(** One character of a JSON string literal: the quote, the backslash and
    the control characters are escaped, every other character is kept. *)
Definition escape_char (c : ascii) : string :=
  let n := N_of_ascii c in
  if decide (c = dquote) then String backslash (String dquote EmptyString)
  else if decide (c = backslash) then String backslash (String backslash EmptyString)
  else if (n =? 8)%N then String backslash "b"
  else if (n =? 12)%N then String backslash "f"
  else if (n =? 10)%N then String backslash "n"
  else if (n =? 13)%N then String backslash "r"
  else if (n =? 9)%N then String backslash "t"
  else if (n <? 32)%N
       then String backslash
              (String "u" (String "0" (String "0"
                 (String (hex_digit (n / 16)) (String (hex_digit (n mod 16)) EmptyString)))))
       else String c EmptyString.

Fixpoint escape_body (s : string) : string :=
  match s with
  | EmptyString => EmptyString
  | String c s' => escape_char c +:+ escape_body s'
  end.

Definition json_quote (s : string) : string :=
  String dquote (escape_body s +:+ String dquote EmptyString).

Fixpoint json_dumps (v : json) : string :=
  match v with
  | JNull => "null"
  | JBool true => "true"
  | JBool false => "false"
  | JInt n => Py.str_int n
  | JFloat repr => repr
  | JStr s => json_quote s
  | JList items => "[" +:+ Py.join ", " (List.map json_dumps items) +:+ "]"
  | JDict fields =>
      "{" +:+ Py.join ", "
                (List.map (fun kv => json_quote (fst kv) +:+ ": " +:+ json_dumps (snd kv))
                          fields)
          +:+ "}"
  end.

(** ** Dates *)

(** A [datetime] as the database hands it back: the calendar fields, no
    time zone. *)
Module DT.
Record t := mk {
  year : N; month : N; day : N;
  hour : N; minute : N; second : N; microsecond : N
}.

Definition fields (d : t) : list N :=
  [year d; month d; day d; hour d; minute d; second d; microsecond d].

(** Lexicographic comparison of the calendar fields. *)
Fixpoint compare_fields (a b : list N) : comparison :=
  match a, b with
  | [], [] => Eq
  | [], _ :: _ => Lt
  | _ :: _, [] => Gt
  | x :: a', y :: b' =>
      match N.compare x y with
      | Eq => compare_fields a' b'
      | c => c
      end
  end.

Definition compare (a b : t) : comparison := compare_fields (fields a) (fields b).

(** [a <= b]. *)
Definition leb (a b : t) : bool :=
  match compare a b with Gt => false | _ => true end.

(** The field ranges of a [datetime] object. *)
Definition valid (d : t) : Prop :=
  (1 ≤ year d ≤ 9999 ∧ 1 ≤ month d ≤ 12 ∧ 1 ≤ day d ≤ 31 ∧
   hour d < 24 ∧ minute d < 60 ∧ second d < 60 ∧ microsecond d < 1000000)%N.
End DT.

(** ** The tables of models.py *)

Module Event.
Record t := mk {
  id : string;
  received_at : DT.t;
  source : string;
  host : option string;
  user : option string;
  raw : json
}.
End Event.

Module Rule.
Record t := mk {
  id : string;
  created_at : DT.t;
  name : string;
  severity : string;
  mitre : list string;
  description : string;
  match_source : string;
  match_field : string;
  match_contains : string
}.
End Rule.

Module Alert.
Record t := mk {
  id : string;
  created_at : DT.t;
  rule_id : string;
  rule_name : string;
  severity : string;
  event_id : string;
  source : string;
  host : option string;
  user : option string;
  summary : string
}.
End Alert.

Module Incident.
Record t := mk {
  id : string;
  created_at : DT.t;
  updated_at : DT.t;
  title : string;
  severity : string;
  status : string;
  description : string
}.
End Incident.

Module IncidentAlert.
Record t := mk {
  incident_id : string;
  alert_id : string;
  added_at : DT.t
}.
End IncidentAlert.

Module EvidenceFile.
Record t := mk {
  id : string;
  incident_id : string;
  created_at : DT.t;
  filename : string;
  content_type : string;
  sha256 : string;
  size_bytes : nat
}.
End EvidenceFile.

Module IncidentAction.
Record t := mk {
  id : string;
  incident_id : string;
  created_at : DT.t;
  actor : option string;
  action_type : string;
  summary : string;
  details : option json
}.
End IncidentAction.

(** ** The session *)

(** The state a request works on: the seven tables, the files of the
    evidence directory by relative path, the clock read by [utc_now] and
    the counter behind [uuid4]. *)
Record Store := mkStore {
  rules : list Rule.t;
  events : list Event.t;
  alerts : list Alert.t;
  incidents : list Incident.t;
  incident_alerts : list IncidentAlert.t;
  incident_actions : list IncidentAction.t;
  evidence_files : list EvidenceFile.t;
  files : gmap string string;
  clock : DT.t;
  uuid_counter : nat
}.

Definition utc_now (s : Store) : DT.t := clock s.

(** [str(uuid4())]: a fresh identifier, drawn from the counter. *)
Definition uuid4 (s : Store) : string := "uuid4-" +:+ Py.str_int (Z.of_nat (uuid_counter s)).

(** ** Ordered retrieval *)

(** Insertion into a list sorted by [leb], before the first element that
    is not smaller. *)
Fixpoint insert_by {A} (leb : A → A → bool) (x : A) (l : list A) : list A :=
  match l with
  | [] => [x]
  | y :: l' => if leb x y then x :: l else y :: insert_by leb x l'
  end.

(** A stable sort: elements that compare equal keep their order. It stands
    for [ORDER BY] over a table and for [list.sort]. *)
Fixpoint sort_by {A} (leb : A → A → bool) (l : list A) : list A :=
  match l with
  | [] => []
  | x :: l' => insert_by leb x (sort_by leb l')
  end.

(** [xs[0] if xs else None], the [.first()] of a query. *)
Definition first {A} (l : list A) : option A := head l.

(** [for x in xs: body], with the loop state passed along; an exception
    raised by the body leaves the loop. *)
Fixpoint for_each {A S} (body : A → S → exc S) (xs : list A) (st : S) : exc S :=
  match xs with
  | [] => Ok st
  | x :: xs' => try! st' := body x st in for_each body xs' st'
  end.

(** ** detect.py: the rule matcher and the detection run *)

(** Line 32, the pre-filter on the source: the rule is skipped when its
    [match_source] is non-empty, is not the wildcard and differs from the
    event's source. *)
Definition source_mismatch (r : Rule.t) (ev : Event.t) : bool :=
  Py.truthy (Rule.match_source r)
  && negb (bool_decide (Rule.match_source r = "*"))
  && negb (bool_decide (Rule.match_source r = Event.source ev)).

(** Line 39: the text the needle is searched in. *)
Definition haystack (value : json) : string :=
  match value with
  | JStr s => s
  | _ => json_dumps value
  end.

(** Lines 32 to 41 of [run_detections]: does rule [r] apply to event [ev]?
    Each [continue] of the source is an answer [false]. *)
Definition rule_matches (r : Rule.t) (ev : Event.t) : exc bool :=
  if source_mismatch r ev then Ok false
  else
    try! value := _get_by_path (Event.raw ev) (Rule.match_field r) in
    if is_None value then Ok false
    else Ok (Py.contains (Py.lower (Rule.match_contains r)) (Py.lower (haystack value))).

(** Lines 43 to 45: the alert already recorded for this event and rule. *)
Definition existing_alert (s : Store) (ev : Event.t) (r : Rule.t) : option Alert.t :=
  first (filter (fun a => Alert.event_id a = Event.id ev ∧ Alert.rule_id a = Rule.id r)
                (alerts s)).

(** Lines 49 to 61: the alert built for a match; [id] and [created_at] come
    from the default factories of the model. *)
Definition new_alert (s : Store) (ev : Event.t) (r : Rule.t) : Alert.t :=
  {| Alert.id := uuid4 s;
     Alert.created_at := utc_now s;
     Alert.rule_id := Rule.id r;
     Alert.rule_name := Rule.name r;
     Alert.severity := Rule.severity r;
     Alert.event_id := Event.id ev;
     Alert.source := Event.source ev;
     Alert.host := Event.host ev;
     Alert.user := Event.user ev;
     Alert.summary :=
       Rule.name r +:+ ": " +:+ Rule.match_field r +:+ " matched '"
         +:+ Rule.match_contains r +:+ "'" |}.

(** [session.add(alert)]: the row joins the table; the session flushes
    pending rows before its next query, so later look-ups see it. *)
Definition add_alert (a : Alert.t) (s : Store) : Store :=
  {| rules := rules s; events := events s;
     alerts := alerts s ++ [a];
     incidents := incidents s; incident_alerts := incident_alerts s;
     incident_actions := incident_actions s; evidence_files := evidence_files s;
     files := files s; clock := clock s; uuid_counter := S (uuid_counter s) |}.

(** The body of the inner loop, lines 32 to 62; the state is the session
    and the counter [created]. *)
Definition detect_pair (ev : Event.t) (r : Rule.t) (st : Store * nat) : exc (Store * nat) :=
  try! matched := rule_matches r ev in
  if negb matched then Ok st
  else
    match existing_alert st.1 ev r with
    | Some _ => Ok st
    | None => Ok (add_alert (new_alert st.1 ev r) st.1, S st.2)
    end.

(** The two nested loops over an event window and a rule set. *)
Definition detect_window (rs : list Rule.t) (evs : list Event.t)
    (st : Store * nat) : exc (Store * nat) :=
  for_each (fun ev => for_each (fun r => detect_pair ev r) rs) evs st.

(** [select(Rule).order_by(Rule.created_at.desc())]. *)
Definition query_rules (s : Store) : list Rule.t :=
  sort_by (fun a b => DT.leb (Rule.created_at b) (Rule.created_at a)) (rules s).

(** [select(Event).order_by(Event.received_at.desc()).limit(limit)]. *)
Definition query_events (s : Store) (limit : nat) : list Event.t :=
  take limit
    (sort_by (fun a b => DT.leb (Event.received_at b) (Event.received_at a)) (events s)).

(** [run_detections(session, limit)]: the session afterwards and the number
    of alerts created. *)
Definition run_detections (s : Store) (limit : nat) : exc (Store * nat) :=
  match query_rules s with
  | [] => Ok (s, 0)
  | rs => detect_window rs (query_events s limit) (s, 0)
  end.

(** ** The field accessor and the matcher as the specification words them *)

(** [resolve(tree, path) -> value | absent]: descend through keyed mappings
    that contain the segment; anything else is absent. *)
Fixpoint resolve (tree : json) (path : list string) : option json :=
  match path with
  | [] => Some tree
  | seg :: rest =>
      match tree with
      | JDict fields =>
          match assoc_get seg fields with
          | Some v => resolve v rest
          | None => None
          end
      | _ => None
      end
  end.

(** The segments of a dotted path. *)
Definition segments (path : string) : list string := Py.split "." path.

(** [needle] occurs somewhere within [hay]. *)
Definition occurs_in (needle hay : string) : Prop :=
  ∃ before after, hay = before +:+ needle +:+ after.

(** The comparison string of a resolved value: the value itself when it is
    a string, its JSON serialization otherwise. *)
Definition comparison_string (v : json) : string :=
  match v with
  | JStr s => s
  | other => json_dumps other
  end.

(** The matcher as worded by the specification: wildcard or equal source,
    a value at the path, and the needle within the comparison string, both
    lower-cased. *)
Definition spec_matches (r : Rule.t) (ev : Event.t) : Prop :=
  (Rule.match_source r = "*" ∨ Rule.match_source r = Event.source ev) ∧
  ∃ v, resolve (Event.raw ev) (segments (Rule.match_field r)) = Some v ∧
       occurs_in (Py.lower (Rule.match_contains r)) (Py.lower (comparison_string v)).

(** The same with the two tests as the code performs them: an empty
    [match_source] is accepted like the wildcard, and a null value is
    taken for an absent one. *)
Definition code_matches (r : Rule.t) (ev : Event.t) : Prop :=
  (Rule.match_source r = EmptyString ∨ Rule.match_source r = "*"
   ∨ Rule.match_source r = Event.source ev) ∧
  ∃ v, resolve (Event.raw ev) (segments (Rule.match_field r)) = Some v ∧
       v ≠ JNull ∧
       occurs_in (Py.lower (Rule.match_contains r)) (Py.lower (comparison_string v)).

(** ** reporting.py: dates as text *)

Definition digit_char (d : N) : ascii := ascii_of_N (48 + d).

(** The last [width] decimal digits of [n], most significant first: the
    [%0<width>d] of a number that fits. *)
Fixpoint zfill (width : nat) (n : N) : string :=
  match width with
  | 0 => EmptyString
  | S w => zfill w (n / 10) +:+ String (digit_char (n mod 10)) EmptyString
  end.

(** [dt.isoformat()] of a naive [datetime]: the microseconds are printed
    only when they are not zero. *)
Definition isoformat (d : DT.t) : string :=
  zfill 4 (DT.year d) +:+ "-" +:+ zfill 2 (DT.month d) +:+ "-" +:+ zfill 2 (DT.day d)
  +:+ "T" +:+ zfill 2 (DT.hour d) +:+ ":" +:+ zfill 2 (DT.minute d)
  +:+ ":" +:+ zfill 2 (DT.second d)
  +:+ (if (DT.microsecond d =? 0)%N then EmptyString
       else "." +:+ zfill 6 (DT.microsecond d)).

(** [_safe_iso(dt)]; every date of the tables is a [datetime]. *)
Definition _safe_iso (dt : DT.t) : string := isoformat dt.

(** ** reporting.py: summaries and addresses of an event *)

Definition summary_keys : list string :=
  ["message"; "summary"; "event"; "msg"; "log"; "description"].

(** The [for k in (...)] loop of [_event_summary]: the first key holding a
    string that is not blank. *)
Fixpoint first_text (raw : list (string * json)) (keys : list string) : option string :=
  match keys with
  | [] => None
  | k :: rest =>
      match assoc_get k raw with
      | Some (JStr v) =>
          if Py.truthy (Py.strip v) then Some (Py.take 220 (Py.strip v))
          else first_text raw rest
      | _ => first_text raw rest
      end
  end.

(** [_event_summary(raw)], [raw] being a dict. *)
Definition _event_summary (raw : list (string * json)) : string :=
  match first_text raw summary_keys with
  | Some text => text
  | None => Py.take 220 (json_dumps (JDict raw))
  end.

Definition ip_keys : list string :=
  ["src_ip"; "source_ip"; "client_ip"; "remote_ip"; "ip"; "src"; "dst_ip"; "dest_ip"].

(** What one key of the payload adds to [ips]: a string that is not blank,
    or the strings that are not blank of a list. *)
Definition ips_of_value (v : option json) : list string :=
  match v with
  | Some (JStr s) => if Py.truthy (Py.strip s) then [Py.strip s] else []
  | Some (JList items) =>
      flat_map (fun item =>
                  match item with
                  | JStr s => if Py.truthy (Py.strip s) then [Py.strip s] else []
                  | _ => []
                  end) items
  | _ => []
  end.

(** The de-duplication loop shared by [_extract_ips] and [_uniq]: [seen] is
    the set of values met so far, [out] the values kept, in order. *)
Fixpoint dedupe_loop (seen : gset string) (out : list string) (items : list string)
    : list string :=
  match items with
  | [] => out
  | x :: rest =>
      if decide (x ∈ seen) then dedupe_loop seen out rest
      else dedupe_loop ({[x]} ∪ seen) (out ++ [x]) rest
  end.

(** [_extract_ips(raw)], [raw] being a dict. *)
Definition _extract_ips (raw : list (string * json)) : list string :=
  let ips := flat_map (fun k => ips_of_value (assoc_get k raw)) ip_keys in
  dedupe_loop ∅ [] ips.

(** The loop of [_uniq], which also drops the empty string. *)
Fixpoint uniq_loop (seen : gset string) (out : list string) (items : list string)
    : list string :=
  match items with
  | [] => out
  | x :: rest =>
      if negb (Py.truthy x) then uniq_loop seen out rest
      else if decide (x ∈ seen) then uniq_loop seen out rest
      else uniq_loop ({[x]} ∪ seen) (out ++ [x]) rest
  end.

(** [_uniq(items)] of [build_incident_packet]. *)
Definition _uniq (items : list string) : list string := uniq_loop ∅ [] items.

(** ** reporting.py: the packet *)

Module Entry.
(** One entry of the timeline. *)
Record t := mk {
  time : string;
  type : string;
  source : string;
  host : option string;
  user : option string;
  summary : string
}.
End Entry.

Module Scope.
Record t := mk {
  window_start : string;
  window_end : string;
  hosts : list string;
  users : list string;
  sources : list string;
  ips : list string
}.
End Scope.

Module Packet.
Record incident_t := mk_incident {
  id : string; title : string; severity : string; status : string;
  created_at : string; updated_at : string; description : string
}.
Record alert_t := mk_alert {
  alert_id : string; alert_created_at : string; alert_severity : string;
  alert_rule_name : string; alert_summary : string; alert_event_id : string;
  alert_host : option string; alert_user : option string; alert_source : string
}.
Record action_t := mk_action {
  action_id : string; action_incident_id : string; action_created_at : string;
  action_actor : option string; action_type : string; action_summary : string;
  action_details : option json
}.
Record t := mk {
  incident : incident_t;
  scope : Scope.t;
  alerts : list alert_t;
  timeline : list Entry.t;
  actions : list action_t
}.
End Packet.

(** The alerts of an incident: [Alert] joined with [IncidentAlert] on the
    alert id, one row per link of the incident, by [created_at] ascending. *)
Definition query_incident_alerts (s : Store) (incident_id : string) : list Alert.t :=
  sort_by (fun a b => DT.leb (Alert.created_at a) (Alert.created_at b))
    (flat_map
       (fun a =>
          List.map (fun _ => a)
            (filter (fun l => IncidentAlert.alert_id l = Alert.id a
                              ∧ IncidentAlert.incident_id l = incident_id)
                    (incident_alerts s)))
       (alerts s)).

(** The actions of an incident, by [created_at] ascending. *)
Definition query_incident_actions (s : Store) (incident_id : string)
    : list IncidentAction.t :=
  sort_by (fun a b => DT.leb (IncidentAction.created_at a) (IncidentAction.created_at b))
    (filter (fun act => IncidentAction.incident_id act = incident_id) (incident_actions s)).

(** Lines 91 to 95: the events of the alerts, fetched in one query and
    indexed by id; a later row of an id replaces an earlier one. *)
Definition fetch_events (s : Store) (als : list Alert.t) : gmap string Event.t :=
  let event_ids :=
    List.map Alert.event_id (filter (fun a => Py.truthy (Alert.event_id a) = true) als) in
  match event_ids with
  | [] => ∅
  | _ =>
      let evs := filter (fun e => Event.id e ∈ event_ids) (events s) in
      foldl (fun m e => <[Event.id e := e]> m) ∅ evs
  end.

(** The five lists the scope loop appends to. *)
Record Collected := mkCollected {
  times : list DT.t;
  c_hosts : list string;
  c_users : list string;
  c_sources : list string;
  c_ips : list string
}.

Definition opt_item (o : option string) : list string :=
  match o with
  | Some x => if Py.truthy x then [x] else []
  | None => []
  end.

Definition str_item (x : string) : list string :=
  if Py.truthy x then [x] else [].

(** One turn of the scope loop, lines 105 to 123. *)
Definition collect_alert (events_by_id : gmap string Event.t) (acc : Collected)
    (a : Alert.t) : Collected :=
  let acc1 :=
    {| times := times acc ++ [Alert.created_at a];
       c_hosts := c_hosts acc ++ opt_item (Alert.host a);
       c_users := c_users acc ++ opt_item (Alert.user a);
       c_sources := c_sources acc ++ str_item (Alert.source a);
       c_ips := c_ips acc |} in
  match events_by_id !! Alert.event_id a with
  | Some ev =>
      {| times := times acc1 ++ [Event.received_at ev];
         c_hosts := c_hosts acc1 ++ opt_item (Event.host ev);
         c_users := c_users acc1 ++ opt_item (Event.user ev);
         c_sources := c_sources acc1 ++ str_item (Event.source ev);
         c_ips := c_ips acc1 ++ match Event.raw ev with
                                | JDict raw => _extract_ips raw
                                | _ => []
                                end |}
  | None => acc1
  end.

Definition collect (events_by_id : gmap string Event.t) (als : list Alert.t) : Collected :=
  foldl (collect_alert events_by_id) (mkCollected [] [] [] [] []) als.

(** [min(times)] and [max(times)] of a list that is not empty; the first
    of several equal extremes is returned. *)
Definition min_time (first_time : DT.t) (rest : list DT.t) : DT.t :=
  foldl (fun m x => if DT.leb m x then m else x) first_time rest.

Definition max_time (first_time : DT.t) (rest : list DT.t) : DT.t :=
  foldl (fun m x => if DT.leb x m then m else x) first_time rest.

Definition alert_entry (a : Alert.t) : Entry.t :=
  {| Entry.time := _safe_iso (Alert.created_at a);
     Entry.type := "alert";
     Entry.source := Alert.source a;
     Entry.host := Alert.host a;
     Entry.user := Alert.user a;
     Entry.summary :=
       "[" +:+ Alert.severity a +:+ "] " +:+ Alert.rule_name a +:+ ": " +:+ Alert.summary a |}.

Definition event_entry (ev : Event.t) (raw : list (string * json)) : Entry.t :=
  {| Entry.time := _safe_iso (Event.received_at ev);
     Entry.type := "event";
     Entry.source := Event.source ev;
     Entry.host := Event.host ev;
     Entry.user := Event.user ev;
     Entry.summary := _event_summary raw |}.

(** The companion entry of an alert: present when its event was fetched
    and the payload of the event is a dict. *)
Definition companion (events_by_id : gmap string Event.t) (a : Alert.t) : list Entry.t :=
  match events_by_id !! Alert.event_id a with
  | Some ev =>
      match Event.raw ev with
      | JDict raw => [event_entry ev raw]
      | _ => []
      end
  | None => []
  end.

(** Lines 153 to 176: the entries in the order they are appended. *)
Definition timeline_entries (events_by_id : gmap string Event.t) (als : list Alert.t)
    : list Entry.t :=
  flat_map (fun a => alert_entry a :: companion events_by_id a) als.

(** The order of [timeline.sort]: the [time] texts, compared as Python
    compares strings. *)
Definition entry_leb (x y : Entry.t) : bool := String.leb (Entry.time x) (Entry.time y).

(** Line 178: [timeline.sort(key=lambda t: t["time"])]. *)
Definition sort_timeline (entries : list Entry.t) : list Entry.t :=
  sort_by entry_leb entries.

Definition packet_alert (a : Alert.t) : Packet.alert_t :=
  Packet.mk_alert (Alert.id a) (_safe_iso (Alert.created_at a)) (Alert.severity a)
    (Alert.rule_name a) (Alert.summary a) (Alert.event_id a) (Alert.host a)
    (Alert.user a) (Alert.source a).

Definition packet_action (act : IncidentAction.t) : Packet.action_t :=
  Packet.mk_action (IncidentAction.id act) (IncidentAction.incident_id act)
    (_safe_iso (IncidentAction.created_at act)) (IncidentAction.actor act)
    (IncidentAction.action_type act) (IncidentAction.summary act)
    (IncidentAction.details act).

(** [select(Incident).where(Incident.id == incident_id)] and [.first()]. *)
Definition find_incident (s : Store) (incident_id : string) : option Incident.t :=
  first (filter (fun i => Incident.id i = incident_id) (incidents s)).

(** [build_incident_packet(session, incident_id)]. *)
Definition build_incident_packet (s : Store) (incident_id : string) : exc Packet.t :=
  match find_incident s incident_id with
  | None => Raise (ValueError "incident not found")
  | Some inc =>
      let als := query_incident_alerts s incident_id in
      let acts := query_incident_actions s incident_id in
      let events_by_id := fetch_events s als in
      let c := collect events_by_id als in
      let '(start, stop) :=
        match times c with
        | [] => (Incident.created_at inc, Incident.updated_at inc)
        | t :: ts => (min_time t ts, max_time t ts)
        end in
      let scope :=
        {| Scope.window_start := _safe_iso start;
           Scope.window_end := _safe_iso stop;
           Scope.hosts := _uniq (c_hosts c);
           Scope.users := _uniq (c_users c);
           Scope.sources := _uniq (c_sources c);
           Scope.ips := _uniq (c_ips c) |} in
      let timeline := sort_timeline (timeline_entries events_by_id als) in
      Ok {| Packet.incident :=
              Packet.mk_incident (Incident.id inc) (Incident.title inc)
                (Incident.severity inc) (Incident.status inc)
                (_safe_iso (Incident.created_at inc))
                (_safe_iso (Incident.updated_at inc)) (Incident.description inc);
            Packet.scope := scope;
            Packet.alerts := List.map packet_alert als;
            Packet.timeline := timeline;
            Packet.actions := List.map packet_action acts |}
  end.

(** ** main.py: the incident endpoints *)

(** [get_incident_packet]: the [ValueError] of the builder becomes the
    404 response. *)
Definition get_incident_packet (s : Store) (incident_id : string) : exc Packet.t :=
  match build_incident_packet s incident_id with
  | Raise (ValueError _) => Raise (HTTPException 404 "incident not found")
  | other => other
  end.

(** [get_incident]. *)
Definition get_incident (s : Store) (incident_id : string) : exc Incident.t :=
  match find_incident s incident_id with
  | None => Raise (HTTPException 404 "incident not found")
  | Some inc => Ok inc
  end.

Definition set_incident_tables (s : Store) (incs : list Incident.t)
    (links : list IncidentAlert.t) (acts : list IncidentAction.t) : Store :=
  {| rules := rules s; events := events s; alerts := alerts s;
     incidents := incs; incident_alerts := links; incident_actions := acts;
     evidence_files := evidence_files s; files := files s;
     clock := clock s; uuid_counter := uuid_counter s |}.

(** [session.delete(x)] for a link: the row of that primary key goes. *)
Definition delete_link (x : IncidentAlert.t) (s : Store) : Store :=
  set_incident_tables s (incidents s)
    (filter (fun l => ¬ (IncidentAlert.incident_id l = IncidentAlert.incident_id x
                         ∧ IncidentAlert.alert_id l = IncidentAlert.alert_id x))
            (incident_alerts s))
    (incident_actions s).

(** [session.delete(x)] for an action. *)
Definition delete_action (x : IncidentAction.t) (s : Store) : Store :=
  set_incident_tables s (incidents s) (incident_alerts s)
    (filter (fun act => IncidentAction.id act ≠ IncidentAction.id x) (incident_actions s)).

(** [session.delete(inc)]. *)
Definition delete_incident_row (inc : Incident.t) (s : Store) : Store :=
  set_incident_tables s
    (filter (fun i => Incident.id i ≠ Incident.id inc) (incidents s))
    (incident_alerts s) (incident_actions s).

(** Lines 331 to 336 of [delete_incident]: the links and the actions of
    the incident are selected, then deleted one by one. *)
Definition delete_children (s : Store) (incident_id : string) : Store :=
  let links :=
    filter (fun l => IncidentAlert.incident_id l = incident_id) (incident_alerts s) in
  let actions :=
    filter (fun act => IncidentAction.incident_id act = incident_id)
           (incident_actions s) in
  let s1 := foldl (fun st x => delete_link x st) s links in
  foldl (fun st x => delete_action x st) s1 actions.

(** [delete_incident]: the children go first, then the incident. *)
Definition delete_incident (s : Store) (incident_id : string) : exc (Store * string) :=
  match find_incident s incident_id with
  | None => Raise (HTTPException 404 "incident not found")
  | Some inc => Ok (delete_incident_row inc (delete_children s incident_id), "deleted")
  end.

(** [inc.updated_at = ...; session.add(inc)]: the row that was loaded, the
    first of that id, is changed in place. *)
Fixpoint touch_incident (incident_id : string) (now : DT.t) (incs : list Incident.t)
    : list Incident.t :=
  match incs with
  | [] => []
  | i :: rest =>
      if decide (Incident.id i = incident_id)
      then Incident.mk (Incident.id i) (Incident.created_at i) now (Incident.title i)
             (Incident.severity i) (Incident.status i) (Incident.description i) :: rest
      else i :: touch_incident incident_id now rest
  end.

Definition find_alert (s : Store) (alert_id : string) : option Alert.t :=
  first (filter (fun a => Alert.id a = alert_id) (alerts s)).

Definition find_link (s : Store) (incident_id alert_id : string) : option IncidentAlert.t :=
  first (filter (fun l => IncidentAlert.incident_id l = incident_id
                          ∧ IncidentAlert.alert_id l = alert_id)
                (incident_alerts s)).

(** [add_alert_to_incident], [alert_id] being the [alert_id] of the payload. *)
Definition add_alert_to_incident (s : Store) (incident_id alert_id : string)
    : exc (Store * string) :=
  match find_incident s incident_id with
  | None => Raise (HTTPException 404 "incident not found")
  | Some inc =>
      match find_alert s alert_id with
      | None => Raise (HTTPException 404 "alert not found")
      | Some a =>
          match find_link s incident_id alert_id with
          | Some _ => Ok (s, "already-linked")
          | None =>
              Ok (set_incident_tables s
                    (touch_incident incident_id (utc_now s) (incidents s))
                    (incident_alerts s ++ [IncidentAlert.mk incident_id alert_id (utc_now s)])
                    (incident_actions s),
                  "linked")
          end
      end
  end.

(** ** reporting.py: the evidence writer *)

Definition newline : ascii := "010"%char.

(** A line break and the indentation of a nesting level, two spaces each. *)
Fixpoint indentation (level : nat) : string :=
  match level with
  | 0 => EmptyString
  | S l => "  " +:+ indentation l
  end.

Definition newline_indent (level : nat) : string := String newline (indentation level).

(** [json.dumps(value, indent=2, ensure_ascii=False)] at a nesting level. *)
Fixpoint json_dumps_indent (level : nat) (v : json) : string :=
  match v with
  | JList [] => "[]"
  | JList items =>
      "[" +:+ newline_indent (S level)
          +:+ Py.join ("," +:+ newline_indent (S level))
                (List.map (json_dumps_indent (S level)) items)
          +:+ newline_indent level +:+ "]"
  | JDict [] => "{}"
  | JDict fields =>
      "{" +:+ newline_indent (S level)
          +:+ Py.join ("," +:+ newline_indent (S level))
                (List.map (fun kv => json_quote (fst kv) +:+ ": "
                                       +:+ json_dumps_indent (S level) (snd kv))
                          fields)
          +:+ newline_indent level +:+ "}"
  | scalar => json_dumps scalar
  end.

(** [text.encode("utf-8")] on code points below 256: one byte below 128,
    two bytes from there on. *)
Fixpoint utf8 (text : string) : string :=
  match text with
  | EmptyString => EmptyString
  | String c rest =>
      let n := N_of_ascii c in
      if (n <? 128)%N then String c (utf8 rest)
      else String (ascii_of_N (192 + n / 64))
             (String (ascii_of_N (128 + n mod 64)) (utf8 rest))
  end.

Definition json_opt (o : option string) : json :=
  match o with
  | Some x => JStr x
  | None => JNull
  end.

Definition json_strs (l : list string) : json := JList (List.map JStr l).

Definition entry_json (t : Entry.t) : json :=
  JDict [("time", JStr (Entry.time t)); ("type", JStr (Entry.type t));
         ("source", JStr (Entry.source t)); ("host", json_opt (Entry.host t));
         ("user", json_opt (Entry.user t)); ("summary", JStr (Entry.summary t))].

Definition alert_json (a : Packet.alert_t) : json :=
  JDict [("id", JStr (Packet.alert_id a));
         ("created_at", JStr (Packet.alert_created_at a));
         ("severity", JStr (Packet.alert_severity a));
         ("rule_name", JStr (Packet.alert_rule_name a));
         ("summary", JStr (Packet.alert_summary a));
         ("event_id", JStr (Packet.alert_event_id a));
         ("host", json_opt (Packet.alert_host a));
         ("user", json_opt (Packet.alert_user a));
         ("source", JStr (Packet.alert_source a))].

Definition action_json (a : Packet.action_t) : json :=
  JDict [("id", JStr (Packet.action_id a));
         ("incident_id", JStr (Packet.action_incident_id a));
         ("created_at", JStr (Packet.action_created_at a));
         ("actor", json_opt (Packet.action_actor a));
         ("action_type", JStr (Packet.action_type a));
         ("summary", JStr (Packet.action_summary a));
         ("details", match Packet.action_details a with Some d => d | None => JNull end)].

(** The packet as the dict [build_incident_packet] returns, keys in the
    order they are written. *)
Definition packet_json (p : Packet.t) : json :=
  let inc := Packet.incident p in
  let sc := Packet.scope p in
  JDict
    [("incident",
      JDict [("id", JStr (Packet.id inc)); ("title", JStr (Packet.title inc));
             ("severity", JStr (Packet.severity inc)); ("status", JStr (Packet.status inc));
             ("created_at", JStr (Packet.created_at inc));
             ("updated_at", JStr (Packet.updated_at inc));
             ("description", JStr (Packet.description inc))]);
     ("scope",
      JDict [("time_window",
              JDict [("start", JStr (Scope.window_start sc));
                     ("end", JStr (Scope.window_end sc))]);
             ("hosts", json_strs (Scope.hosts sc));
             ("users", json_strs (Scope.users sc));
             ("sources", json_strs (Scope.sources sc));
             ("ips", json_strs (Scope.ips sc))]);
     ("alerts", JList (List.map alert_json (Packet.alerts p)));
     ("timeline", JList (List.map entry_json (Packet.timeline p)));
     ("actions", JList (List.map action_json (Packet.actions p)))].

(** Line 230: the bytes written for a packet. *)
Definition packet_payload (packet : json) : string :=
  utf8 (json_dumps_indent 0 packet).

Section EvidenceWriter.

(** [hashlib.sha256(payload).hexdigest()]. *)
Variable sha256_hex : string → string.

Definition evidence_filename (incident_id : string) : string :=
  incident_id +:+ "/incident-packet.json".

(** Lines 236 to 241: the record of this incident, file name and digest. *)
Definition existing_evidence (s : Store) (incident_id sha : string)
    : option EvidenceFile.t :=
  first (filter (fun e => EvidenceFile.incident_id e = incident_id
                          ∧ EvidenceFile.filename e = evidence_filename incident_id
                          ∧ EvidenceFile.sha256 e = sha)
                (evidence_files s)).

(** Lines 255 to 259: the records of the incident, newest first. *)
Definition query_evidence (s : Store) (incident_id : string) : list EvidenceFile.t :=
  sort_by (fun a b => DT.leb (EvidenceFile.created_at b) (EvidenceFile.created_at a))
    (filter (fun e => EvidenceFile.incident_id e = incident_id) (evidence_files s)).

(** [write_packet_evidence(session, incident_id, packet)]: the session
    afterwards and the evidence list returned. *)
Definition write_packet_evidence (s : Store) (incident_id : string) (packet : json)
    : Store * list EvidenceFile.t :=
  let filename_rel := evidence_filename incident_id in
  let payload := packet_payload packet in
  let sha := sha256_hex payload in
  let size := String.length payload in
  let written := <[filename_rel := payload]> (files s) in
  let s1 :=
    match existing_evidence s incident_id sha with
    | Some _ =>
        {| rules := rules s; events := events s; alerts := alerts s;
           incidents := incidents s; incident_alerts := incident_alerts s;
           incident_actions := incident_actions s;
           evidence_files := evidence_files s;
           files := written; clock := clock s; uuid_counter := uuid_counter s |}
    | None =>
        let ef :=
          EvidenceFile.mk (uuid4 s) incident_id (utc_now s) filename_rel
            "application/json" sha size in
        {| rules := rules s; events := events s; alerts := alerts s;
           incidents := incidents s; incident_alerts := incident_alerts s;
           incident_actions := incident_actions s;
           evidence_files := evidence_files s ++ [ef];
           files := written; clock := clock s; uuid_counter := S (uuid_counter s) |}
    end in
  (s1, query_evidence s1 incident_id).

(** The report endpoints: build the packet, then record it. *)
Definition export_evidence (s : Store) (incident_id : string)
    : exc (Store * list EvidenceFile.t) :=
  try! packet := build_incident_packet s incident_id in
  Ok (write_packet_evidence s incident_id (packet_json packet)).

End EvidenceWriter.

(** ** Invariants *)

(** The pair an alert is de-duplicated on. *)
Definition alert_key (a : Alert.t) : string * string := (Alert.rule_id a, Alert.event_id a).

(** At most one alert per (rule_id, event_id). *)
Definition alerts_unique (s : Store) : Prop := NoDup (alert_key <$> alerts s).

(** An alert is on record for the rule and the event. *)
Definition has_alert (s : Store) (r : Rule.t) (ev : Event.t) : Prop :=
  (Rule.id r, Event.id ev) ∈ alert_key <$> alerts s.

(** What a detection run keeps of the session it started from, and how the
    alert table and the counter [created] move together. *)
Definition run_inv (s0 : Store) (st : Store * nat) : Prop :=
  rules st.1 = rules s0 ∧ events st.1 = events s0 ∧
  (∃ extra, alerts st.1 = alerts s0 ++ extra ∧ length extra = st.2) ∧
  (alerts_unique s0 → alerts_unique st.1).

(** The sessions that arise from a session without alerts: a detection
    run is the only operation that adds alerts; every other operation
    leaves the alert table as it is or deletes rows of it. *)
Inductive detection_reachable : Store → Prop :=
| reach_no_alerts (s : Store) :
    alerts s = [] → detection_reachable s
| reach_run (s s1 : Store) (limit created : nat) :
    detection_reachable s →
    run_detections s limit = Ok (s1, created) →
    detection_reachable s1
| reach_other (s s' : Store) :
    detection_reachable s →
    sublist (alerts s') (alerts s) →
    detection_reachable s'.

(** The rows of the link table for an incident and an alert. *)
Definition links_of (s : Store) (incident_id alert_id : string) : list IncidentAlert.t :=
  filter (fun l => IncidentAlert.incident_id l = incident_id
                   ∧ IncidentAlert.alert_id l = alert_id)
         (incident_alerts s).

(** The composite primary key of the link table. *)
Definition link_key (l : IncidentAlert.t) : string * string :=
  (IncidentAlert.incident_id l, IncidentAlert.alert_id l).

Definition links_unique (s : Store) : Prop := NoDup (link_key <$> incident_alerts s).

(** Some row of some table still names the incident. *)
Definition referenced (s : Store) (incident_id : string) : Prop :=
  (∃ l, l ∈ incident_alerts s ∧ IncidentAlert.incident_id l = incident_id)
  ∨ (∃ act, act ∈ incident_actions s ∧ IncidentAction.incident_id act = incident_id)
  ∨ (∃ e, e ∈ evidence_files s ∧ EvidenceFile.incident_id e = incident_id).

(** The values of [items] that are not empty, each kept where it occurs
    first. *)
Fixpoint first_seen (items : list string) : list string :=
  match items with
  | [] => []
  | x :: rest =>
      if Py.truthy x then x :: filter (fun y => y ≠ x) (first_seen rest)
      else first_seen rest
  end.

(** [x] occurs in [l] at position [i] and nowhere before. *)
Definition first_at (x : string) (l : list string) (i : nat) : Prop :=
  l !! i = Some x ∧ x ∉ take i l.

(** [out] lists the non-empty values of [input] without repetition, in the
    order in which they are first met in [input]. *)
Definition in_first_seen_order (input out : list string) : Prop :=
  NoDup out
  ∧ (∀ x, x ∈ out ↔ x ∈ input ∧ x ≠ EmptyString)
  ∧ (∀ i j x y, out !! i = Some x → out !! j = Some y → i < j →
       ∃ a b, a < b ∧ first_at x input a ∧ first_at y input b).

(** The values the scope loop meets, alert by alert in the order of the
    alerts: what the alert gives, then what its event gives when the event
    was fetched. *)
Definition values_met (events_by_id : gmap string Event.t) (als : list Alert.t)
    (of_alert : Alert.t → list string) (of_event : Event.t → list string) : list string :=
  flat_map (fun a => of_alert a
                     ++ match events_by_id !! Alert.event_id a with
                        | Some ev => of_event ev
                        | None => []
                        end) als.

(** [ip] is the stripped text of a string that sits under one of the
    address keys of the payload, directly or as an item of a list. *)
Definition address_of (raw : list (string * json)) (ip : string) : Prop :=
  ∃ k s, k ∈ ip_keys ∧ ip = Py.strip s
         ∧ (assoc_get k raw = Some (JStr s)
            ∨ ∃ items, assoc_get k raw = Some (JList items) ∧ JStr s ∈ items).

(** The evidence records of an incident for the packet file and a digest. *)
Definition evidence_of (s : Store) (incident_id sha : string) : list EvidenceFile.t :=
  filter (fun e => EvidenceFile.incident_id e = incident_id
                   ∧ EvidenceFile.filename e = evidence_filename incident_id
                   ∧ EvidenceFile.sha256 e = sha)
         (evidence_files s).

(** The elements of a list with their positions, counted from [n]. *)
Fixpoint tag_from {A} (n : nat) (l : list A) : list (nat * A) :=
  match l with
  | [] => []
  | x :: l' => (n, x) :: tag_from (S n) l'
  end.

(** An order on values, applied to tagged values. *)
Definition by_value {A} (leb : A → A → bool) (x y : nat * A) : bool := leb x.2 y.2.

(** [x] stands before [y] in a stable sort: it is not greater, and on a
    tie it came earlier in the input. *)
Definition stable_before {A} (leb : A → A → bool) (x y : nat * A) : Prop :=
  leb x.2 y.2 = true ∧ (leb y.2 x.2 = true → x.1 < y.1).

(** ** Sample data *)

Module Sample.

Definition t0 : DT.t := DT.mk 2024 1 15 10 30 0 0.
Definition t1 : DT.t := DT.mk 2024 1 15 10 30 0 250000.
Definition t2 : DT.t := DT.mk 2024 1 15 10 31 7 0.

Definition empty_store : Store :=
  mkStore [] [] [] [] [] [] [] ∅ t2 0.

(** A rule whose [match_source] is the empty string. *)
Definition rule_any : Rule.t :=
  Rule.mk "r-any" t0 "Root login" "high" ["T1078"] "root activity"
    EmptyString "userIdentity.userName" "ROOT".

(** The rule of the specification's scenario. *)
Definition rule_root : Rule.t :=
  Rule.mk "r-root" t0 "Root login" "high" ["T1078"] "root activity"
    "*" "userIdentity.userName" "root".

(** A rule looking for the text "null". *)
Definition rule_null : Rule.t :=
  Rule.mk "r-null" t1 "Null user" "low" [] "no user" "*" "user" "null".

Definition ev_root : Event.t :=
  Event.mk "e-1" t0 "aws-cloudtrail" (Some "web-1") None
    (JDict [("userIdentity", JDict [("userName", JStr "rootuser")]);
            ("src_ip", JStr " 10.0.0.7 ")]).

Definition ev_alice : Event.t :=
  Event.mk "e-2" t1 "aws-cloudtrail" None (Some "alice")
    (JDict [("userIdentity", JDict [("userName", JStr "alice")])]).

Definition ev_null : Event.t :=
  Event.mk "e-3" t1 "syslog" None None (JDict [("user", JNull)]).

(** A payload that is not a dict at the first segment. *)
Definition ev_list : Event.t :=
  Event.mk "e-4" t2 "syslog" None None (JList [JStr "rootuser"; JInt 7]).

Definition store1 : Store :=
  mkStore [rule_root; rule_null] [ev_root; ev_alice; ev_null; ev_list]
    [] [] [] [] [] ∅ t2 0.

Definition alert1 : Alert.t :=
  Alert.mk "a-1" t1 "r-root" "Root login" "high" "e-1" "aws-cloudtrail"
    (Some "web-1") None "Root login: userIdentity.userName matched 'root'".

Definition alert2 : Alert.t :=
  Alert.mk "a-2" t1 "r-null" "Null user" "low" "e-2" "aws-cloudtrail"
    None (Some "alice") "Null user: user matched 'null'".

Definition incident1 : Incident.t :=
  Incident.mk "i-1" t0 t1 "Root activity" "high" "open" "investigate".

Definition incident2 : Incident.t :=
  Incident.mk "i-2" t0 t0 "Other" "low" "open" "unrelated".

Definition action1 : IncidentAction.t :=
  IncidentAction.mk "act-1" "i-1" t2 (Some "analyst") "note" "looked at logs" None.

Definition evidence1 : EvidenceFile.t :=
  EvidenceFile.mk "ef-1" "i-1" t2 "i-1/incident-packet.json" "application/json"
    "0f3a" 512.

(** An incident with two linked alerts, one action and one evidence
    record, next to an unrelated incident with one link. *)
Definition store2 : Store :=
  mkStore [rule_root; rule_null] [ev_root; ev_alice; ev_null; ev_list]
    [alert1; alert2] [incident1; incident2]
    [IncidentAlert.mk "i-1" "a-1" t1; IncidentAlert.mk "i-2" "a-1" t1;
     IncidentAlert.mk "i-1" "a-2" t2]
    [action1] [evidence1] ∅ t2 7.

(** The same without any link. *)
Definition store3 : Store :=
  mkStore [rule_root] [ev_root] [alert1] [incident1] [] [] [] ∅ t2 3.

(** A stand-in for the digest: the length of the payload, in decimal. *)
Definition toy_digest (payload : string) : string :=
  Py.str_int (Z.of_nat (String.length payload)).

Definition packet_a : json := JDict [("incident", JStr "i-1")].
Definition packet_b : json := JDict [("incident", JStr "i-1"); ("note", JInt 42)].

End Sample.

(** ** More Python text *)

(** [bool(o)] for an [Optional[str]]: [None] and the empty string are falsy. *)
Definition truthy_opt (o : option string) : bool :=
  match o with
  | None => false
  | Some x => Py.truthy x
  end.

(** [o or default] for an [Optional[str]]. *)
Definition opt_or (o : option string) (default : string) : string :=
  match o with
  | Some x => if Py.truthy x then x else default
  | None => default
  end.

(** [x or default] for a string. *)
Definition str_or (x default : string) : string :=
  if Py.truthy x then x else default.

(** [str(dt)] of a naive [datetime]: the ISO text with a space between
    the date and the time. *)
Definition str_datetime (d : DT.t) : string :=
  zfill 4 (DT.year d) +:+ "-" +:+ zfill 2 (DT.month d) +:+ "-" +:+ zfill 2 (DT.day d)
  +:+ " " +:+ zfill 2 (DT.hour d) +:+ ":" +:+ zfill 2 (DT.minute d)
  +:+ ":" +:+ zfill 2 (DT.second d)
  +:+ (if (DT.microsecond d =? 0)%N then EmptyString
       else "." +:+ zfill 6 (DT.microsecond d)).

(** The white space of [bytes.strip()]: space, tab, line feed, carriage
    return, vertical tab, form feed. *)
Definition bytes_isspace (c : ascii) : bool :=
  let n := N_of_ascii c in
  ((n =? 32) || (9 <=? n) && (n <=? 13))%N.

Fixpoint bytes_lstrip (s : string) : string :=
  match s with
  | EmptyString => EmptyString
  | String c s' => if bytes_isspace c then bytes_lstrip s' else s
  end.

(** [data.strip()] on bytes. *)
Definition bytes_strip (s : string) : string :=
  String.rev (bytes_lstrip (String.rev (bytes_lstrip s))).

Definition carriage_return : ascii := "013"%char.

(** The loop behind [data.splitlines()] on bytes: [cur] is the line read
    so far, reversed; [after_cr] tells that the last byte was a carriage
    return, whose line feed belongs to the same line break. *)
Fixpoint splitlines_go (cur : string) (after_cr : bool) (data : string) : list string :=
  match data with
  | EmptyString =>
      match cur with
      | EmptyString => []
      | _ => [String.rev cur]
      end
  | String c rest =>
      if decide (c = newline) then
        if after_cr then splitlines_go EmptyString false rest
        else String.rev cur :: splitlines_go EmptyString false rest
      else if decide (c = carriage_return) then
        String.rev cur :: splitlines_go EmptyString true rest
      else splitlines_go (String c cur) false rest
  end.

(** [data.splitlines()] on bytes: lines end at a line feed, a carriage
    return, or the two in this order. *)
Definition bytes_splitlines (data : string) : list string :=
  splitlines_go EmptyString false data.

(** ** auth.py *)

(** [require_admin_api_key], [expected] being the value of the
    environment variable [ADMIN_API_KEY] and [x_api_key] the header of
    the request. *)
Definition require_admin_api_key (expected x_api_key : option string) : exc unit :=
  if negb (truthy_opt expected)
  then Raise (HTTPException 500 "ADMIN_API_KEY is not set on the server")
  else if negb (truthy_opt x_api_key) || negb (bool_decide (x_api_key = expected))
       then Raise (HTTPException 401 "Invalid API key")
       else Ok tt.

(** ** main.py: alerts, events and rules *)

(** [list_alerts]. *)
Definition list_alerts (s : Store) (limit : nat) : list Alert.t :=
  take limit
    (sort_by (fun a b => DT.leb (Alert.created_at b) (Alert.created_at a)) (alerts s)).

(** [list_events] and [list_rules] issue the queries of the detection run. *)
Definition list_events (s : Store) (limit : nat) : list Event.t := query_events s limit.

Definition list_rules (s : Store) : list Rule.t := query_rules s.

(** [session.delete(a)] for an alert. *)
Definition delete_alert_row (a : Alert.t) (s : Store) : Store :=
  {| rules := rules s; events := events s;
     alerts := filter (fun x => Alert.id x ≠ Alert.id a) (alerts s);
     incidents := incidents s; incident_alerts := incident_alerts s;
     incident_actions := incident_actions s; evidence_files := evidence_files s;
     files := files s; clock := clock s; uuid_counter := uuid_counter s |}.

(** [delete_alert]: the links of the alert are deleted, then the alert. *)
Definition delete_alert (s : Store) (alert_id : string) : exc (Store * string) :=
  match find_alert s alert_id with
  | None => Raise (HTTPException 404 "alert not found")
  | Some a =>
      let links :=
        filter (fun l => IncidentAlert.alert_id l = alert_id) (incident_alerts s) in
      Ok (delete_alert_row a (foldl (fun st x => delete_link x st) s links), "deleted")
  end.

(** [ingest_event]: the payload is a JSON object. *)
Definition ingest_event (s : Store) (payload : list (string * json)) (source : string)
    (host user : option string) : Store * Event.t :=
  let ev := Event.mk (uuid4 s) (utc_now s) source host user (JDict payload) in
  ({| rules := rules s; events := events s ++ [ev]; alerts := alerts s;
      incidents := incidents s; incident_alerts := incident_alerts s;
      incident_actions := incident_actions s; evidence_files := evidence_files s;
      files := files s; clock := clock s; uuid_counter := S (uuid_counter s) |},
   ev).

Definition find_rule (s : Store) (rule_id : string) : option Rule.t :=
  first (filter (fun r => Rule.id r = rule_id) (rules s)).

(** [delete_rule]: the rule goes, nothing else. *)
Definition delete_rule (s : Store) (rule_id : string) : exc (Store * string) :=
  match find_rule s rule_id with
  | None => Raise (HTTPException 404 "rule not found")
  | Some r =>
      Ok ({| rules := filter (fun x => Rule.id x ≠ Rule.id r) (rules s);
             events := events s; alerts := alerts s;
             incidents := incidents s; incident_alerts := incident_alerts s;
             incident_actions := incident_actions s;
             evidence_files := evidence_files s;
             files := files s; clock := clock s; uuid_counter := uuid_counter s |},
          "deleted")
  end.

(** The endpoint [run]: a detection run over the 500 latest events. *)
Definition run (s : Store) : exc (Store * nat) := run_detections s 500.

(** ** main.py: more of the incident endpoints *)

(** [list_incidents]. *)
Definition list_incidents (s : Store) (limit : nat) : list Incident.t :=
  take limit
    (sort_by (fun a b => DT.leb (Incident.created_at b) (Incident.created_at a))
             (incidents s)).

(** [list_incident_actions]: the actions of the incident, newest first. *)
Definition list_incident_actions (s : Store) (incident_id : string)
    : list IncidentAction.t :=
  sort_by (fun a b => DT.leb (IncidentAction.created_at b) (IncidentAction.created_at a))
    (filter (fun act => IncidentAction.incident_id act = incident_id) (incident_actions s)).

(** [list_evidence]: the query [write_packet_evidence] ends with. *)
Definition list_evidence (s : Store) (incident_id : string) : list EvidenceFile.t :=
  query_evidence s incident_id.

(** [create_incident_action]: the action joins the log and the incident
    is marked as updated; the stored action is returned. *)
Definition create_incident_action (s : Store) (incident_id : string)
    (actor : option string) (action_type summary : string) (details : option json)
    : exc (Store * IncidentAction.t) :=
  match find_incident s incident_id with
  | None => Raise (HTTPException 404 "incident not found")
  | Some inc =>
      let action :=
        IncidentAction.mk (uuid4 s) incident_id (utc_now s) actor action_type summary
          details in
      Ok ({| rules := rules s; events := events s; alerts := alerts s;
             incidents := touch_incident incident_id (utc_now s) (incidents s);
             incident_alerts := incident_alerts s;
             incident_actions := incident_actions s ++ [action];
             evidence_files := evidence_files s;
             files := files s; clock := clock s; uuid_counter := S (uuid_counter s) |},
          action)
  end.

(** [inc.status = "closed"; inc.updated_at = ...; session.add(inc)] on the
    row that was loaded, the first of that id. *)
Fixpoint close_row (incident_id : string) (now : DT.t) (incs : list Incident.t)
    : list Incident.t :=
  match incs with
  | [] => []
  | i :: rest =>
      if decide (Incident.id i = incident_id)
      then Incident.mk (Incident.id i) (Incident.created_at i) now (Incident.title i)
             (Incident.severity i) "closed" (Incident.description i) :: rest
      else i :: close_row incident_id now rest
  end.

(** [close_incident]: the incident as it is after the refresh. *)
Definition close_incident (s : Store) (incident_id : string) : exc (Store * Incident.t) :=
  match find_incident s incident_id with
  | None => Raise (HTTPException 404 "incident not found")
  | Some inc =>
      Ok (set_incident_tables s (close_row incident_id (utc_now s) (incidents s))
            (incident_alerts s) (incident_actions s),
          Incident.mk (Incident.id inc) (Incident.created_at inc) (utc_now s)
            (Incident.title inc) (Incident.severity inc) "closed"
            (Incident.description inc))
  end.

(** ** reporting.py: the Markdown report *)

Section Markdown.

(** [str.upper] of the Python library. *)
Variable str_upper : string → string.

(** [', '.join(items) if items else 'none']. *)
Definition joined_or_none (items : list string) : string :=
  match items with
  | [] => "none"
  | _ => Py.join ", " items
  end.

(** The lines of one action: the entry and, when its details are a dict
    that is not empty, the details as a fenced block. *)
Definition markdown_action (a : Packet.action_t) : list string :=
  let actor := opt_or (Packet.action_actor a) "unknown" in
  let atype := str_or (Packet.action_type a) "note" in
  let ts := Packet.action_created_at a in
  let summary := Packet.action_summary a in
  ("- **" +:+ ts +:+ "** [" +:+ atype +:+ "] (" +:+ actor +:+ ") " +:+ summary)
  :: match Packet.action_details a with
     | Some (JDict (kv :: kvs)) =>
         [EmptyString; "```json"; json_dumps_indent 0 (JDict (kv :: kvs)); "```";
          EmptyString]
     | _ => []
     end.

(** The line of one timeline entry. *)
Definition markdown_entry (t : Entry.t) : string :=
  let ts := Entry.time t in
  let typ := str_upper (Entry.type t) in
  let src := str_or (Entry.source t) "n/a" in
  let host := opt_or (Entry.host t) "n/a" in
  let user := opt_or (Entry.user t) "n/a" in
  let summary := Entry.summary t in
  "- **" +:+ ts +:+ "** " +:+ typ +:+ " src=" +:+ src +:+ " host=" +:+ host
    +:+ " user=" +:+ user +:+ " , " +:+ summary.

(** The line of one evidence record. *)
Definition markdown_evidence (e : EvidenceFile.t) : string :=
  "- " +:+ EvidenceFile.filename e +:+ " (sha256=" +:+ EvidenceFile.sha256 e
    +:+ ", size=" +:+ Py.str_int (Z.of_nat (EvidenceFile.size_bytes e))
    +:+ " bytes, created=" +:+ str_datetime (EvidenceFile.created_at e) +:+ ")".

(** The list [lines] of [render_markdown], section by section. *)
Definition markdown_head (p : Packet.t) : list string :=
  let inc := Packet.incident p in
  ["# Incident Report: " +:+ Packet.title inc;
   EmptyString;
   "- **Incident ID:** " +:+ Packet.id inc;
   "- **Status:** " +:+ Packet.status inc;
   "- **Severity:** " +:+ Packet.severity inc;
   "- **Created:** " +:+ Packet.created_at inc;
   "- **Updated:** " +:+ Packet.updated_at inc]
  ++ (if Py.truthy (Packet.description inc)
      then ["- **Description:** " +:+ Packet.description inc] else [])
  ++ [EmptyString].

Definition markdown_scope (p : Packet.t) : list string :=
  let sc := Packet.scope p in
  ["## Scope";
   "- **Window:** " +:+ Scope.window_start sc +:+ " to " +:+ Scope.window_end sc;
   "- **Hosts:** " +:+ joined_or_none (Scope.hosts sc);
   "- **Users:** " +:+ joined_or_none (Scope.users sc);
   "- **Sources:** " +:+ joined_or_none (Scope.sources sc);
   "- **IPs:** " +:+ joined_or_none (Scope.ips sc);
   EmptyString].

Definition markdown_actions (p : Packet.t) : list string :=
  ["## Actions (Investigation Log)"]
  ++ match Packet.actions p with
     | [] => ["_No actions recorded._"]
     | acts => flat_map markdown_action acts
     end
  ++ [EmptyString].

Definition markdown_timeline (p : Packet.t) : list string :=
  ["## Timeline"]
  ++ match Packet.timeline p with
     | [] => ["_No timeline entries._"]
     | tl => List.map markdown_entry (take 500 tl)
     end
  ++ [EmptyString].

Definition markdown_evidence_section (evidence : list EvidenceFile.t) : list string :=
  ["## Evidence"]
  ++ match evidence with
     | [] => ["_No evidence files recorded._"]
     | evs => List.map markdown_evidence evs
     end
  ++ [EmptyString].

(** [render_markdown(packet, evidence)]. *)
Definition render_markdown (p : Packet.t) (evidence : list EvidenceFile.t) : string :=
  Py.join (String newline EmptyString)
    (markdown_head p ++ markdown_scope p ++ markdown_actions p ++ markdown_timeline p
     ++ markdown_evidence_section evidence).

End Markdown.

(** ** main.py: import of a JSONL file *)

Module ImportJob.
Record t := mk {
  id : string;
  created_at : DT.t;
  filename : string;
  sha256 : string;
  source : string;
  host : option string;
  user : option string;
  events_ingested : nat
}.
End ImportJob.

Section Endpoints.

(** [hashlib.sha256(data).hexdigest()]. *)
Variable sha256_hex : string → string.

(** [json.loads(line.decode("utf-8"))]: the value read, or [None] when
    decoding or parsing raises. *)
Variable json_loads : string → option json.

(** [str.upper] of the Python library. *)
Variable str_upper : string → string.

(** [export_markdown]: the packet is built, its evidence recorded, the
    report rendered. *)
Definition export_markdown (s : Store) (incident_id : string) : exc (Store * string) :=
  try! packet := build_incident_packet s incident_id in
  let written := write_packet_evidence sha256_hex s incident_id (packet_json packet) in
  Ok (written.1, render_markdown str_upper packet written.2).

(** Lines 147 to 156 of [import_jsonl]: the payloads of the lines that are
    not blank and can be read, in order. *)
Definition parse_lines (data : string) : list json :=
  omap (fun raw_line =>
          let line := bytes_strip raw_line in
          if Py.truthy line then json_loads line else None)
       (bytes_splitlines data).

(** The events built for the payloads: each draws its id and its time when
    it is built, the id of the job being drawn before. *)
Fixpoint import_events (counter : nat) (now : DT.t) (source : string)
    (host user : option string) (payloads : list json) : list Event.t :=
  match payloads with
  | [] => []
  | obj :: rest =>
      Event.mk ("uuid4-" +:+ Py.str_int (Z.of_nat counter)) now source host user obj
      :: import_events (S counter) now source host user rest
  end.

(** [import_jsonl], on the table of import jobs and the session, from the
    point where the upload has been written to disk (lines 146 to 174; the
    write of lines 140 to 144 ends the request when it fails, before any
    row is built, and the copy it leaves under the directory of the job is
    left out here). The id of the job is drawn first. *)
Definition import_jsonl (jobs : list ImportJob.t) (s : Store) (data : string)
    (file_name : option string) (source : string) (host user : option string)
    : list ImportJob.t * Store * ImportJob.t :=
  let sha := sha256_hex data in
  let job_id := uuid4 s in
  let filename := opt_or file_name "upload.jsonl" in
  let evs :=
    import_events (S (uuid_counter s)) (utc_now s) source host user (parse_lines data) in
  let job :=
    ImportJob.mk job_id (utc_now s) filename sha source host user (length evs) in
  (jobs ++ [job],
   {| rules := rules s; events := events s ++ evs; alerts := alerts s;
      incidents := incidents s; incident_alerts := incident_alerts s;
      incident_actions := incident_actions s; evidence_files := evidence_files s;
      files := files s; clock := clock s;
      uuid_counter := S (uuid_counter s) + length evs |},
   job).

(** The requests of the API that act on the session, with their
    arguments. *)
Inductive request :=
| RunDetections
| IngestEvent (payload : list (string * json)) (source : string) (host user : option string)
| DeleteRule (rule_id : string)
| DeleteAlert (alert_id : string)
| DeleteIncident (incident_id : string)
| LinkAlert (incident_id alert_id : string)
| CreateAction (incident_id : string) (actor : option string)
    (action_type summary : string) (details : option json)
| CloseIncident (incident_id : string)
| ExportMarkdown (incident_id : string).

(** The endpoint behind a request; only the session is kept of its answer. *)
Definition handle (req : request) (s : Store) : exc Store :=
  match req with
  | RunDetections => try! r := run s in Ok r.1
  | IngestEvent payload source host user => Ok (ingest_event s payload source host user).1
  | DeleteRule rule_id => try! r := delete_rule s rule_id in Ok r.1
  | DeleteAlert alert_id => try! r := delete_alert s alert_id in Ok r.1
  | DeleteIncident incident_id => try! r := delete_incident s incident_id in Ok r.1
  | LinkAlert incident_id alert_id =>
      try! r := add_alert_to_incident s incident_id alert_id in Ok r.1
  | CreateAction incident_id actor action_type summary details =>
      try! r := create_incident_action s incident_id actor action_type summary details in
      Ok r.1
  | CloseIncident incident_id => try! r := close_incident s incident_id in Ok r.1
  | ExportMarkdown incident_id => try! r := export_markdown s incident_id in Ok r.1
  end.

(** A request that raises has written nothing: the session stays as it
    was. *)
Definition serve (s : Store) (req : request) : Store :=
  match handle req s with
  | Ok s' => s'
  | Raise _ => s
  end.

End Endpoints.

(** ** Notions used by the properties of the added code *)

(** Alert [a] is the snapshot taken of rule [r] and event [ev] at a match. *)
Definition snapshot_of (a : Alert.t) (r : Rule.t) (ev : Event.t) : Prop :=
  Alert.rule_id a = Rule.id r ∧ Alert.rule_name a = Rule.name r
  ∧ Alert.severity a = Rule.severity r ∧ Alert.event_id a = Event.id ev
  ∧ Alert.source a = Event.source ev ∧ Alert.host a = Event.host ev
  ∧ Alert.user a = Event.user ev
  ∧ Alert.summary a =
      Rule.name r +:+ ": " +:+ Rule.match_field r +:+ " matched '"
        +:+ Rule.match_contains r +:+ "'".

(** Session [s'] differs from [s] at most in the alert table and in the
    counter of identifiers. *)
Definition same_but_alerts (s s' : Store) : Prop :=
  rules s' = rules s ∧ events s' = events s ∧ incidents s' = incidents s
  ∧ incident_alerts s' = incident_alerts s ∧ incident_actions s' = incident_actions s
  ∧ evidence_files s' = evidence_files s ∧ files s' = files s ∧ clock s' = clock s.

(** What the loops of a detection run keep, for a run over [rs] and the
    events met so far, [evs]: the alerts added are snapshots of matching
    pairs that had no alert, one identifier is drawn per alert, and
    nothing else moves. *)
Definition detect_inv (s0 : Store) (rs : list Rule.t) (evs : list Event.t)
    (st : Store * nat) : Prop :=
  same_but_alerts s0 st.1
  ∧ uuid_counter st.1 = uuid_counter s0 + st.2
  ∧ ∃ extra, alerts st.1 = alerts s0 ++ extra ∧ length extra = st.2
      ∧ Forall (fun a => ∃ r ev, r ∈ rs ∧ ev ∈ evs ∧ rule_matches r ev = Ok true
                                 ∧ ¬ has_alert s0 r ev ∧ snapshot_of a r ev) extra.

(** A text without a dot. *)
Fixpoint dot_free (s : string) : bool :=
  match s with
  | EmptyString => true
  | String c s' => if decide (c = "."%char) then false else dot_free s'
  end.

(** A text without a line feed or a carriage return. *)
Fixpoint line_break_free (s : string) : bool :=
  match s with
  | EmptyString => true
  | String c s' =>
      if decide (c = newline) then false
      else if decide (c = carriage_return) then false
      else line_break_free s'
  end.

(** The links of the table resolve: their incident and their alert are on
    record. *)
Definition links_resolve (s : Store) : Prop :=
  ∀ l, l ∈ incident_alerts s →
       is_Some (find_incident s (IncidentAlert.incident_id l))
       ∧ is_Some (find_alert s (IncidentAlert.alert_id l)).

(** The actions of the log belong to incidents on record. *)
Definition actions_resolve (s : Store) : Prop :=
  ∀ act, act ∈ incident_actions s →
         is_Some (find_incident s (IncidentAction.incident_id act)).

(** The alerts were raised on events on record. *)
Definition alerts_have_event (s : Store) : Prop :=
  ∀ a, a ∈ alerts s → ∃ ev, ev ∈ events s ∧ Event.id ev = Alert.event_id a.

(** The consistency the endpoints maintain. *)
Definition consistent (s : Store) : Prop :=
  alerts_unique s ∧ links_unique s ∧ links_resolve s ∧ actions_resolve s
  ∧ alerts_have_event s.

(** ** More sample data *)

Module Sample2.

(** A stand-in for [str.upper], right on ASCII text: the letters a..z are
    capitalised, every other character is kept. *)
Definition upper_char (c : ascii) : ascii :=
  let n := N_of_ascii c in
  if ((97 <=? n) && (n <=? 122))%N then ascii_of_N (n - 32) else c.

Fixpoint ascii_upper (s : string) : string :=
  match s with
  | EmptyString => EmptyString
  | String c s' => String (upper_char c) (ascii_upper s')
  end.

(** A stand-in for [json.loads] that reads the empty object and the
    number 1 and fails on every other text. *)
Definition toy_loads (line : string) : option json :=
  if decide (line = "{}") then Some (JDict [])
  else if decide (line = "1") then Some (JInt 1)
  else None.

(** The sample store after a detection run. *)
Definition store1_after : Store :=
  match run_detections Sample.store1 500 with
  | Ok (s1, _) => s1
  | Raise _ => Sample.store1
  end.

End Sample2.

(** * Properties *)

(** ** Text *)

Lemma append_nil_l (s : string) : EmptyString +:+ s = s.
Proof. reflexivity. Qed.

Lemma append_cons (c : ascii) (s t : string) : String c s +:+ t = String c (s +:+ t).
Proof. reflexivity. Qed.

Lemma append_nil_r (s : string) : s +:+ EmptyString = s.
Proof. induction s as [|c s IH]; [done|]. by rewrite append_cons, IH. Qed.

Lemma append_assoc (s t u : string) : (s +:+ t) +:+ u = s +:+ t +:+ u.
Proof. induction s as [|c s IH]; [done|]. by rewrite !append_cons, IH. Qed.

Lemma startswith_spec (p s : string) :
  Py.startswith p s = true ↔ ∃ t, s = p +:+ t.
Proof.
  revert s. induction p as [|a p IH]; intros s; simpl.
  - split; [intros _; by exists s | done].
  - destruct s as [|b s].
    + split; [done | intros [t Ht]; by rewrite append_cons in Ht].
    + case_decide as Hab.
      * subst b. rewrite IH. split; intros [t Ht]; exists t.
        -- by rewrite append_cons, Ht.
        -- rewrite append_cons in Ht. by simplify_eq.
      * split; [done | intros [t Ht]]. rewrite append_cons in Ht. by simplify_eq.
Qed.

Lemma contains_spec (needle hay : string) :
  Py.contains needle hay = true ↔ occurs_in needle hay.
Proof.
  split.
  - induction hay as [|c hay IH]; simpl; intros H.
    + rewrite orb_false_r in H. apply startswith_spec in H as [t Ht].
      by exists EmptyString, t.
    + apply orb_true_iff in H as [H|H].
      * apply startswith_spec in H as [t Ht]. by exists EmptyString, t.
      * destruct (IH H) as (before & after & ->).
        by exists (String c before), after.
  - intros (before & after & ->).
    induction before as [|c before IH].
    + rewrite append_nil_l.
      assert (Py.startswith needle (needle +:+ after) = true) as Hs
        by (apply startswith_spec; by exists after).
      destruct (needle +:+ after); simpl; by rewrite Hs.
    + rewrite append_cons. simpl. rewrite IH. apply orb_true_r.
Qed.

Lemma contains_empty (hay : string) : Py.contains EmptyString hay = true.
Proof. by destruct hay. Qed.

Example split_samples :
  Py.split "." "userIdentity.userName" = ["userIdentity"; "userName"]
  ∧ Py.split "." "user" = ["user"]
  ∧ Py.split "." EmptyString = [EmptyString]
  ∧ Py.split "." "a..b" = ["a"; EmptyString; "b"].
Proof. by split_and!. Qed.

Example text_samples :
  Py.lower "Root-USER 42" = "root-user 42"
  ∧ Py.strip "  10.0.0.7 " = "10.0.0.7"
  ∧ Py.contains "root" "the rootuser" = true
  ∧ Py.contains "alice" "the rootuser" = false
  ∧ Py.take 3 "abcdef" = "abc".
Proof. by split_and!. Qed.

Example json_dumps_samples :
  json_dumps (JDict [("a", JList [JInt 1; JNull; JBool true]); ("b", JStr "x")])
  = "{" +:+ json_quote "a" +:+ ": [1, null, true], " +:+ json_quote "b" +:+ ": "
        +:+ json_quote "x" +:+ "}"
  ∧ json_dumps (JInt (-17)) = "-17"
  ∧ json_quote (String newline "x")
    = String dquote (String backslash ("nx" +:+ String dquote EmptyString)).
Proof. by split_and!. Qed.

(** ** The field accessor *)

Example get_by_path_samples :
  _get_by_path (Event.raw Sample.ev_root) "userIdentity.userName" = Ok (JStr "rootuser")
  ∧ _get_by_path (Event.raw Sample.ev_root) "userIdentity.arn" = Ok JNull
  ∧ _get_by_path (Event.raw Sample.ev_root) "src_ip.octet" = Ok JNull
  ∧ _get_by_path (Event.raw Sample.ev_list) "0" = Ok JNull
  ∧ getitem (Event.raw Sample.ev_list) "0"
    = Raise (TypeError "list indices must be integers or slices").
Proof. by split_and!. Qed.

Lemma get_by_path_loop_resolve (parts : list string) (cur : json) :
  get_by_path_loop cur parts = Ok (default JNull (resolve cur parts)).
Proof.
  revert cur. induction parts as [|part rest IH]; intros cur; [done|].
  destruct cur; simpl; try done.
  destruct (assoc_get part fields) as [v|] eqn:Hget; simpl; [apply IH | done].
Qed.

Lemma get_by_path_resolve (obj : json) (path : string) :
  _get_by_path obj path = Ok (default JNull (resolve obj (segments path))).
Proof. apply get_by_path_loop_resolve. Qed.

Lemma haystack_comparison_string (v : json) : haystack v = comparison_string v.
Proof. by destruct v. Qed.

Lemma source_mismatch_false (r : Rule.t) (ev : Event.t) :
  source_mismatch r ev = false ↔
  Rule.match_source r = EmptyString ∨ Rule.match_source r = "*"
  ∨ Rule.match_source r = Event.source ev.
Proof.
  unfold source_mismatch.
  destruct (Rule.match_source r) as [|c m] eqn:Hm; simpl.
  - split; [by left | done].
  - rewrite andb_false_iff, !negb_false_iff, !bool_decide_eq_true.
    split; [intros [?|?]; auto | intros [?|[?|?]]; auto; done].
Qed.

(** The answer of the matcher, in closed form. *)
Lemma rule_matches_eq (r : Rule.t) (ev : Event.t) :
  rule_matches r ev =
  Ok (negb (source_mismatch r ev)
      && match resolve (Event.raw ev) (segments (Rule.match_field r)) with
         | Some v =>
             negb (is_None v)
             && Py.contains (Py.lower (Rule.match_contains r))
                  (Py.lower (comparison_string v))
         | None => false
         end).
Proof.
  unfold rule_matches. destruct (source_mismatch r ev); [done|].
  rewrite get_by_path_resolve. simpl.
  destruct (resolve _ _) as [v|]; simpl; [|done].
  rewrite haystack_comparison_string. by destruct (is_None v).
Qed.

Lemma rule_matches_true (r : Rule.t) (ev : Event.t) :
  rule_matches r ev = Ok true ↔ code_matches r ev.
Proof.
  rewrite rule_matches_eq. unfold code_matches.
  rewrite <- source_mismatch_false.
  split.
  - intros [= H]. apply andb_true_iff in H as [Hsrc H].
    apply negb_true_iff in Hsrc. split; [done|].
    destruct (resolve _ _) as [v|]; [|done].
    apply andb_true_iff in H as [Hnull H]. exists v.
    split_and!; [done | by destruct v | by apply contains_spec].
  - intros [Hsrc (v & Hres & Hnull & Hocc)].
    rewrite Hsrc, Hres. apply contains_spec in Hocc. rewrite Hocc.
    by destruct v.
Qed.

(** The scenario of the specification: "root" is found in "rootuser",
    not in "alice". *)
Example scenario_root_matches :
  rule_matches Sample.rule_root Sample.ev_root = Ok true
  ∧ rule_matches Sample.rule_root Sample.ev_alice = Ok false.
Proof. split; reflexivity. Qed.

(** Claim C2, as stated, fails in both directions. A rule whose
    [match_source] is the empty string is neither the wildcard nor equal
    to the source of the event, and the matcher still answers true; and a
    field that resolves to null is not compared as the text "null": the
    matcher answers false where the stated conditions hold. *)
Lemma matcher_spec_counterexample :
  (rule_matches Sample.rule_any Sample.ev_root = Ok true
   ∧ ¬ spec_matches Sample.rule_any Sample.ev_root)
  ∧ (rule_matches Sample.rule_null Sample.ev_null = Ok false
     ∧ spec_matches Sample.rule_null Sample.ev_null).
Proof.
  split; split.
  - reflexivity.
  - intros [[Hsrc|Hsrc] _]; discriminate Hsrc.
  - reflexivity.
  - split; [by left|]. exists JNull. split; [reflexivity|].
    by exists EmptyString, EmptyString.
Qed.

(** Claim C2, amended. The matcher always answers, and it answers true
    exactly when (1) [match_source] is empty, is the wildcard or equals
    the source of the event, (2) [match_field] resolves to a value that is
    not null, and (3) the lower-cased [match_contains] occurs within the
    lower-cased comparison string, which is the value itself for a
    string and its JSON serialization otherwise. An empty
    [match_contains] passes the test (3) for every value. *)
Theorem matcher_characterisation (r : Rule.t) (ev : Event.t) :
  (∃ b, rule_matches r ev = Ok b)
  ∧ (rule_matches r ev = Ok true ↔ code_matches r ev)
  ∧ (rule_matches r ev = Ok false ↔ ¬ code_matches r ev)
  ∧ (∀ v, Rule.match_contains r = EmptyString →
          Py.contains (Py.lower (Rule.match_contains r)) (Py.lower (haystack v)) = true
          ∧ occurs_in (Py.lower (Rule.match_contains r)) (Py.lower (comparison_string v))).
Proof.
  split_and!.
  - rewrite rule_matches_eq. eauto.
  - apply rule_matches_true.
  - rewrite <- rule_matches_true, rule_matches_eq.
    split; [by intros [= ->] | intros H; f_equal].
    apply not_true_is_false. intros Hb. apply H. by rewrite Hb.
  - intros v ->. split; [apply contains_empty|].
    apply contains_spec, contains_empty.
Qed.

(** Claim C3. Evaluating a rule on an event never raises, whatever the
    payload: the path loop descends only through a dict that holds the
    segment, answers [None] at any other node or at a missing key without
    ever reaching the failing subscript, and an absent path makes the
    matcher, and the loop body around it, answer "no match". *)
Theorem rule_evaluation_never_raises (r : Rule.t) (ev : Event.t) :
  (∃ b, rule_matches r ev = Ok b)
  ∧ (∀ st, ∃ st', detect_pair ev r st = Ok st')
  ∧ (∀ obj path, _get_by_path obj path = Ok (default JNull (resolve obj (segments path))))
  ∧ (∀ cur seg rest,
        get_by_path_loop cur (seg :: rest) =
        match cur with
        | JDict fields =>
            match assoc_get seg fields with
            | Some v => get_by_path_loop v rest
            | None => Ok JNull
            end
        | _ => Ok JNull
        end)
  ∧ (resolve (Event.raw ev) (segments (Rule.match_field r)) = None →
     rule_matches r ev = Ok false ∧ ∀ st, detect_pair ev r st = Ok st).
Proof.
  split_and!.
  - rewrite rule_matches_eq. eauto.
  - intros st. unfold detect_pair. rewrite rule_matches_eq. simpl.
    destruct (_ && _); simpl; [|eauto].
    destruct (existing_alert _ _ _); eauto.
  - apply get_by_path_resolve.
  - intros cur seg rest. destruct cur; simpl; try done.
    by destruct (assoc_get seg fields).
  - intros Hnone.
    assert (rule_matches r ev = Ok false) as Hm.
    { rewrite rule_matches_eq, Hnone. by rewrite andb_false_r. }
    split; [done|]. intros st. unfold detect_pair. by rewrite Hm.
Qed.

(** A payload that is a list, not a dict: no match, no exception. *)
Lemma rule_evaluation_never_raises_witness :
  rule_matches Sample.rule_root Sample.ev_list = Ok false
  ∧ ∀ st, detect_pair Sample.ev_list Sample.rule_root st = Ok st.
Proof.
  apply (rule_evaluation_never_raises Sample.rule_root Sample.ev_list).
  reflexivity.
Defined.

(** Claim C10. When [match_field] resolves to a JSON null the accessor
    returns [None], exactly as for an absent path; the matcher answers
    false whatever [match_contains] is, the value is never serialized, and
    the loop body creates no alert. *)
Theorem null_leaf_never_matches (r : Rule.t) (ev : Event.t) :
  resolve (Event.raw ev) (segments (Rule.match_field r)) = Some JNull →
  _get_by_path (Event.raw ev) (Rule.match_field r) = Ok JNull
  ∧ rule_matches r ev = Ok false
  ∧ ∀ st, detect_pair ev r st = Ok st.
Proof.
  intros Hnull.
  assert (rule_matches r ev = Ok false) as Hm.
  { rewrite rule_matches_eq, Hnull. simpl. by rewrite andb_false_r. }
  split_and!.
  - by rewrite get_by_path_resolve, Hnull.
  - done.
  - intros st. unfold detect_pair. by rewrite Hm.
Qed.

(** The rule searching for "null" on a payload whose [user] is null. *)
Lemma null_leaf_never_matches_witness :
  _get_by_path (Event.raw Sample.ev_null) (Rule.match_field Sample.rule_null) = Ok JNull
  ∧ rule_matches Sample.rule_null Sample.ev_null = Ok false
  ∧ ∀ st, detect_pair Sample.ev_null Sample.rule_null st = Ok st.
Proof.
  apply (null_leaf_never_matches Sample.rule_null Sample.ev_null).
  reflexivity.
Defined.

(** ** The detection run *)

Lemma for_each_invariant {A S} (body : A → S → exc S) (Q : list A → S → Prop)
    (xs : list A) (st : S) :
  Q [] st →
  (∀ pre x st, Q pre st → ∃ st', body x st = Ok st' ∧ Q (pre ++ [x]) st') →
  ∃ st', for_each body xs st = Ok st' ∧ Q xs st'.
Proof.
  intros Hinit Hstep.
  enough (∀ pre st, Q pre st → ∃ st', for_each body xs st = Ok st' ∧ Q (pre ++ xs) st')
    as Hgen by (apply (Hgen [] st Hinit)).
  induction xs as [|x xs IH]; intros pre st0 HQ; simpl.
  - exists st0. by rewrite app_nil_r.
  - destruct (Hstep pre x st0 HQ) as (st1 & -> & HQ1). simpl.
    destruct (IH (pre ++ [x]) st1 HQ1) as (st2 & Hrun & HQ2).
    exists st2. split; [done|]. by rewrite <- app_assoc in HQ2.
Qed.

Lemma existing_alert_None (s : Store) (ev : Event.t) (r : Rule.t) :
  existing_alert s ev r = None ↔ ¬ has_alert s r ev.
Proof.
  unfold existing_alert, has_alert, first.
  induction (alerts s) as [|a l IH]; simpl.
  - split; [intros _ H; by apply elem_of_nil in H | done].
  - rewrite filter_cons. case_decide as HP.
    + simpl. split; [done|]. intros H. exfalso. apply H.
      destruct HP as [He Hr]. apply elem_of_cons. left.
      unfold alert_key. by rewrite He, Hr.
    + rewrite IH, elem_of_cons. split.
      * intros Hn [Heq|Hin]; [|done]. apply HP.
        unfold alert_key in Heq. by simplify_eq.
      * intros Hn Hin. apply Hn. by right.
Qed.

Lemma detect_pair_skip (ev : Event.t) (r : Rule.t) (st : Store * nat) :
  (rule_matches r ev = Ok true → has_alert st.1 r ev) →
  detect_pair ev r st = Ok st.
Proof.
  unfold detect_pair. rewrite rule_matches_eq.
  destruct (_ && _); simpl; [|done]. intros H.
  destruct (existing_alert st.1 ev r) eqn:Hex; [done|].
  apply existing_alert_None in Hex. destruct Hex. by apply H.
Qed.

Lemma detect_pair_add (ev : Event.t) (r : Rule.t) (st : Store * nat) :
  rule_matches r ev = Ok true → ¬ has_alert st.1 r ev →
  detect_pair ev r st = Ok (add_alert (new_alert st.1 ev r) st.1, S st.2).
Proof.
  intros Hm Hno. unfold detect_pair. rewrite Hm. simpl.
  apply existing_alert_None in Hno. by rewrite Hno.
Qed.

Lemma has_alert_add (s : Store) (a : Alert.t) (r : Rule.t) (ev : Event.t) :
  has_alert (add_alert a s) r ev ↔ has_alert s r ev ∨ alert_key a = (Rule.id r, Event.id ev).
Proof.
  unfold has_alert, add_alert. simpl.
  rewrite fmap_app, elem_of_app. simpl. rewrite list_elem_of_singleton.
  split; intros [?|?]; auto.
Qed.

(** One turn of the inner loop keeps the invariant, never loses an alert,
    and leaves an alert on record when the rule matches. *)
Lemma detect_pair_inv (s0 : Store) (ev : Event.t) (r : Rule.t) (st : Store * nat) :
  run_inv s0 st →
  ∃ st', detect_pair ev r st = Ok st'
    ∧ run_inv s0 st'
    ∧ (∀ r' ev', has_alert st.1 r' ev' → has_alert st'.1 r' ev')
    ∧ (rule_matches r ev = Ok true → has_alert st'.1 r ev).
Proof.
  intros Hinv. pose proof Hinv as (Hr & He & (extra & Hal & Hlen) & Hu).
  destruct (existing_alert st.1 ev r) as [a|] eqn:Hex.
  - exists st. split_and!; [|done|done|].
    + apply detect_pair_skip. intros _.
      destruct (decide ((Rule.id r, Event.id ev) ∈ alert_key <$> alerts st.1)) as [|Hn];
        [done|].
      apply existing_alert_None in Hn. congruence.
    + intros _.
      destruct (decide ((Rule.id r, Event.id ev) ∈ alert_key <$> alerts st.1)) as [|Hn];
        [done|].
      apply existing_alert_None in Hn. congruence.
  - apply existing_alert_None in Hex.
    destruct (rule_matches r ev) as [[|]|] eqn:Hb.
    + exists (add_alert (new_alert st.1 ev r) st.1, S st.2).
      split_and!.
      * by apply detect_pair_add.
      * split_and!; simpl; [done | done | | ].
        -- exists (extra ++ [new_alert st.1 ev r]). rewrite Hal, app_assoc.
           split; [done|]. rewrite length_app. simpl. lia.
        -- intros Hu0. specialize (Hu Hu0).
           unfold alerts_unique. simpl. rewrite fmap_app. simpl.
           apply NoDup_app. split_and!; [done | | apply NoDup_singleton].
           intros k Hk Hk'. apply list_elem_of_singleton in Hk'. subst k.
           by apply Hex.
      * intros r' ev' H. apply has_alert_add. by left.
      * intros _. apply has_alert_add. by right.
    + exists st. split_and!; [|done|done|done].
      apply detect_pair_skip. by rewrite Hb.
    + by rewrite rule_matches_eq in Hb.
Qed.

Lemma detect_rules_inv (s0 : Store) (ev : Event.t) (rs : list Rule.t) (st : Store * nat) :
  run_inv s0 st →
  ∃ st', for_each (fun r => detect_pair ev r) rs st = Ok st'
    ∧ run_inv s0 st'
    ∧ (∀ r' ev', has_alert st.1 r' ev' → has_alert st'.1 r' ev')
    ∧ (∀ r, r ∈ rs → rule_matches r ev = Ok true → has_alert st'.1 r ev).
Proof.
  intros Hinv.
  pose (Q := fun (pre : list Rule.t) (st' : Store * nat) =>
               run_inv s0 st'
               ∧ (∀ r' ev', has_alert st.1 r' ev' → has_alert st'.1 r' ev')
               ∧ (∀ r, r ∈ pre → rule_matches r ev = Ok true → has_alert st'.1 r ev)).
  destruct (for_each_invariant (fun r => detect_pair ev r) Q rs st) as (st' & Hrun & HQ).
  - split_and!; [done | done | by intros r ?%elem_of_nil].
  - intros pre r st1 (Hinv1 & Hgrow1 & Hcov1).
    destruct (detect_pair_inv s0 ev r st1 Hinv1) as (st2 & Hstep & Hinv2 & Hgrow2 & Hnew).
    exists st2. split; [done|]. split_and!; [done | by eauto |].
    intros r' [Hin| ->%list_elem_of_singleton]%elem_of_app Hm; [|by auto].
    apply Hgrow2. by apply Hcov1.
  - exists st'. by destruct HQ as (? & ? & ?).
Qed.

(** A run over a window keeps the invariant and leaves an alert on record
    for every matching pair of the window. *)
Lemma detect_window_inv (s0 : Store) (rs : list Rule.t) (evs : list Event.t)
    (st : Store * nat) :
  run_inv s0 st →
  ∃ st', detect_window rs evs st = Ok st'
    ∧ run_inv s0 st'
    ∧ (∀ ev r, ev ∈ evs → r ∈ rs → rule_matches r ev = Ok true → has_alert st'.1 r ev).
Proof.
  intros Hinv.
  pose (Q := fun (pre : list Event.t) (st' : Store * nat) =>
               run_inv s0 st'
               ∧ (∀ ev r, ev ∈ pre → r ∈ rs → rule_matches r ev = Ok true →
                          has_alert st'.1 r ev)).
  destruct (for_each_invariant
              (fun ev => for_each (fun r => detect_pair ev r) rs) Q evs st)
    as (st' & Hrun & HQ).
  - split; [done | by intros ev r ?%elem_of_nil].
  - intros pre ev st1 (Hinv1 & Hcov1).
    destruct (detect_rules_inv s0 ev rs st1 Hinv1) as (st2 & Hstep & Hinv2 & Hgrow & Hnew).
    exists st2. split; [done|]. split; [done|].
    intros ev' r [Hin| ->%list_elem_of_singleton]%elem_of_app Hr Hm; [|by auto].
    apply Hgrow. by apply Hcov1.
  - exists st'. by destruct HQ.
Qed.

Lemma for_each_fixed {A S} (body : A → S → exc S) (xs : list A) (st : S) :
  (∀ x, x ∈ xs → body x st = Ok st) → for_each body xs st = Ok st.
Proof.
  induction xs as [|x xs IH]; intros H; simpl; [done|].
  rewrite H by (apply elem_of_cons; by left). simpl.
  apply IH. intros y Hy. apply H. apply elem_of_cons. by right.
Qed.

(** Over a window whose matching pairs all have their alert, the loops
    change nothing. *)
Lemma detect_window_covered (rs : list Rule.t) (evs : list Event.t) (st : Store * nat) :
  (∀ ev r, ev ∈ evs → r ∈ rs → rule_matches r ev = Ok true → has_alert st.1 r ev) →
  detect_window rs evs st = Ok st.
Proof.
  intros Hcov. apply for_each_fixed. intros ev Hev.
  apply for_each_fixed. intros r Hr.
  apply detect_pair_skip. by apply Hcov.
Qed.

Lemma run_inv_init (s : Store) : run_inv s (s, 0).
Proof.
  split_and!; simpl; [done | done | | done].
  exists []. by rewrite app_nil_r.
Qed.

(** A run and the run after it. *)
Lemma run_detections_spec (s : Store) (limit : nat) :
  ∃ s1 created,
    run_detections s limit = Ok (s1, created)
    ∧ (∃ extra, alerts s1 = alerts s ++ extra ∧ length extra = created)
    ∧ (alerts_unique s → alerts_unique s1)
    ∧ query_rules s1 = query_rules s
    ∧ query_events s1 limit = query_events s limit
    ∧ run_detections s1 limit = Ok (s1, 0).
Proof.
  unfold run_detections.
  destruct (query_rules s) as [|r0 rs] eqn:Hrules.
  - exists s, 0. rewrite Hrules.
    split_and!; [done | exists []; by rewrite app_nil_r | done..].
  - destruct (detect_window_inv s (r0 :: rs) (query_events s limit) (s, 0)
                (run_inv_init s))
      as ([s1 created] & Hrun & (Hr & He & Hext & Hu) & Hcov).
    simpl in *.
    assert (query_rules s1 = r0 :: rs) as Hrules1
      by (unfold query_rules in *; by rewrite Hr).
    assert (query_events s1 limit = query_events s limit) as Hevents1
      by (unfold query_events; by rewrite He).
    exists s1, created. rewrite Hrules1, Hevents1.
    split_and!; [done..|].
    by apply detect_window_covered.
Qed.

(** In every session that arises from one without alerts, no two alerts
    share their rule and event. *)
Lemma reachable_alerts_unique (s : Store) : detection_reachable s → alerts_unique s.
Proof.
  induction 1 as [s Hnone | s s1 limit created _ IH Hrun | s s' _ IH Hsub].
  - unfold alerts_unique. rewrite Hnone. apply NoDup_nil_2.
  - destruct (run_detections_spec s limit) as (s1' & created' & Hrun' & _ & Hu & _).
    rewrite Hrun in Hrun'. injection Hrun' as <- <-. by apply Hu.
  - unfold alerts_unique in *. eapply sublist_NoDup; [exact IH|].
    by apply fmap_sublist.
Qed.

(** Claim C1. A detection run always completes; it appends the alerts it
    creates, as many as it reports, and touches neither the rules nor the
    events, so that a second run works on the same window; no two alerts
    share a (rule_id, event_id) pair after the run when none did before,
    hence in every session that arises from one without alerts; and the
    second run creates no alert and leaves the session as the first run
    left it. *)
Theorem detection_dedup_idempotent (s : Store) (limit : nat) :
  ∃ s1 created,
    run_detections s limit = Ok (s1, created)
    ∧ (∃ extra, alerts s1 = alerts s ++ extra ∧ length extra = created)
    ∧ (alerts_unique s → alerts_unique s1)
    ∧ (detection_reachable s → alerts_unique s ∧ alerts_unique s1)
    ∧ query_rules s1 = query_rules s
    ∧ query_events s1 limit = query_events s limit
    ∧ run_detections s1 limit = Ok (s1, 0).
Proof.
  destruct (run_detections_spec s limit)
    as (s1 & created & Hrun & Hext & Hu & Hr & He & Hagain).
  exists s1, created. split_and!; try done.
  intros Hreach. pose proof (reachable_alerts_unique s Hreach). auto.
Qed.

(** The sample store holds no alert; the run over it is the concrete case. *)
Lemma detection_dedup_idempotent_witness :
  ∃ s1 created,
    run_detections Sample.store1 500 = Ok (s1, created)
    ∧ alerts_unique s1
    ∧ run_detections s1 500 = Ok (s1, 0).
Proof.
  destruct (detection_dedup_idempotent Sample.store1 500)
    as (s1 & created & Hrun & _ & _ & Hu & _ & _ & Hagain).
  exists s1, created. split_and!; [exact Hrun | | exact Hagain].
  apply Hu. by apply reach_no_alerts.
Defined.

(** On the sample store one alert is created, for the root rule and the
    root event; the second run creates none. *)
Example run_detections_sample :
  (try! r1 := run_detections Sample.store1 500 in
   try! r2 := run_detections r1.1 500 in
   Ok (r1.2, alert_key <$> alerts r1.1, r2.2, alert_key <$> alerts r2.1))
  = Ok (1, [("r-root", "e-1")], 0, [("r-root", "e-1")]).
Proof. vm_compute. reflexivity. Qed.

(** ** Incident bookkeeping *)

Lemma first_filter_None {A} (P : A → Prop) `{!∀ x, Decision (P x)} (l : list A) :
  first (filter P l) = None ↔ ∀ x, x ∈ l → ¬ P x.
Proof.
  unfold first. induction l as [|a l IH]; simpl.
  - split; [intros _ x ?%elem_of_nil; done | done].
  - rewrite filter_cons. case_decide as HP; simpl.
    + split; [done|]. intros Hall. destruct (Hall a); [apply elem_of_cons; by left | done].
    + rewrite IH. split.
      * intros Hall x [->|Hx]%elem_of_cons; [done | by apply Hall].
      * intros Hall x Hx. apply Hall, elem_of_cons. by right.
Qed.

Lemma first_filter_Some {A} (P : A → Prop) `{!∀ x, Decision (P x)} (l : list A) (a : A) :
  first (filter P l) = Some a → a ∈ l ∧ P a.
Proof.
  unfold first. intros Hhd.
  assert (a ∈ filter P l) as Hin.
  { destruct (filter P l); simplify_eq/=. apply elem_of_cons. by left. }
  by apply list_elem_of_filter in Hin as [? ?].
Qed.

Lemma filter_all {A} (P : A → Prop) `{!∀ x, Decision (P x)} (l : list A) :
  (∀ x, x ∈ l → P x) → filter P l = l.
Proof.
  induction l as [|a l IH]; intros Hall; [done|].
  rewrite filter_cons_True by (apply Hall, elem_of_cons; by left).
  f_equal. apply IH. intros x Hx. apply Hall, elem_of_cons. by right.
Qed.

Lemma find_incident_None (s : Store) (incident_id : string) :
  find_incident s incident_id = None ↔
  ∀ i, i ∈ incidents s → Incident.id i ≠ incident_id.
Proof. apply (first_filter_None (fun i => Incident.id i = incident_id)). Qed.

Lemma find_incident_Some (s : Store) (incident_id : string) (inc : Incident.t) :
  find_incident s incident_id = Some inc → inc ∈ incidents s ∧ Incident.id inc = incident_id.
Proof. apply (first_filter_Some (fun i => Incident.id i = incident_id)). Qed.

(** The loop deleting links touches only the link table, and what it
    leaves are the rows whose key is not among the deleted ones. *)
Lemma delete_links_spec (xs : list IncidentAlert.t) (s : Store) :
  let s' := foldl (fun st x => delete_link x st) s xs in
  incidents s' = incidents s ∧ incident_actions s' = incident_actions s
  ∧ evidence_files s' = evidence_files s ∧ alerts s' = alerts s
  ∧ incident_alerts s' = filter (fun l => link_key l ∉ link_key <$> xs) (incident_alerts s).
Proof.
  revert s. induction xs as [|x xs IH]; intros s; simpl.
  - split_and!; try done. symmetry. apply filter_all. by intros l _ ?%elem_of_nil.
  - destruct (IH (delete_link x s)) as (Hi & Ha & He & Hal & Hl).
    split_and!; [by rewrite Hi | by rewrite Ha | by rewrite He | by rewrite Hal |].
    rewrite Hl. simpl. rewrite list_filter_filter.
    apply list_filter_iff. intros l. rewrite elem_of_cons. unfold link_key.
    split.
    + intros [Hn Hk] [Heq|Hin]; [|done]. apply Hk. by simplify_eq.
    + intros Hn. split; [intros Hin; apply Hn; by right|].
      intros [H1 H2]. apply Hn. left. by rewrite H1, H2.
Qed.

Lemma delete_actions_spec (xs : list IncidentAction.t) (s : Store) :
  let s' := foldl (fun st x => delete_action x st) s xs in
  incidents s' = incidents s ∧ incident_alerts s' = incident_alerts s
  ∧ evidence_files s' = evidence_files s ∧ alerts s' = alerts s
  ∧ incident_actions s' =
      filter (fun act => IncidentAction.id act ∉ IncidentAction.id <$> xs)
             (incident_actions s).
Proof.
  revert s. induction xs as [|x xs IH]; intros s; simpl.
  - split_and!; try done. symmetry. apply filter_all. by intros l _ ?%elem_of_nil.
  - destruct (IH (delete_action x s)) as (Hi & Ha & He & Hal & Hl).
    split_and!; [by rewrite Hi | by rewrite Ha | by rewrite He | by rewrite Hal |].
    rewrite Hl. simpl. rewrite list_filter_filter.
    apply list_filter_iff. intros act. rewrite elem_of_cons.
    split.
    + intros [Hn Hk] [Heq|Hin]; done.
    + intros Hn. split; [intros Hin; apply Hn; by right|].
      intros Heq. apply Hn. by left.
Qed.

(** After the children are deleted no link and no action names the
    incident, and the incident itself is still there. *)
Lemma delete_children_spec (s : Store) (incident_id : string) :
  let s' := delete_children s incident_id in
  incidents s' = incidents s
  ∧ evidence_files s' = evidence_files s
  ∧ alerts s' = alerts s
  ∧ (∀ l, l ∈ incident_alerts s' → l ∈ incident_alerts s
                                   ∧ IncidentAlert.incident_id l ≠ incident_id)
  ∧ (∀ l, l ∈ incident_alerts s → IncidentAlert.incident_id l ≠ incident_id →
          l ∈ incident_alerts s')
  ∧ (∀ act, act ∈ incident_actions s' → act ∈ incident_actions s
                                        ∧ IncidentAction.incident_id act ≠ incident_id).
Proof.
  unfold delete_children.
  set (links := filter _ (incident_alerts s)).
  set (actions := filter _ (incident_actions s)).
  destruct (delete_links_spec links s) as (Hi1 & Ha1 & He1 & Hal1 & Hl1).
  destruct (delete_actions_spec actions (foldl (fun st x => delete_link x st) s links))
    as (Hi2 & Hl2 & He2 & Hal2 & Ha2).
  simpl in *.
  split_and!.
  - by rewrite Hi2, Hi1.
  - by rewrite He2, He1.
  - by rewrite Hal2, Hal1.
  - intros l. rewrite Hl2, Hl1. intros [Hk Hin]%list_elem_of_filter.
    split; [done|]. intros Hid. apply Hk.
    apply list_elem_of_fmap. exists l. split; [done|].
    apply list_elem_of_filter. by split.
  - intros l Hin Hid. rewrite Hl2, Hl1. apply list_elem_of_filter. split; [|done].
    intros (l' & Hk & Hin')%list_elem_of_fmap.
    apply list_elem_of_filter in Hin' as [Hid' _].
    unfold link_key in Hk. apply Hid. by simplify_eq.
  - intros act. rewrite Ha2, Ha1. intros [Hk Hin]%list_elem_of_filter.
    split; [done|]. intros Hid. apply Hk.
    apply list_elem_of_fmap. exists act. split; [done|].
    apply list_elem_of_filter. by split.
Qed.

(** Claim C8, as stated, fails: the evidence records of an incident are
    not deleted with it, so rows naming the deleted incident remain. *)
Lemma delete_incident_orphan_counterexample :
  ∃ s1, delete_incident Sample.store2 "i-1" = Ok (s1, "deleted")
        ∧ referenced s1 "i-1".
Proof.
  eexists. split; [reflexivity|].
  right; right. exists Sample.evidence1. split; [|reflexivity].
  simpl. apply elem_of_cons. by left.
Qed.

(** Claim C8, amended. Deleting an existing incident first removes every
    link and every action of the incident, the incident still being on
    record at that point, then removes the incident: afterwards no
    IncidentAlert row and no IncidentAction row names it, the links of
    other incidents are kept, and looking the incident up answers 404.
    The EvidenceFile rows are left as they were. *)
Theorem delete_incident_cascades (s : Store) (incident_id : string) (inc : Incident.t) :
  find_incident s incident_id = Some inc →
  ∃ s1,
    delete_incident s incident_id = Ok (s1, "deleted")
    ∧ s1 = delete_incident_row inc (delete_children s incident_id)
    ∧ find_incident (delete_children s incident_id) incident_id = Some inc
    ∧ (∀ l, l ∈ incident_alerts (delete_children s incident_id) →
            IncidentAlert.incident_id l ≠ incident_id)
    ∧ (∀ act, act ∈ incident_actions (delete_children s incident_id) →
              IncidentAction.incident_id act ≠ incident_id)
    ∧ (∀ l, l ∈ incident_alerts s1 → IncidentAlert.incident_id l ≠ incident_id)
    ∧ (∀ act, act ∈ incident_actions s1 → IncidentAction.incident_id act ≠ incident_id)
    ∧ (∀ l, l ∈ incident_alerts s → IncidentAlert.incident_id l ≠ incident_id →
            l ∈ incident_alerts s1)
    ∧ find_incident s1 incident_id = None
    ∧ get_incident s1 incident_id = Raise (HTTPException 404 "incident not found")
    ∧ evidence_files s1 = evidence_files s.
Proof.
  intros Hfind.
  destruct (delete_children_spec s incident_id) as (Hi & He & _ & Hl & Hkeep & Ha).
  simpl in *.
  assert (find_incident (delete_incident_row inc (delete_children s incident_id))
            incident_id = None) as Hgone.
  { apply find_incident_None. simpl.
    intros i [Hne _]%list_elem_of_filter.
    apply find_incident_Some in Hfind as [_ <-]. done. }
  exists (delete_incident_row inc (delete_children s incident_id)).
  split_and!; simpl.
  - unfold delete_incident. by rewrite Hfind.
  - done.
  - unfold find_incident in *. by rewrite Hi.
  - intros l Hin. by apply Hl.
  - intros act Hin. by apply Ha.
  - intros l Hin. by apply Hl.
  - intros act Hin. by apply Ha.
  - done.
  - done.
  - unfold get_incident. by rewrite Hgone.
  - done.
Qed.

(** The specification's scenario: two links and one action go with the
    incident, the link of the other incident stays. *)
Lemma delete_incident_cascades_witness :
  ∃ s1,
    delete_incident Sample.store2 "i-1" = Ok (s1, "deleted")
    ∧ incident_alerts s1 = [IncidentAlert.mk "i-2" "a-1" Sample.t1]
    ∧ incident_actions s1 = []
    ∧ find_incident s1 "i-1" = None.
Proof.
  destruct (delete_incident_cascades Sample.store2 "i-1" Sample.incident1 eq_refl)
    as (s1 & Hdel & -> & _ & _ & _ & _ & _ & _ & Hgone & _).
  eexists. split; [exact Hdel|]. split_and!; [reflexivity | reflexivity | exact Hgone].
Defined.

Lemma touch_incident_found (incident_id : string) (now : DT.t) (incs : list Incident.t) :
  is_Some (first (filter (fun i => Incident.id i = incident_id) incs)) →
  is_Some (first (filter (fun i => Incident.id i = incident_id)
                         (touch_incident incident_id now incs))).
Proof.
  induction incs as [|i incs IH]; simpl; [done|].
  rewrite filter_cons. case_decide as Hid.
  - intros _. rewrite filter_cons_True by done. simpl. eauto.
  - intros H. rewrite filter_cons_False by done. by apply IH.
Qed.

(** Claim C9. With the incident and the alert on record, linking answers
    without error; linking the same pair again answers "already-linked"
    and leaves the session untouched; and when the pair had at most one
    row before, as the composite key demands, it has exactly one after,
    the key staying unique over the whole table. *)
Theorem relink_already_linked (s : Store) (incident_id alert_id : string) :
  is_Some (find_incident s incident_id) →
  is_Some (find_alert s alert_id) →
  ∃ s1 status,
    add_alert_to_incident s incident_id alert_id = Ok (s1, status)
    ∧ (status = "linked" ∨ status = "already-linked")
    ∧ add_alert_to_incident s1 incident_id alert_id = Ok (s1, "already-linked")
    ∧ (length (links_of s incident_id alert_id) ≤ 1 →
       length (links_of s1 incident_id alert_id) = 1)
    ∧ (links_unique s → links_unique s1).
Proof.
  intros [inc Hinc] [a Ha].
  unfold add_alert_to_incident. rewrite Hinc, Ha.
  destruct (find_link s incident_id alert_id) as [l|] eqn:Hlink.
  - exists s, "already-linked". rewrite Hinc, Ha, Hlink.
    split_and!; [done | by right | done | | done].
    unfold find_link, first in Hlink. unfold links_of.
    destruct (filter _ (incident_alerts s)) as [|? [|? ?]]; simpl in *; [done | done | lia].
  - set (now := utc_now s).
    set (s1 := set_incident_tables s _ _ _).
    assert (is_Some (find_incident s1 incident_id)) as [inc1 Hinc1].
    { unfold find_incident. simpl. apply touch_incident_found.
      unfold find_incident in Hinc. by rewrite Hinc. }
    assert (links_of s incident_id alert_id = []) as Hnone.
    { unfold find_link, first in Hlink. unfold links_of.
      by destruct (filter _ (incident_alerts s)). }
    assert (links_of s1 incident_id alert_id = [IncidentAlert.mk incident_id alert_id now])
      as Hone.
    { unfold links_of in *. simpl. rewrite filter_app, Hnone. simpl.
      by rewrite filter_cons_True. }
    exists s1, "linked".
    split_and!; [done | by left | | | ].
    + rewrite Hinc1. unfold find_alert in *. simpl. rewrite Ha.
      unfold find_link. fold (links_of s1 incident_id alert_id). by rewrite Hone.
    + intros _. by rewrite Hone.
    + unfold links_unique. simpl. rewrite fmap_app. simpl. intros Hu.
      apply NoDup_app. split_and!; [done | | apply NoDup_singleton].
      intros k (l & -> & Hin)%list_elem_of_fmap ?%list_elem_of_singleton.
      assert (l ∈ links_of s incident_id alert_id) as Hl.
      { apply list_elem_of_filter. unfold link_key in *. by simplify_eq. }
      rewrite Hnone in Hl. by apply elem_of_nil in Hl.
Qed.

(** An alert not linked yet: the first call links, the second answers
    "already-linked", one row stands. *)
Lemma relink_already_linked_witness :
  ∃ s1 status,
    add_alert_to_incident Sample.store3 "i-1" "a-1" = Ok (s1, status)
    ∧ (status = "linked" ∨ status = "already-linked")
    ∧ add_alert_to_incident s1 "i-1" "a-1" = Ok (s1, "already-linked")
    ∧ (length (links_of Sample.store3 "i-1" "a-1") ≤ 1 →
       length (links_of s1 "i-1" "a-1") = 1)
    ∧ (links_unique Sample.store3 → links_unique s1).
Proof.
  apply (relink_already_linked Sample.store3 "i-1" "a-1"); vm_compute; eauto.
Defined.

(** Linking twice on the sample: "linked", then "already-linked". *)
Example relink_sample :
  ∃ s1, add_alert_to_incident Sample.store3 "i-1" "a-1" = Ok (s1, "linked")
        ∧ add_alert_to_incident s1 "i-1" "a-1" = Ok (s1, "already-linked")
        ∧ length (incident_alerts s1) = 1.
Proof. eexists. split_and!; reflexivity. Qed.

(** Claim C7. [build_incident_packet] raises its not-found error exactly
    when no incident has the id, [get_incident_packet] then answers 404;
    for an id on record both return the packet of that incident, and the
    builder raises nothing else. *)
Theorem packet_not_found_iff (s : Store) (incident_id : string) :
  (build_incident_packet s incident_id = Raise (ValueError "incident not found")
   ↔ find_incident s incident_id = None)
  ∧ (get_incident_packet s incident_id = Raise (HTTPException 404 "incident not found")
     ↔ find_incident s incident_id = None)
  ∧ (find_incident s incident_id = None
     ↔ ∀ i, i ∈ incidents s → Incident.id i ≠ incident_id)
  ∧ (is_Some (find_incident s incident_id)
     ↔ ∃ p, build_incident_packet s incident_id = Ok p
            ∧ get_incident_packet s incident_id = Ok p
            ∧ Packet.id (Packet.incident p) = incident_id)
  ∧ (∀ e, build_incident_packet s incident_id = Raise e →
          e = ValueError "incident not found").
Proof.
  assert (∀ inc, find_incident s incident_id = Some inc →
                 ∃ p, build_incident_packet s incident_id = Ok p
                      ∧ Packet.id (Packet.incident p) = incident_id) as Hok.
  { intros inc Hinc. unfold build_incident_packet. rewrite Hinc.
    apply find_incident_Some in Hinc as [_ Hid].
    destruct (times _); eexists; (split; [reflexivity | done]). }
  assert (find_incident s incident_id = None →
          build_incident_packet s incident_id = Raise (ValueError "incident not found"))
    as Hmiss.
  { intros Hnone. unfold build_incident_packet. by rewrite Hnone. }
  split_and!.
  - split; [|done]. intros Hraise.
    destruct (find_incident s incident_id) as [inc|] eqn:Hinc; [|done].
    destruct (Hok inc eq_refl) as (p & Hp & _). congruence.
  - unfold get_incident_packet.
    destruct (find_incident s incident_id) as [inc|] eqn:Hinc.
    + destruct (Hok inc eq_refl) as (p & -> & _). done.
    + by rewrite Hmiss.
  - apply find_incident_None.
  - split.
    + intros [inc Hinc]. destruct (Hok inc Hinc) as (p & Hp & Hid).
      exists p. unfold get_incident_packet. by rewrite Hp.
    + intros (p & Hp & _).
      destruct (find_incident s incident_id) as [inc|] eqn:Hinc; [eauto|].
      rewrite Hmiss in Hp; done.
  - intros e He.
    destruct (find_incident s incident_id) as [inc|] eqn:Hinc.
    + destruct (Hok inc eq_refl) as (p & Hp & _). congruence.
    + rewrite Hmiss in He; congruence.
Qed.

(** An id of the sample store and an id it does not hold. *)
Lemma packet_not_found_iff_witness :
  (∃ p, build_incident_packet Sample.store2 "i-1" = Ok p
        ∧ get_incident_packet Sample.store2 "i-1" = Ok p
        ∧ Packet.id (Packet.incident p) = "i-1")
  ∧ build_incident_packet Sample.store2 "i-9" = Raise (ValueError "incident not found")
  ∧ get_incident_packet Sample.store2 "i-9"
    = Raise (HTTPException 404 "incident not found").
Proof.
  destruct (packet_not_found_iff Sample.store2 "i-1") as (_ & _ & _ & [Hsome _] & _).
  destruct (packet_not_found_iff Sample.store2 "i-9") as ([_ Hb] & [_ Hg] & _).
  split_and!; [apply Hsome; vm_compute; eauto | by apply Hb | by apply Hg].
Defined.

(** ** Scope lists *)

Lemma truthy_iff (x : string) : Py.truthy x = true ↔ x ≠ EmptyString.
Proof. by destruct x. Qed.

Lemma uniq_loop_first_seen (items : list string) (seen : gset string) (out : list string) :
  uniq_loop seen out items = out ++ filter (fun y => y ∉ seen) (first_seen items).
Proof.
  revert seen out. induction items as [|x rest IH]; intros seen out; simpl.
  - by rewrite app_nil_r.
  - destruct (Py.truthy x) eqn:Hx; simpl; [|apply IH].
    case_decide as Hseen.
    + rewrite IH, filter_cons_False by auto. f_equal.
      rewrite list_filter_filter. apply list_filter_iff.
      intros y. split; [|by intros [? ?]].
      intros Hy. split; [done|]. by intros ->.
    + rewrite IH, filter_cons_True by done.
      rewrite <- app_assoc. simpl. do 2 f_equal.
      rewrite list_filter_filter. apply list_filter_iff.
      intros y. rewrite not_elem_of_union, not_elem_of_singleton. tauto.
Qed.

(** [_uniq] computes the first occurrences. *)
Lemma uniq_first_seen (items : list string) : _uniq items = first_seen items.
Proof.
  unfold _uniq. rewrite uniq_loop_first_seen. simpl.
  apply filter_all. intros y _. apply not_elem_of_empty.
Qed.

Lemma first_seen_elem (l : list string) (y : string) :
  y ∈ first_seen l ↔ y ∈ l ∧ y ≠ EmptyString.
Proof.
  induction l as [|x l IH]; simpl.
  - split; [by intros ?%elem_of_nil | by intros [?%elem_of_nil _]].
  - destruct (Py.truthy x) eqn:Hx.
    + rewrite !elem_of_cons, list_elem_of_filter, IH.
      apply truthy_iff in Hx.
      split.
      * intros [->|[Hne [Hin Hy]]]; auto.
      * intros [[->|Hin] Hy]; [by left|].
        destruct (decide (y = x)); [by left | right; auto].
    + rewrite IH, elem_of_cons. destruct x; [|done].
      split; [intros [? ?]; auto|]. intros [[->|?] ?]; done.
Qed.

Lemma first_seen_NoDup (l : list string) : NoDup (first_seen l).
Proof.
  induction l as [|x l IH]; simpl; [apply NoDup_nil_2|].
  destruct (Py.truthy x); [|done].
  apply NoDup_cons. split; [|by apply NoDup_filter].
  by intros [? _]%list_elem_of_filter.
Qed.

(** Appending a value to the input appends it to the output when it is
    new and not empty, and changes nothing otherwise. *)
Lemma first_seen_snoc (l : list string) (x : string) :
  first_seen (l ++ [x]) =
  if decide (x ≠ EmptyString ∧ x ∉ l) then first_seen l ++ [x] else first_seen l.
Proof.
  induction l as [|z l IH]; simpl.
  - case_decide as Hd; destruct x; try done.
    + by destruct Hd as [? _].
    + destruct Hd. split; [done | apply not_elem_of_nil].
  - rewrite IH.
    assert ((x ≠ EmptyString ∧ x ∉ z :: l) ↔ (x ≠ EmptyString ∧ x ∉ l) ∧ x ≠ z) as Hiff.
    { rewrite not_elem_of_cons. tauto. }
    destruct (Py.truthy z) eqn:Hz.
    + destruct (decide (x ≠ EmptyString ∧ x ∉ l)) as [Hd|Hd].
      * rewrite filter_app, filter_singleton by done.
        destruct (decide (x = z)) as [->|Hxz].
        -- rewrite decide_False by (by intros ?).
           rewrite decide_False by (rewrite Hiff; tauto).
           by rewrite app_nil_r.
        -- rewrite decide_True by done.
           by rewrite decide_True by (rewrite Hiff; tauto).
      * by rewrite decide_False by (rewrite Hiff; tauto).
    + destruct z; [|done].
      destruct (decide (x ≠ EmptyString ∧ x ∉ l)) as [Hd|Hd].
      * by rewrite decide_True by (rewrite Hiff; tauto).
      * by rewrite decide_False by (rewrite Hiff; tauto).
Qed.

Lemma first_at_exists (x : string) (l : list string) :
  x ∈ l → ∃ a, first_at x l a.
Proof.
  induction l as [|z l IH]; [by intros ?%elem_of_nil|].
  intros Hin. destruct (decide (x = z)) as [->|Hne].
  - exists 0. split; [done | apply not_elem_of_nil].
  - apply elem_of_cons in Hin as [?|Hin]; [done|].
    destruct (IH Hin) as (a & Ha & Hbefore).
    exists (S a). split; [done|]. simpl. by intros [?|?]%elem_of_cons.
Qed.

Lemma first_at_app (x : string) (l : list string) (z : string) (a : nat) :
  first_at x l a → first_at x (l ++ [z]) a.
Proof.
  intros [Ha Hbefore]. pose proof (lookup_lt_Some _ _ _ Ha) as Hlt.
  split; [by rewrite lookup_app_l | by rewrite take_app_le by lia].
Qed.

Lemma first_seen_order (l : list string) (i j : nat) (x y : string) :
  first_seen l !! i = Some x → first_seen l !! j = Some y → i < j →
  ∃ a b, a < b ∧ first_at x l a ∧ first_at y l b.
Proof.
  revert i j x y. induction l as [|z l IH] using rev_ind; intros i j x y; [done|].
  rewrite first_seen_snoc. case_decide as Hnew.
  - destruct Hnew as [Hz Hfresh]. intros Hi Hj Hij.
    destruct (decide (j < length (first_seen l))) as [Hjl|Hjl].
    + rewrite lookup_app_l in Hi by lia. rewrite lookup_app_l in Hj by lia.
      destruct (IH i j x y Hi Hj Hij) as (a & b & Hab & Ha & Hb).
      exists a, b. split_and!; [done | by apply first_at_app..].
    + pose proof (lookup_lt_Some _ _ _ Hj) as Hjlen.
      rewrite length_app in Hjlen. simpl in Hjlen.
      assert (j = length (first_seen l)) as -> by lia.
      rewrite lookup_app_l in Hi by lia.
      rewrite list_lookup_middle in Hj by done. injection Hj as <-.
      assert (x ∈ l) as Hx.
      { apply (first_seen_elem l x). by eapply list_elem_of_lookup_2. }
      destruct (first_at_exists x l Hx) as (a & Ha).
      pose proof (lookup_lt_Some _ _ _ (proj1 Ha)) as Hal.
      exists a, (length l). split_and!; [done | by apply first_at_app |].
      split; [by apply list_lookup_middle|].
      by rewrite take_app_le, firstn_all by lia.
  - intros Hi Hj Hij.
    destruct (IH i j x y Hi Hj Hij) as (a & b & Hab & Ha & Hb).
    exists a, b. split_and!; [done | by apply first_at_app..].
Qed.

Lemma uniq_in_first_seen_order (l : list string) : in_first_seen_order l (_uniq l).
Proof.
  rewrite uniq_first_seen. split_and!.
  - apply first_seen_NoDup.
  - apply first_seen_elem.
  - apply first_seen_order.
Qed.

Lemma flat_map_nil {A B} (f : A → list B) (l : list A) :
  (∀ x, x ∈ l → f x = []) → flat_map f l = [].
Proof.
  induction l as [|a l IH]; intros Hall; simpl; [done|].
  rewrite Hall by (apply elem_of_cons; by left). simpl.
  apply IH. intros x Hx. apply Hall, elem_of_cons. by right.
Qed.

Lemma extract_ips_no_keys (raw : list (string * json)) :
  (∀ k, k ∈ ip_keys → assoc_get k raw = None) → _extract_ips raw = [].
Proof.
  intros Hnone. unfold _extract_ips.
  rewrite flat_map_nil; [done|].
  intros k Hk. by rewrite Hnone.
Qed.

Lemma dedupe_loop_uniq_loop (items : list string) (seen : gset string) (out : list string) :
  Forall (fun x => Py.truthy x = true) items →
  dedupe_loop seen out items = uniq_loop seen out items.
Proof.
  revert seen out. induction items as [|x items IH]; intros seen out Hall; [done|].
  apply Forall_cons in Hall as [Hx Hall]. simpl. rewrite Hx. simpl.
  case_decide; by apply IH.
Qed.

Lemma ips_of_value_elem (v : option json) (ip : string) :
  ip ∈ ips_of_value v ↔
  ∃ s, ip = Py.strip s ∧ ip ≠ EmptyString
       ∧ (v = Some (JStr s) ∨ ∃ items, v = Some (JList items) ∧ JStr s ∈ items).
Proof.
  split.
  - destruct v as [[| | | |s|items|]|]; simpl; try (by intros ?%elem_of_nil).
    + destruct (Py.truthy (Py.strip s)) eqn:Hs; [|by intros ?%elem_of_nil].
      intros ->%list_elem_of_singleton. exists s. apply truthy_iff in Hs. eauto.
    + intros (item & Hitem & Hip)%list_elem_of_In%in_flat_map.
      destruct item as [| | | |s| |]; try done.
      destruct (Py.truthy (Py.strip s)) eqn:Hs; [|done].
      destruct Hip as [<-|[]]. exists s. apply truthy_iff in Hs.
      split_and!; [done | done |]. right. exists items. split; [done|].
      by apply list_elem_of_In.
  - intros (s & -> & Hne & [->|(items & -> & Hin)]); simpl.
    + apply truthy_iff in Hne. rewrite Hne. by apply list_elem_of_singleton.
    + apply list_elem_of_In, in_flat_map. exists (JStr s).
      split; [by apply list_elem_of_In|].
      apply truthy_iff in Hne. rewrite Hne. by left.
Qed.

(** The addresses of a payload, one by one. *)
Lemma extract_ips_elem (raw : list (string * json)) (ip : string) :
  ip ∈ _extract_ips raw ↔ ip ≠ EmptyString ∧ address_of raw ip.
Proof.
  set (ips := flat_map (fun k => ips_of_value (assoc_get k raw)) ip_keys).
  assert (∀ x, x ∈ ips ↔ x ≠ EmptyString ∧ address_of raw x) as Hips.
  { intros x. unfold ips, address_of. rewrite list_elem_of_In, in_flat_map. split.
    - intros (k & Hk & Hx). apply list_elem_of_In, ips_of_value_elem in Hx
        as (s & ? & ? & ?).
      split; [done|]. exists k, s. split_and!; [by apply list_elem_of_In | done..].
    - intros (Hne & k & s & Hk & ? & ?). exists k. split; [by apply list_elem_of_In|].
      apply list_elem_of_In, ips_of_value_elem. eauto. }
  assert (_extract_ips raw = _uniq ips) as ->.
  { unfold _extract_ips, _uniq. fold ips. apply dedupe_loop_uniq_loop.
    apply Forall_forall. intros x [Hne _]%Hips. by apply truthy_iff. }
  rewrite uniq_first_seen, first_seen_elem, Hips. tauto.
Qed.

Lemma first_seen_filter (l : list string) :
  first_seen (filter (fun x => x ≠ EmptyString) l) = first_seen l.
Proof.
  induction l as [|x l IH]; [done|].
  destruct (decide (x = EmptyString)) as [->|Hx].
  - by rewrite filter_cons_False by (by intros ?).
  - rewrite filter_cons_True by done. cbn [first_seen].
    apply truthy_iff in Hx. by rewrite Hx, IH.
Qed.

Lemma opt_item_filter (o : option string) :
  opt_item o = filter (fun x => x ≠ EmptyString) (option_list o).
Proof. by destruct o as [[|c x]|]. Qed.

Lemma str_item_filter (x : string) :
  str_item x = filter (fun y => y ≠ EmptyString) [x].
Proof. by destruct x. Qed.

(** What the scope loop has collected when it ends: the values met that
    are not empty, in the order in which they are met. *)
Lemma collect_lists (evs : gmap string Event.t) (als : list Alert.t) (acc : Collected) :
  let c := foldl (collect_alert evs) acc als in
  c_hosts c
  = c_hosts acc
    ++ filter (fun x => x ≠ EmptyString)
         (values_met evs als (fun a => option_list (Alert.host a))
            (fun ev => option_list (Event.host ev)))
  ∧ c_users c
    = c_users acc
      ++ filter (fun x => x ≠ EmptyString)
           (values_met evs als (fun a => option_list (Alert.user a))
              (fun ev => option_list (Event.user ev)))
  ∧ c_sources c
    = c_sources acc
      ++ filter (fun x => x ≠ EmptyString)
           (values_met evs als (fun a => [Alert.source a]) (fun ev => [Event.source ev]))
  ∧ c_ips c
    = c_ips acc
      ++ values_met evs als (fun _ => [])
           (fun ev => match Event.raw ev with
                      | JDict raw => _extract_ips raw
                      | _ => []
                      end).
Proof.
  revert acc. induction als as [|a als IH]; intros acc.
  - cbn. by rewrite !app_nil_r.
  - cbn [foldl values_met flat_map].
    destruct (IH (collect_alert evs acc a)) as (Hh & Hu & Hs & Hi).
    fold (values_met evs als (fun a => option_list (Alert.host a))
            (fun ev => option_list (Event.host ev))).
    fold (values_met evs als (fun a => option_list (Alert.user a))
            (fun ev => option_list (Event.user ev))).
    fold (values_met evs als (fun a => [Alert.source a]) (fun ev => [Event.source ev])).
    fold (values_met evs als (fun _ : Alert.t => @nil string)
            (fun ev => match Event.raw ev with
                       | JDict raw => _extract_ips raw
                       | _ => []
                       end)).
    rewrite Hh, Hu, Hs, Hi. rewrite !filter_app. unfold collect_alert.
    destruct (evs !! Alert.event_id a) as [ev|];
      cbn [c_hosts c_users c_sources c_ips];
      rewrite ?opt_item_filter, ?str_item_filter, ?filter_nil, ?app_nil_r, ?app_nil_l;
      rewrite <- ?app_assoc; done.
Qed.

Lemma first_seen_in_order (input : list string) :
  in_first_seen_order input (first_seen input).
Proof.
  split_and!; [apply first_seen_NoDup | apply first_seen_elem | apply first_seen_order].
Qed.

Lemma fetched_lookup (evs : list Event.t) (m : gmap string Event.t) (k : string)
    (ev : Event.t) :
  foldl (fun m e => <[Event.id e := e]> m) m evs !! k = Some ev →
  (ev ∈ evs ∧ Event.id ev = k) ∨ m !! k = Some ev.
Proof.
  revert m. induction evs as [|e evs IH]; intros m; cbn [foldl]; [auto|].
  intros [[Hin Hid]|Hm]%IH.
  - left. split; [apply elem_of_cons; by right | done].
  - destruct (decide (Event.id e = k)) as [Heq|Hne].
    + rewrite <- Heq, lookup_insert_eq in Hm. injection Hm as <-.
      left. split; [apply elem_of_cons; by left | done].
    + rewrite lookup_insert_ne in Hm by done. by right.
Qed.

Lemma fetched_is_Some (evs : list Event.t) (m : gmap string Event.t) (k : string) :
  (∃ e, e ∈ evs ∧ Event.id e = k) ∨ is_Some (m !! k) →
  is_Some (foldl (fun m e => <[Event.id e := e]> m) m evs !! k).
Proof.
  revert m. induction evs as [|e evs IH]; intros m; cbn [foldl].
  - intros [(e & ?%elem_of_nil & _)|Hm]; done.
  - intros Hsrc. apply IH.
    destruct (decide (Event.id e = k)) as [Heq|Hne].
    + right. rewrite <- Heq, lookup_insert_eq. by eexists.
    + destruct Hsrc as [(e' & [->|Hin]%elem_of_cons & Hid)|Hm]; [done | eauto |].
      right. by rewrite lookup_insert_ne.
Qed.

(** The events fetched for the alerts: under the event id of an alert
    stands an event of the table with that id, and one stands there
    whenever the id is not empty and the table has such an event. *)
Lemma fetch_events_spec (s : Store) (als : list Alert.t) (a : Alert.t) :
  a ∈ als →
  (∀ ev, fetch_events s als !! Alert.event_id a = Some ev →
         ev ∈ events s ∧ Event.id ev = Alert.event_id a)
  ∧ (Alert.event_id a ≠ EmptyString →
     (∃ ev, ev ∈ events s ∧ Event.id ev = Alert.event_id a) →
     is_Some (fetch_events s als !! Alert.event_id a)).
Proof.
  intros Ha. unfold fetch_events.
  set (event_ids := List.map Alert.event_id
                      (filter (fun a => Py.truthy (Alert.event_id a) = true) als)).
  split.
  - intros ev. destruct event_ids as [|i ids] eqn:Hids; [done|].
    intros [[Hin Hid]|Hm]%fetched_lookup; [|done].
    by apply list_elem_of_filter in Hin as [_ Hin].
  - intros Hne (ev & Hev & Hid).
    assert (Alert.event_id a ∈ event_ids) as Hin.
    { apply list_elem_of_In, in_map, list_elem_of_In, list_elem_of_filter.
      split; [by apply truthy_iff | done]. }
    destruct event_ids as [|i ids] eqn:Hids; [by apply elem_of_nil in Hin|].
    apply fetched_is_Some. left. exists ev. split; [|done].
    apply list_elem_of_filter. split; [by rewrite Hid | done].
Qed.

(** Claim C6. In the packet of an incident each of [hosts], [users],
    [sources] and [ips] lists, without repetition and in the order in
    which they are first met, the non-empty values that the linked alerts
    and their fetched events give, alert by alert: the host, the user and
    the source of the alert, then those of its event, and the addresses
    read from the payload of the event. A listed address is the stripped
    text of a string under one of the eight address keys of such a
    payload. A payload that holds none of these keys yields the empty
    address list, and when no fetched event holds one the packet is built
    all the same with an empty [ips]. The event fetched for an alert is
    an event of the table with the id the alert names. *)
Theorem scope_lists_first_seen (s : Store) (incident_id : string) (p : Packet.t) :
  build_incident_packet s incident_id = Ok p →
  let als := query_incident_alerts s incident_id in
  let evs := fetch_events s als in
  let payload_ips (ev : Event.t) :=
    match Event.raw ev with
    | JDict raw => _extract_ips raw
    | _ => []
    end in
  in_first_seen_order
    (values_met evs als (fun a => option_list (Alert.host a))
       (fun ev => option_list (Event.host ev)))
    (Scope.hosts (Packet.scope p))
  ∧ in_first_seen_order
      (values_met evs als (fun a => option_list (Alert.user a))
         (fun ev => option_list (Event.user ev)))
      (Scope.users (Packet.scope p))
  ∧ in_first_seen_order
      (values_met evs als (fun a => [Alert.source a]) (fun ev => [Event.source ev]))
      (Scope.sources (Packet.scope p))
  ∧ in_first_seen_order (values_met evs als (fun _ => []) payload_ips)
      (Scope.ips (Packet.scope p))
  ∧ (∀ ip, ip ∈ Scope.ips (Packet.scope p) ↔
           ip ≠ EmptyString
           ∧ ∃ a ev raw, a ∈ als ∧ evs !! Alert.event_id a = Some ev
                         ∧ Event.raw ev = JDict raw ∧ address_of raw ip)
  ∧ (∀ raw, (∀ k, k ∈ ip_keys → assoc_get k raw = None) → _extract_ips raw = [])
  ∧ ((∀ a ev raw, a ∈ als → evs !! Alert.event_id a = Some ev →
                  Event.raw ev = JDict raw →
                  ∀ k, k ∈ ip_keys → assoc_get k raw = None) →
     Scope.ips (Packet.scope p) = [])
  ∧ (∀ a, a ∈ als →
          (∀ ev, evs !! Alert.event_id a = Some ev →
                 ev ∈ events s ∧ Event.id ev = Alert.event_id a)
          ∧ (Alert.event_id a ≠ EmptyString →
             (∃ ev, ev ∈ events s ∧ Event.id ev = Alert.event_id a) →
             is_Some (evs !! Alert.event_id a))).
Proof.
  intros Hbuild als evs payload_ips. unfold build_incident_packet in Hbuild.
  destruct (find_incident s incident_id) as [inc|]; [|done].
  fold als in Hbuild. fold evs in Hbuild.
  set (c := collect evs als) in Hbuild.
  assert (Scope.hosts (Packet.scope p) = _uniq (c_hosts c)
          ∧ Scope.users (Packet.scope p) = _uniq (c_users c)
          ∧ Scope.sources (Packet.scope p) = _uniq (c_sources c)
          ∧ Scope.ips (Packet.scope p) = _uniq (c_ips c)) as (-> & -> & -> & ->).
  { destruct (times c); injection Hbuild as <-; done. }
  destruct (collect_lists evs als (mkCollected [] [] [] [] [])) as (Hh & Hu & Hs & Hi).
  fold (collect evs als) in Hh, Hu, Hs, Hi. fold c in Hh, Hu, Hs, Hi.
  cbn [c_hosts c_users c_sources c_ips app] in Hh, Hu, Hs, Hi.
  fold payload_ips in Hi.
  rewrite Hh, Hu, Hs, Hi, !uniq_first_seen, !first_seen_filter.
  assert (∀ ip, ip ∈ values_met evs als (fun _ => []) payload_ips ↔
                ∃ a ev raw, a ∈ als ∧ evs !! Alert.event_id a = Some ev
                            ∧ Event.raw ev = JDict raw ∧ ip ∈ _extract_ips raw) as Hmet.
  { intros ip. unfold values_met. rewrite list_elem_of_In, in_flat_map. split.
    - intros (a & Ha & Hip). apply list_elem_of_In in Ha. cbn [app] in Hip.
      destruct (evs !! Alert.event_id a) as [ev|] eqn:Hev; [|done].
      unfold payload_ips in Hip.
      destruct (Event.raw ev) as [| | | | | |raw] eqn:Hraw; try done.
      exists a, ev, raw. split_and!; [done..|]. by apply list_elem_of_In.
    - intros (a & ev & raw & Ha & Hev & Hraw & Hip). exists a.
      split; [by apply list_elem_of_In|]. cbn [app]. rewrite Hev.
      unfold payload_ips. rewrite Hraw. by apply list_elem_of_In. }
  split_and!; try apply first_seen_in_order.
  - intros ip. rewrite first_seen_elem, Hmet. split.
    + intros [(a & ev & raw & Ha & Hev & Hraw & [_ Hip]%extract_ips_elem) Hne].
      split; [done|]. by exists a, ev, raw.
    + intros (Hne & a & ev & raw & Ha & Hev & Hraw & Hip). split; [|done].
      exists a, ev, raw. split_and!; [done..|]. by apply extract_ips_elem.
  - apply extract_ips_no_keys.
  - intros Hnone.
    assert (values_met evs als (fun _ => []) payload_ips = []) as ->; [|done].
    unfold values_met. apply flat_map_nil. intros a Ha. cbn [app].
    destruct (evs !! Alert.event_id a) as [ev|] eqn:Hev; [|done].
    unfold payload_ips. destruct (Event.raw ev) as [| | | | | |raw] eqn:Hraw; try done.
    apply extract_ips_no_keys. by eapply Hnone.
  - intros a Ha. by apply fetch_events_spec.
Qed.

(** The packet of the first sample incident: its host, user, source and
    address are listed, each once. *)
Lemma scope_lists_first_seen_witness :
  ∃ p, build_incident_packet Sample.store2 "i-1" = Ok p
       ∧ "web-1" ∈ Scope.hosts (Packet.scope p)
       ∧ "alice" ∈ Scope.users (Packet.scope p)
       ∧ "aws-cloudtrail" ∈ Scope.sources (Packet.scope p)
       ∧ "10.0.0.7" ∈ Scope.ips (Packet.scope p)
       ∧ NoDup (Scope.hosts (Packet.scope p))
       ∧ NoDup (Scope.ips (Packet.scope p)).
Proof.
  assert (∃ p, build_incident_packet Sample.store2 "i-1" = Ok p) as [p Hp]
    by (eexists; reflexivity).
  destruct (scope_lists_first_seen Sample.store2 "i-1" p Hp)
    as ((Hh & Hh_in & _) & (_ & Hu_in & _) & (_ & Hs_in & _) & (Hi & Hi_in & _) & _).
  exists p. split_and!; [done | | | | | exact Hh | exact Hi].
  - apply Hh_in. split; [|done]. apply list_elem_of_In. vm_compute. auto.
  - apply Hu_in. split; [|done]. apply list_elem_of_In. vm_compute. auto.
  - apply Hs_in. split; [|done]. apply list_elem_of_In. vm_compute. auto.
  - apply Hi_in. split; [|done]. apply list_elem_of_In. vm_compute. auto.
Defined.

(** On the sample: the host of the alert and of its event is listed
    once, the address is stripped, the sources are merged. *)
Example scope_sample :
  ∃ p, build_incident_packet Sample.store2 "i-1" = Ok p
       ∧ Scope.hosts (Packet.scope p) = ["web-1"]
       ∧ Scope.users (Packet.scope p) = ["alice"]
       ∧ Scope.sources (Packet.scope p) = ["aws-cloudtrail"]
       ∧ Scope.ips (Packet.scope p) = ["10.0.0.7"]
       ∧ Entry.type <$> Packet.timeline p = ["event"; "alert"; "alert"; "event"].
Proof. eexists. split_and!; vm_compute; reflexivity. Qed.

(** ** The stable sort *)

Lemma insert_by_perm {A} (leb : A → A → bool) (x : A) (l : list A) :
  insert_by leb x l ≡ₚ x :: l.
Proof.
  induction l as [|y l IH]; simpl; [done|].
  destruct (leb x y); [done|]. rewrite IH. apply Permutation_swap.
Qed.

Lemma sort_by_perm {A} (leb : A → A → bool) (l : list A) : sort_by leb l ≡ₚ l.
Proof.
  induction l as [|x l IH]; simpl; [done|].
  by rewrite insert_by_perm, IH.
Qed.

Section Sorting.
Context {A : Type} (leb : A → A → bool).

Hypothesis leb_total : ∀ x y, leb x y = true ∨ leb y x = true.
Hypothesis leb_trans : ∀ x y z, leb x y = true → leb y z = true → leb x z = true.

Lemma insert_by_sorted (x : A) (l : list A) :
  StronglySorted (fun a b => leb a b = true) l →
  StronglySorted (fun a b => leb a b = true) (insert_by leb x l).
Proof.
  induction 1 as [|y l Hsorted IH Hall]; simpl.
  - repeat constructor.
  - destruct (leb x y) eqn:Hxy.
    + constructor; [by constructor|].
      constructor; [done|].
      eapply Forall_impl; [exact Hall|]. intros z Hz. by eapply leb_trans.
    + constructor; [done|].
      rewrite insert_by_perm. constructor; [|done].
      destruct (leb_total x y); congruence.
Qed.

Lemma sort_by_sorted (l : list A) :
  StronglySorted (fun a b => leb a b = true) (sort_by leb l).
Proof.
  induction l as [|x l IH]; simpl; [constructor|].
  by apply insert_by_sorted.
Qed.

Lemma insert_by_stable (x : nat * A) (l : list (nat * A)) :
  StronglySorted (stable_before leb) l →
  Forall (fun y => x.1 < y.1) l →
  StronglySorted (stable_before leb) (insert_by (by_value leb) x l).
Proof.
  induction 1 as [|y l Hsorted IH Hall]; intros Hlater; simpl.
  - repeat constructor.
  - apply Forall_cons in Hlater as [Hxy Hlater].
    unfold by_value at 1. destruct (leb x.2 y.2) eqn:Hle.
    + constructor; [by constructor|].
      constructor; [by split|].
      rewrite Forall_forall in Hall, Hlater |- *.
      intros z Hz. destruct (Hall z Hz) as [Hyz _].
      split; [by eapply leb_trans | intros _; by apply Hlater].
    + constructor; [by apply IH|].
      rewrite insert_by_perm. constructor; [|done].
      split; [destruct (leb_total x.2 y.2); congruence | congruence].
Qed.

Lemma tag_from_later (n : nat) (l : list A) :
  Forall (fun y => n ≤ y.1) (tag_from n l).
Proof.
  revert n. induction l as [|x l IH]; intros n; simpl; constructor; [done|].
  eapply Forall_impl; [apply (IH (S n))|]. simpl. intros; lia.
Qed.

(** Sorting the tagged input puts it in the stable order: by value, and
    among equal values by position in the input. *)
Lemma sort_by_stable (n : nat) (l : list A) :
  StronglySorted (stable_before leb) (sort_by (by_value leb) (tag_from n l)).
Proof.
  revert n. induction l as [|x l IH]; intros n; simpl; [constructor|].
  apply insert_by_stable; [apply IH|].
  rewrite sort_by_perm.
  eapply Forall_impl; [apply (tag_from_later (S n))|]. simpl. intros; lia.
Qed.

End Sorting.

Lemma insert_by_fmap {A B} (f : A → B) (leb : B → B → bool) (x : A) (l : list A) :
  insert_by leb (f x) (f <$> l) = f <$> insert_by (fun a b => leb (f a) (f b)) x l.
Proof.
  induction l as [|y l IH]; csimpl; [done|].
  destruct (leb (f x) (f y)); csimpl; [done|]. by rewrite IH.
Qed.

Lemma sort_by_fmap {A B} (f : A → B) (leb : B → B → bool) (l : list A) :
  sort_by leb (f <$> l) = f <$> sort_by (fun a b => leb (f a) (f b)) l.
Proof.
  induction l as [|x l IH]; csimpl; [done|].
  by rewrite IH, insert_by_fmap.
Qed.

Lemma tag_from_snd {A} (n : nat) (l : list A) : (tag_from n l).*2 = l.
Proof. revert n. induction l as [|x l IH]; intros n; csimpl; [done|]. by rewrite IH. Qed.

Lemma tag_from_lookup {A} (n i : nat) (l : list A) (x : A) :
  l !! i = Some x → tag_from n l !! i = Some (n + i, x).
Proof.
  revert n i. induction l as [|y l IH]; intros n i; [done|].
  destruct i as [|i]; simpl.
  - intros [= ->]. by rewrite Nat.add_0_r.
  - intros Hx. rewrite (IH (S n) i Hx). do 2 f_equal. lia.
Qed.

(** The sort of the untagged list is the sort of the tagged one, tags
    dropped. *)
Lemma sort_by_tagged {A} (leb : A → A → bool) (l : list A) :
  sort_by leb l = (sort_by (by_value leb) (tag_from 0 l)).*2.
Proof.
  pose proof (sort_by_fmap snd leb (tag_from 0 l)) as Hmap.
  rewrite tag_from_snd in Hmap. exact Hmap.
Qed.

Lemma StronglySorted_lookup {A} (R : A → A → Prop) (l : list A) (i j : nat) (x y : A) :
  StronglySorted R l → l !! i = Some x → l !! j = Some y → i < j → R x y.
Proof.
  intros Hs. revert i j. induction Hs as [|z l Hs IH Hall]; intros i j; [done|].
  destruct i as [|i], j as [|j]; simpl; try lia.
  - intros [= ->] Hy _. rewrite Forall_forall in Hall.
    apply Hall. by eapply list_elem_of_lookup_2.
  - intros Hx Hy Hij. apply (IH i j); [done | done | lia].
Qed.

(** Two neighbours of the input, the first not greater than the second:
    the first stands before the second in the sorted list. *)
Lemma sort_by_neighbours {A} (leb : A → A → bool) (l : list A) (i : nat) (x y : A) :
  (∀ a b, leb a b = true ∨ leb b a = true) →
  (∀ a b c, leb a b = true → leb b c = true → leb a c = true) →
  l !! i = Some x → l !! S i = Some y → leb x y = true →
  ∃ j k, j < k
         ∧ sort_by (by_value leb) (tag_from 0 l) !! j = Some (i, x)
         ∧ sort_by (by_value leb) (tag_from 0 l) !! k = Some (S i, y).
Proof.
  intros Htotal Htrans Hx Hy Hxy.
  set (sorted := sort_by (by_value leb) (tag_from 0 l)).
  assert ((i, x) ∈ sorted) as [j Hj]%list_elem_of_lookup_1.
  { unfold sorted. rewrite sort_by_perm.
    eapply list_elem_of_lookup_2. by apply (tag_from_lookup 0). }
  assert ((S i, y) ∈ sorted) as [k Hk]%list_elem_of_lookup_1.
  { unfold sorted. rewrite sort_by_perm.
    eapply list_elem_of_lookup_2. by apply (tag_from_lookup 0). }
  exists j, k. split; [|done].
  destruct (decide (j < k)) as [|Hge]; [done|].
  assert (j ≠ k) as Hne.
  { intros ->. rewrite Hj in Hk. injection Hk as Hik _. lia. }
  pose proof (sort_by_stable leb Htotal Htrans 0 l) as Hs.
  destruct (StronglySorted_lookup _ _ k j _ _ Hs Hk Hj ltac:(lia)) as [_ Hlt].
  simpl in *. pose proof (Hlt Hxy). lia.
Qed.

(** ** Dates as text keep their order *)

Example isoformat_sample :
  isoformat Sample.t0 = "2024-01-15T10:30:00"
  ∧ isoformat Sample.t1 = "2024-01-15T10:30:00.250000".
Proof. split; reflexivity. Qed.

Lemma ascii_compare_refl (c : ascii) : Ascii.compare c c = Eq.
Proof. unfold Ascii.compare. apply N.compare_refl. Qed.

Lemma compare_cons_same (c : ascii) (s t : string) :
  String.compare (String c s) (String c t) = String.compare s t.
Proof. simpl. by rewrite ascii_compare_refl. Qed.

Lemma digit_compare (a b : N) :
  (a < 10)%N → (b < 10)%N →
  Ascii.compare (digit_char a) (digit_char b) = (a ?= b)%N.
Proof.
  intros Ha Hb. unfold Ascii.compare, digit_char.
  rewrite !N_ascii_embedding by lia.
  destruct (N.compare_spec a b), (N.compare_spec (48 + a) (48 + b)); try done; lia.
Qed.

(** Two numbers of [w] digits compare as their zero-filled texts do,
    whatever follows the texts when the numbers are equal. *)
Lemma zfill_compare (w : nat) (x y : N) (s t : string) :
  (x < 10 ^ N.of_nat w)%N → (y < 10 ^ N.of_nat w)%N →
  String.compare (zfill w x +:+ s) (zfill w y +:+ t) =
  match (x ?= y)%N with
  | Eq => String.compare s t
  | c => c
  end.
Proof.
  revert x y s t. induction w as [|w IH]; intros x y s t Hx Hy.
  - simpl in Hx, Hy. assert (x = 0%N) as -> by lia. assert (y = 0%N) as -> by lia.
    done.
  - rewrite Nat2N.inj_succ, N.pow_succ_r' in Hx, Hy.
    simpl zfill. rewrite !append_assoc, !append_cons, !append_nil_l.
    rewrite IH by (apply N.Div0.div_lt_upper_bound; lia).
    simpl String.compare.
    rewrite digit_compare by (apply N.mod_lt; lia).
    pose proof (N.div_mod x 10 ltac:(lia)) as Hdx.
    pose proof (N.div_mod y 10 ltac:(lia)) as Hdy.
    pose proof (N.mod_lt x 10 ltac:(lia)) as Hrx.
    pose proof (N.mod_lt y 10 ltac:(lia)) as Hry.
    generalize dependent (x / 10)%N. generalize dependent (x mod 10)%N.
    generalize dependent (y / 10)%N. generalize dependent (y mod 10)%N.
    intros ry Hry qy Hdy rx Hrx qx Hdx.
    destruct (N.compare_spec qx qy), (N.compare_spec rx ry), (N.compare_spec x y);
      try done; lia.
Qed.

Lemma zfill_compare_end (w : nat) (x y : N) :
  (x < 10 ^ N.of_nat w)%N → (y < 10 ^ N.of_nat w)%N →
  String.compare (zfill w x) (zfill w y) = (x ?= y)%N.
Proof.
  intros Hx Hy.
  rewrite <- (append_nil_r (zfill w x)), <- (append_nil_r (zfill w y)).
  rewrite zfill_compare by done. by destruct (x ?= y)%N.
Qed.

(** The texts of two dates compare as the dates do. *)
Lemma isoformat_compare (a b : DT.t) :
  DT.valid a → DT.valid b →
  String.compare (isoformat a) (isoformat b) = DT.compare a b.
Proof.
  intros (Hya & Hma & Hda & Hha & Hmia & Hsa & Hua) (Hyb & Hmb & Hdb & Hhb & Hmib & Hsb & Hub).
  unfold isoformat, DT.compare, DT.fields. simpl DT.compare_fields.
  rewrite !append_cons, !append_nil_l.
  rewrite zfill_compare by (simpl; lia).
  destruct (DT.year a ?= DT.year b)%N; [|done..].
  rewrite compare_cons_same, zfill_compare by (simpl; lia).
  destruct (DT.month a ?= DT.month b)%N; [|done..].
  rewrite compare_cons_same, zfill_compare by (simpl; lia).
  destruct (DT.day a ?= DT.day b)%N; [|done..].
  rewrite compare_cons_same, zfill_compare by (simpl; lia).
  destruct (DT.hour a ?= DT.hour b)%N; [|done..].
  rewrite compare_cons_same, zfill_compare by (simpl; lia).
  destruct (DT.minute a ?= DT.minute b)%N; [|done..].
  rewrite compare_cons_same, zfill_compare by (simpl; lia).
  destruct (DT.second a ?= DT.second b)%N; [|done..].
  destruct (N.eqb_spec (DT.microsecond a) 0) as [Ha0|Ha0],
           (N.eqb_spec (DT.microsecond b) 0) as [Hb0|Hb0].
  - by rewrite Ha0, Hb0.
  - simpl. destruct (N.compare_spec (DT.microsecond a) (DT.microsecond b)); [lia | done | lia].
  - simpl. destruct (N.compare_spec (DT.microsecond a) (DT.microsecond b)); [lia | lia | done].
  - rewrite compare_cons_same, zfill_compare_end by (simpl; lia).
    by destruct (DT.microsecond a ?= DT.microsecond b)%N.
Qed.

(** Sorting on the [time] text is sorting on the date. *)
Lemma safe_iso_leb (a b : DT.t) :
  DT.valid a → DT.valid b →
  String.leb (_safe_iso a) (_safe_iso b) = DT.leb a b.
Proof.
  intros Ha Hb. unfold _safe_iso, String.leb, DT.leb.
  by rewrite isoformat_compare.
Qed.

(** ** The timeline *)

Lemma entry_leb_total (x y : Entry.t) : entry_leb x y = true ∨ entry_leb y x = true.
Proof. apply String.leb_total. Qed.

Lemma entry_leb_trans (x y z : Entry.t) :
  entry_leb x y = true → entry_leb y z = true → entry_leb x z = true.
Proof.
  unfold entry_leb. rewrite <- !Is_true_true.
  intros Hxy Hyz.
  change (String.le (Entry.time x) (Entry.time z)).
  by trans (Entry.time y).
Qed.

Lemma entry_leb_refl (x y : Entry.t) : Entry.time x = Entry.time y → entry_leb x y = true.
Proof.
  unfold entry_leb. intros ->. apply Is_true_true.
  change (String.le (Entry.time y) (Entry.time y)). done.
Qed.

Lemma timeline_entries_split (evs : gmap string Event.t) (pre post : list Alert.t)
    (a : Alert.t) :
  timeline_entries evs (pre ++ a :: post) =
  timeline_entries evs pre ++ alert_entry a :: companion evs a ++ timeline_entries evs post.
Proof. unfold timeline_entries. by rewrite flat_map_app. Qed.

(** Claim C5. The timeline of a packet is the list of appended entries,
    rearranged: each entry is followed by one whose [time] is not smaller;
    with the entries numbered in the order they were appended, the
    timeline is ordered by [time] and, among equal times, by number, which
    is what a stable sort yields; the [time] of an entry is the text of
    the date of its alert or event, and these texts are ordered as the
    dates are; and an alert entry whose companion event entry carries the
    same [time] stands before that companion. *)
Theorem timeline_sorted_stable (s : Store) (incident_id : string) (p : Packet.t) :
  build_incident_packet s incident_id = Ok p →
  let als := query_incident_alerts s incident_id in
  let evs := fetch_events s als in
  let entries := timeline_entries evs als in
  let tagged := sort_by (by_value entry_leb) (tag_from 0 entries) in
  Packet.timeline p = tagged.*2
  ∧ Packet.timeline p ≡ₚ entries
  ∧ (∀ i x y, Packet.timeline p !! i = Some x → Packet.timeline p !! S i = Some y →
              (Entry.time x ≤ Entry.time y)%string)
  ∧ StronglySorted (stable_before entry_leb) tagged
  ∧ (∀ a, Entry.time (alert_entry a) = _safe_iso (Alert.created_at a))
  ∧ (∀ ev raw, Entry.time (event_entry ev raw) = _safe_iso (Event.received_at ev))
  ∧ (∀ d1 d2, DT.valid d1 → DT.valid d2 →
              String.leb (_safe_iso d1) (_safe_iso d2) = DT.leb d1 d2)
  ∧ (∀ pre a post e,
       als = pre ++ a :: post → companion evs a = [e] →
       Entry.time (alert_entry a) = Entry.time e →
       ∃ j k, j < k
              ∧ tagged !! j = Some (length (timeline_entries evs pre), alert_entry a)
              ∧ tagged !! k = Some (S (length (timeline_entries evs pre)), e)
              ∧ Packet.timeline p !! j = Some (alert_entry a)
              ∧ Packet.timeline p !! k = Some e).
Proof.
  intros Hbuild als evs entries tagged. unfold build_incident_packet in Hbuild.
  destruct (find_incident s incident_id) as [inc|]; [|done].
  fold als in Hbuild. fold evs in Hbuild. fold entries in Hbuild.
  assert (Packet.timeline p = sort_timeline entries) as Htl.
  { destruct (times _); injection Hbuild as <-; done. }
  assert (Packet.timeline p = tagged.*2) as Htag.
  { rewrite Htl. apply sort_by_tagged. }
  split_and!.
  - done.
  - rewrite Htl. apply sort_by_perm.
  - intros i x y Hx Hy. rewrite Htl in Hx, Hy.
    pose proof (sort_by_sorted entry_leb entry_leb_total entry_leb_trans entries) as Hs.
    apply Is_true_true.
    apply (StronglySorted_lookup _ _ i (S i) x y Hs Hx Hy). lia.
  - apply sort_by_stable; [apply entry_leb_total | apply entry_leb_trans].
  - done.
  - done.
  - apply safe_iso_leb.
  - intros pre a post e Hals Hcomp Htime.
    assert (entries !! length (timeline_entries evs pre) = Some (alert_entry a)
            ∧ entries !! S (length (timeline_entries evs pre)) = Some e) as [Ha He].
    { unfold entries. rewrite Hals, timeline_entries_split, Hcomp. simpl.
      split.
      - by rewrite list_lookup_middle.
      - rewrite (lookup_app_r _ _ (S _)) by lia.
        by replace (S (length (timeline_entries evs pre))
                    - length (timeline_entries evs pre)) with 1 by lia. }
    destruct (sort_by_neighbours entry_leb entries _ _ _ entry_leb_total entry_leb_trans
                Ha He (entry_leb_refl _ _ Htime)) as (j & k & Hjk & Hj & Hk).
    exists j, k. fold tagged in Hj, Hk.
    split_and!; [done | done | done | |].
    + rewrite Htag, list_lookup_fmap, Hj. done.
    + rewrite Htag, list_lookup_fmap, Hk. done.
Qed.

(** The second alert of the sample incident and the event it was raised
    on carry the same time: the alert entry comes first. *)
Lemma timeline_sorted_stable_witness :
  ∃ p j k,
    build_incident_packet Sample.store2 "i-1" = Ok p
    ∧ j < k
    ∧ Entry.type <$> Packet.timeline p !! j = Some "alert"
    ∧ Entry.type <$> Packet.timeline p !! k = Some "event"
    ∧ Entry.time <$> Packet.timeline p !! j = Entry.time <$> Packet.timeline p !! k.
Proof.
  destruct (timeline_sorted_stable Sample.store2 "i-1" _ eq_refl)
    as (_ & _ & _ & _ & _ & _ & _ & Hpair).
  destruct (Hpair [Sample.alert1] Sample.alert2 []
              (event_entry Sample.ev_alice
                 [("userIdentity", JDict [("userName", JStr "alice")])])
              eq_refl eq_refl eq_refl)
    as (j & k & Hjk & _ & _ & Hj & Hk).
  eexists _, j, k. split; [reflexivity|].
  split; [exact Hjk|]. rewrite Hj, Hk. by split_and!.
Defined.

(** ** The evidence writer *)

Section EvidenceProofs.
Variable sha256_hex : string → string.

Lemma existing_evidence_of (s : Store) (incident_id sha : string) :
  existing_evidence s incident_id sha = first (evidence_of s incident_id sha).
Proof. done. Qed.

(** What one call does to the evidence table. *)
Lemma write_evidence_files (s : Store) (incident_id : string) (packet : json) :
  let sha := sha256_hex (packet_payload packet) in
  evidence_files (write_packet_evidence sha256_hex s incident_id packet).1 =
  match evidence_of s incident_id sha with
  | [] =>
      evidence_files s
      ++ [EvidenceFile.mk (uuid4 s) incident_id (utc_now s) (evidence_filename incident_id)
            "application/json" sha (String.length (packet_payload packet))]
  | _ :: _ => evidence_files s
  end.
Proof.
  unfold write_packet_evidence. simpl. rewrite existing_evidence_of.
  by destruct (evidence_of s incident_id _).
Qed.

Lemma write_evidence_same (s : Store) (incident_id : string) (packet : json) :
  let sha := sha256_hex (packet_payload packet) in
  evidence_of (write_packet_evidence sha256_hex s incident_id packet).1 incident_id sha =
  match evidence_of s incident_id sha with
  | [] =>
      [EvidenceFile.mk (uuid4 s) incident_id (utc_now s) (evidence_filename incident_id)
         "application/json" sha (String.length (packet_payload packet))]
  | rows => rows
  end.
Proof.
  intros sha. unfold evidence_of at 1. rewrite write_evidence_files. fold sha.
  destruct (evidence_of s incident_id sha) as [|e rows] eqn:Hrows; [|done].
  rewrite filter_app. fold (evidence_of s incident_id sha). rewrite Hrows. simpl.
  by rewrite filter_cons_True.
Qed.

Lemma write_evidence_other (s : Store) (incident_id : string) (packet : json)
    (sha' : string) :
  sha' ≠ sha256_hex (packet_payload packet) →
  evidence_of (write_packet_evidence sha256_hex s incident_id packet).1 incident_id sha' =
  evidence_of s incident_id sha'.
Proof.
  intros Hne. unfold evidence_of. rewrite write_evidence_files.
  destruct (evidence_of s incident_id _); [|done].
  rewrite filter_app, filter_cons_False, filter_nil, app_nil_r; [done|].
  simpl. intros (_ & _ & Hsha). by apply Hne.
Qed.

(** Claim C4. Writing the evidence of an unchanged packet a second time
    adds no record and returns the same list, and one record stands for
    its (incident_id, filename, sha256) when at most one stood before.
    Writing then a packet whose bytes have another digest keeps every
    earlier record in place, leaves two different records on the table,
    one per digest, and exactly one per digest when at most one stood
    before; under a digest without collisions, a packet with other bytes
    is such a packet. *)
Theorem evidence_write_idempotent (s : Store) (incident_id : string) (p1 p2 : json) :
  let sha1 := sha256_hex (packet_payload p1) in
  let sha2 := sha256_hex (packet_payload p2) in
  let r1 := write_packet_evidence sha256_hex s incident_id p1 in
  let r2 := write_packet_evidence sha256_hex r1.1 incident_id p1 in
  let r3 := write_packet_evidence sha256_hex r2.1 incident_id p2 in
  evidence_files r2.1 = evidence_files r1.1
  ∧ r2.2 = r1.2
  ∧ (length (evidence_of s incident_id sha1) ≤ 1 →
     length (evidence_of r2.1 incident_id sha1) = 1)
  ∧ (∃ extra, evidence_files r3.1 = evidence_files s ++ extra)
  ∧ (sha1 ≠ sha2 →
     ∃ e1 e2, e1 ∈ evidence_of r3.1 incident_id sha1
              ∧ e2 ∈ evidence_of r3.1 incident_id sha2
              ∧ e1 ≠ e2)
  ∧ (sha1 ≠ sha2 →
     length (evidence_of s incident_id sha1) ≤ 1 →
     length (evidence_of s incident_id sha2) ≤ 1 →
     length (evidence_of r3.1 incident_id sha1) = 1
     ∧ length (evidence_of r3.1 incident_id sha2) = 1)
  ∧ ((∀ x y, sha256_hex x = sha256_hex y → x = y) →
     packet_payload p1 ≠ packet_payload p2 →
     ∃ e1 e2, e1 ∈ evidence_files r3.1 ∧ e2 ∈ evidence_files r3.1 ∧ e1 ≠ e2
              ∧ EvidenceFile.incident_id e1 = incident_id
              ∧ EvidenceFile.incident_id e2 = incident_id
              ∧ EvidenceFile.sha256 e1 = sha1 ∧ EvidenceFile.sha256 e2 = sha2).
Proof.
  intros sha1 sha2 r1 r2 r3.
  assert (∃ e1, e1 ∈ evidence_of r1.1 incident_id sha1) as [e1 He1].
  { unfold r1. rewrite write_evidence_same. fold sha1.
    destruct (evidence_of s incident_id sha1) as [|e rows]; eexists;
      apply elem_of_cons; by left. }
  assert (evidence_files r2.1 = evidence_files r1.1) as Hsame.
  { unfold r2. rewrite write_evidence_files. fold sha1.
    destruct (evidence_of r1.1 incident_id sha1); [|done].
    by apply elem_of_nil in He1. }
  assert (∀ sha, evidence_of r2.1 incident_id sha = evidence_of r1.1 incident_id sha)
    as Hsame_of.
  { intros sha. unfold evidence_of. by rewrite Hsame. }
  assert (length (evidence_of s incident_id sha1) ≤ 1 →
          length (evidence_of r1.1 incident_id sha1) = 1) as Hone1.
  { intros Hone. unfold r1. rewrite write_evidence_same. fold sha1.
    destruct (evidence_of s incident_id sha1) as [|e [|e' rows]]; simpl in *;
      [done | done | lia]. }
  assert (∃ e2, e2 ∈ evidence_of r3.1 incident_id sha2) as [e2 He2].
  { unfold r3. rewrite write_evidence_same. fold sha2.
    destruct (evidence_of r2.1 incident_id sha2) as [|e rows]; eexists;
      apply elem_of_cons; by left. }
  split_and!.
  - done.
  - change (query_evidence r2.1 incident_id = query_evidence r1.1 incident_id).
    unfold query_evidence. by rewrite Hsame.
  - rewrite Hsame_of. apply Hone1.
  - unfold r3. rewrite write_evidence_files, Hsame. unfold r1.
    rewrite write_evidence_files.
    destruct (evidence_of r2.1 incident_id _), (evidence_of s incident_id _);
      rewrite <- ?app_assoc; eauto.
    exists []. by rewrite app_nil_r.
  - intros Hne. exists e1, e2. split_and!; [|done|].
    + unfold r3. rewrite write_evidence_other by (fold sha2; done).
      by rewrite Hsame_of.
    + intros ->.
      apply list_elem_of_filter in He1 as [(_ & _ & Hsha1) _].
      apply list_elem_of_filter in He2 as [(_ & _ & Hsha2) _].
      apply Hne. by rewrite <- Hsha1, <- Hsha2.
  - intros Hne Hone Htwo. split.
    + unfold r3. rewrite write_evidence_other by (fold sha2; done).
      rewrite Hsame_of. by apply Hone1.
    + unfold r3. rewrite write_evidence_same. fold sha2.
      rewrite Hsame_of. unfold r1.
      rewrite write_evidence_other by (fold sha1; congruence).
      destruct (evidence_of s incident_id sha2) as [|e [|e' rows]]; simpl in *;
        [done | done | lia].
  - intros Hinj Hdiff.
    assert (sha1 ≠ sha2) as Hne by (intros Heq; by apply Hdiff, Hinj).
    assert (e1 ∈ evidence_of r3.1 incident_id sha1) as He1'.
    { unfold r3. rewrite write_evidence_other by (fold sha2; done).
      by rewrite Hsame_of. }
    apply list_elem_of_filter in He1' as [(Hi1 & _ & Hsha1) Hin1].
    apply list_elem_of_filter in He2 as [(Hi2 & _ & Hsha2) Hin2].
    exists e1, e2. split_and!; try done.
    intros ->. apply Hne. by rewrite <- Hsha1, <- Hsha2.
Qed.

End EvidenceProofs.

(** Two sample packets of different length under the stand-in digest, on
    a session without evidence: one record after two writes of the first
    packet, two after the write of the second. *)
Lemma evidence_write_idempotent_witness :
  let r1 := write_packet_evidence Sample.toy_digest Sample.store3 "i-1" Sample.packet_a in
  let r2 := write_packet_evidence Sample.toy_digest r1.1 "i-1" Sample.packet_a in
  let r3 := write_packet_evidence Sample.toy_digest r2.1 "i-1" Sample.packet_b in
  Sample.toy_digest (packet_payload Sample.packet_a)
    ≠ Sample.toy_digest (packet_payload Sample.packet_b)
  ∧ evidence_files r2.1 = evidence_files r1.1
  ∧ length (evidence_of r2.1 "i-1" (Sample.toy_digest (packet_payload Sample.packet_a))) = 1
  ∧ length (evidence_of r3.1 "i-1" (Sample.toy_digest (packet_payload Sample.packet_a))) = 1
  ∧ length (evidence_of r3.1 "i-1" (Sample.toy_digest (packet_payload Sample.packet_b))) = 1.
Proof.
  intros r1 r2 r3.
  assert (Sample.toy_digest (packet_payload Sample.packet_a)
          ≠ Sample.toy_digest (packet_payload Sample.packet_b)) as Hne
    by (vm_compute; discriminate).
  destruct (evidence_write_idempotent Sample.toy_digest Sample.store3 "i-1"
              Sample.packet_a Sample.packet_b)
    as (Hsame & _ & Hone & _ & _ & Hboth & _).
  destruct (Hboth Hne) as [Ha Hb]; [vm_compute; lia | vm_compute; lia |].
  split_and!; [exact Hne | exact Hsame | apply Hone; vm_compute; lia | exact Ha | exact Hb].
Defined.

(** The bytes of a small packet, line by line, as
    [json.dumps(..., indent=2)] lays them out. *)
Example packet_payload_sample :
  packet_payload (JDict [("ips", JList [JStr "10.0.0.7"; JStr "10.0.0.8"]);
                         ("alerts", JList []); ("closed", JBool false)])
  = Py.join (String newline EmptyString)
      ["{";
       "  " +:+ json_quote "ips" +:+ ": [";
       "    " +:+ json_quote "10.0.0.7" +:+ ",";
       "    " +:+ json_quote "10.0.0.8";
       "  ],";
       "  " +:+ json_quote "alerts" +:+ ": [],";
       "  " +:+ json_quote "closed" +:+ ": false";
       "}"].
Proof. reflexivity. Qed.

(** * Properties of the code around the claims *)

(** ** Order of dates *)

Lemma compare_fields_antisym (a b : list N) :
  DT.compare_fields a b = CompOpp (DT.compare_fields b a).
Proof.
  revert b. induction a as [|x a IH]; intros [|y b]; simpl; try done.
  rewrite (N.compare_antisym y x). destruct (y ?= x)%N; simpl; auto.
Qed.

Lemma compare_fields_trans (a b c : list N) :
  DT.compare_fields a b ≠ Gt → DT.compare_fields b c ≠ Gt → DT.compare_fields a c ≠ Gt.
Proof.
  revert b c. induction a as [|x a IH]; intros [|y b] [|z c]; simpl; try done.
  destruct (N.compare_spec x y), (N.compare_spec y z), (N.compare_spec x z);
    try done; try lia; eauto.
Qed.

Lemma dt_leb_total (a b : DT.t) : DT.leb a b = true ∨ DT.leb b a = true.
Proof.
  unfold DT.leb, DT.compare. rewrite (compare_fields_antisym (DT.fields b)).
  destruct (DT.compare_fields (DT.fields a) (DT.fields b)); simpl; auto.
Qed.

Lemma dt_leb_trans (a b c : DT.t) :
  DT.leb a b = true → DT.leb b c = true → DT.leb a c = true.
Proof.
  unfold DT.leb, DT.compare. intros Hab Hbc.
  pose proof (compare_fields_trans (DT.fields a) (DT.fields b) (DT.fields c)) as Ht.
  destruct (DT.compare_fields (DT.fields a) (DT.fields b)),
           (DT.compare_fields (DT.fields b) (DT.fields c)),
           (DT.compare_fields (DT.fields a) (DT.fields c)); try done;
    exfalso; by apply Ht.
Qed.


(** ** The detection run: which alerts it adds *)

Lemma detect_pair_cases (ev : Event.t) (r : Rule.t) (st : Store * nat) :
  detect_pair ev r st = Ok st
  ∨ (rule_matches r ev = Ok true ∧ ¬ has_alert st.1 r ev
     ∧ detect_pair ev r st = Ok (add_alert (new_alert st.1 ev r) st.1, S st.2)).
Proof.
  destruct (rule_matches r ev) as [[|]|] eqn:Hm.
  - destruct (existing_alert st.1 ev r) as [a|] eqn:Hex.
    + left. unfold detect_pair. by rewrite Hm, Hex.
    + right. apply existing_alert_None in Hex. split_and!; [done..|].
      by apply detect_pair_add.
  - left. apply detect_pair_skip. by rewrite Hm.
  - by rewrite rule_matches_eq in Hm.
Qed.

Lemma has_alert_prefix (s0 s : Store) (extra : list Alert.t) (r : Rule.t) (ev : Event.t) :
  alerts s = alerts s0 ++ extra → has_alert s0 r ev → has_alert s r ev.
Proof.
  unfold has_alert. intros -> H. rewrite fmap_app. apply elem_of_app. by left.
Qed.

Lemma detect_pair_detect_inv (s0 : Store) (rs : list Rule.t) (evs : list Event.t)
    (ev : Event.t) (r : Rule.t) (st : Store * nat) :
  r ∈ rs → ev ∈ evs → detect_inv s0 rs evs st →
  ∃ st', detect_pair ev r st = Ok st' ∧ detect_inv s0 rs evs st'.
Proof.
  intros Hr Hev Hinv.
  destruct (detect_pair_cases ev r st) as [Hskip|(Hm & Hno & Hadd)]; [eauto|].
  eexists. split; [exact Hadd|].
  destruct Hinv as (Hsame & Hctr & extra & Hal & Hlen & Hall).
  split_and!; simpl.
  - by destruct Hsame as (? & ? & ? & ? & ? & ? & ? & ?).
  - rewrite Hctr. lia.
  - exists (extra ++ [new_alert st.1 ev r]). split_and!.
    + by rewrite Hal, app_assoc.
    + rewrite length_app. simpl. lia.
    + apply Forall_app. split; [done|]. apply Forall_singleton.
      exists r, ev. split_and!; [done | done | done | | by repeat split].
      intros H0. apply Hno. by eapply has_alert_prefix.
Qed.

Lemma for_each_preserves {A S} (body : A → S → exc S) (P : S → Prop)
    (xs : list A) (st : S) :
  P st →
  (∀ x st, x ∈ xs → P st → ∃ st', body x st = Ok st' ∧ P st') →
  ∃ st', for_each body xs st = Ok st' ∧ P st'.
Proof.
  revert st. induction xs as [|x xs IH]; intros st HP Hstep; simpl; [eauto|].
  destruct (Hstep x st) as (st1 & -> & HP1); [apply elem_of_cons; by left | done |].
  simpl. apply IH; [done|].
  intros y st' Hy. apply Hstep, elem_of_cons. by right.
Qed.

Lemma detect_window_detect_inv (s0 : Store) (rs : list Rule.t) (evs : list Event.t)
    (st : Store * nat) :
  detect_inv s0 rs evs st →
  ∃ st', detect_window rs evs st = Ok st' ∧ detect_inv s0 rs evs st'.
Proof.
  intros Hinv. apply for_each_preserves; [done|].
  intros ev st1 Hev Hinv1. apply for_each_preserves; [done|].
  intros r st2 Hr Hinv2. by apply detect_pair_detect_inv.
Qed.

Lemma detect_inv_init (s : Store) (rs : list Rule.t) (evs : list Event.t) :
  detect_inv s rs evs (s, 0).
Proof.
  split_and!; simpl; [by repeat split | lia |].
  exists []. by rewrite app_nil_r.
Qed.

Lemma query_rules_perm (s : Store) : query_rules s ≡ₚ rules s.
Proof. apply sort_by_perm. Qed.

Lemma query_events_subseteq (s : Store) (limit : nat) : query_events s limit ⊆ events s.
Proof.
  intros ev Hev. unfold query_events in Hev.
  apply subseteq_take in Hev. by rewrite sort_by_perm in Hev.
Qed.

Lemma query_events_length (s : Store) (limit : nat) :
  length (query_events s limit) = limit `min` length (events s).
Proof. unfold query_events. by rewrite length_take, sort_by_perm. Qed.

Lemma run_detections_detect_inv (s s1 : Store) (limit created : nat) :
  run_detections s limit = Ok (s1, created) →
  detect_inv s (query_rules s) (query_events s limit) (s1, created).
Proof.
  unfold run_detections. intros Hrun.
  destruct (query_rules s) as [|r0 rs] eqn:Hrules.
  - injection Hrun as <- <-. apply detect_inv_init.
  - destruct (detect_window_detect_inv s (r0 :: rs) (query_events s limit) (s, 0)
                (detect_inv_init _ _ _)) as (st' & Hrun' & Hinv).
    rewrite Hrun in Hrun'. by injection Hrun' as <-.
Qed.

Lemma run_detections_covers (s s1 : Store) (limit created : nat) :
  run_detections s limit = Ok (s1, created) →
  ∀ ev r, ev ∈ query_events s limit → r ∈ query_rules s →
          rule_matches r ev = Ok true → has_alert s1 r ev.
Proof.
  unfold run_detections. intros Hrun ev r Hev Hr Hm.
  destruct (query_rules s) as [|r0 rs] eqn:Hrules; [by apply elem_of_nil in Hr|].
  destruct (detect_window_inv s (r0 :: rs) (query_events s limit) (s, 0)
              (run_inv_init s)) as (st' & Hrun' & _ & Hcov).
  rewrite Hrun in Hrun'. injection Hrun' as <-. by apply Hcov.
Qed.

(** Property X1. A detection run is complete and sound: afterwards every rule and event
    of the window that match have an alert, and every alert the run added
    is the snapshot of a rule on record and an event of the window that
    match and had no alert before. *)
Theorem detection_sound_complete (s s1 : Store) (limit created : nat) :
  run_detections s limit = Ok (s1, created) →
  (∀ ev r, ev ∈ query_events s limit → r ∈ query_rules s →
           rule_matches r ev = Ok true → has_alert s1 r ev)
  ∧ ∃ extra,
      alerts s1 = alerts s ++ extra ∧ length extra = created
      ∧ Forall (fun a => ∃ r ev,
                  r ∈ rules s ∧ ev ∈ events s ∧ ev ∈ query_events s limit
                  ∧ rule_matches r ev = Ok true ∧ ¬ has_alert s r ev
                  ∧ snapshot_of a r ev) extra.
Proof.
  intros Hrun. split; [by eapply run_detections_covers|].
  destruct (run_detections_detect_inv _ _ _ _ Hrun) as (_ & _ & extra & Hal & Hlen & Hall).
  exists extra. split_and!; [done..|].
  eapply Forall_impl; [exact Hall|].
  intros a (r & ev & Hr & Hev & Hrest). exists r, ev.
  split_and!; [by rewrite <- query_rules_perm | by eapply query_events_subseteq | done |
               apply Hrest..].
Qed.

Lemma detection_sound_complete_witness :
  (∀ ev r, ev ∈ query_events Sample.store1 500 → r ∈ query_rules Sample.store1 →
           rule_matches r ev = Ok true → has_alert Sample2.store1_after r ev)
  ∧ ∃ extra,
      alerts Sample2.store1_after = alerts Sample.store1 ++ extra ∧ length extra = 1
      ∧ Forall (fun a => ∃ r ev,
                  r ∈ rules Sample.store1 ∧ ev ∈ events Sample.store1
                  ∧ ev ∈ query_events Sample.store1 500
                  ∧ rule_matches r ev = Ok true ∧ ¬ has_alert Sample.store1 r ev
                  ∧ snapshot_of a r ev) extra.
Proof.
  apply (detection_sound_complete Sample.store1 Sample2.store1_after 500 1).
  vm_compute. reflexivity.
Defined.

Lemma detect_rules_count (ev : Event.t) (rs : list Rule.t) (st st' : Store * nat) :
  for_each (fun r => detect_pair ev r) rs st = Ok st' → st'.2 ≤ st.2 + length rs.
Proof.
  revert st. induction rs as [|r rs IH]; intros st; simpl.
  - intros [= <-]. lia.
  - destruct (detect_pair_cases ev r st) as [->|(_ & _ & ->)]; simpl;
      intros Hrest; apply IH in Hrest; simpl in *; lia.
Qed.

Lemma detect_window_count (rs : list Rule.t) (evs : list Event.t) (st st' : Store * nat) :
  detect_window rs evs st = Ok st' → st'.2 ≤ st.2 + length evs * length rs.
Proof.
  unfold detect_window. revert st. induction evs as [|ev evs IH]; intros st; simpl.
  - intros [= <-]. lia.
  - destruct (for_each (fun r => detect_pair ev r) rs st) as [st1|] eqn:Hinner;
      simpl; [|done].
    intros Hrest. apply IH in Hrest. apply detect_rules_count in Hinner. lia.
Qed.

Lemma same_but_alerts_eq (s s' : Store) :
  same_but_alerts s s' → alerts s' = alerts s → uuid_counter s' = uuid_counter s → s' = s.
Proof.
  intros (? & ? & ? & ? & ? & ? & ? & ?) ? ?.
  destruct s, s'; simpl in *. by subst.
Qed.

(** Property X2. A detection run writes to the alert table and draws identifiers,
    nothing else; it creates at most one alert per rule and event of the
    window, and when it creates none, as with no rule, no event or a limit
    of zero, the session is exactly as before. *)
Theorem detection_frame_and_bound (s s1 : Store) (limit created : nat) :
  run_detections s limit = Ok (s1, created) →
  same_but_alerts s s1
  ∧ uuid_counter s1 = uuid_counter s + created
  ∧ created ≤ length (rules s) * (limit `min` length (events s))
  ∧ (∃ extra, alerts s1 = alerts s ++ extra ∧ length extra = created)
  ∧ (created = 0 → s1 = s)
  ∧ (rules s = [] ∨ events s = [] ∨ limit = 0 → created = 0 ∧ s1 = s).
Proof.
  intros Hrun.
  destruct (run_detections_detect_inv _ _ _ _ Hrun)
    as (Hsame & Hctr & extra & Hal & Hlen & _).
  simpl in *.
  assert (created ≤ length (rules s) * (limit `min` length (events s))) as Hbound.
  { rewrite <- query_events_length, <- (query_rules_perm s).
    unfold run_detections in Hrun.
    destruct (query_rules s) as [|r0 rs] eqn:Hrules.
    - injection Hrun as _ <-. lia.
    - apply detect_window_count in Hrun. cbn [snd] in Hrun.
      rewrite (Nat.mul_comm (length (r0 :: rs))). lia. }
  assert (created = 0 → s1 = s) as Hzero.
  { intros ->. apply same_but_alerts_eq; [done | | lia].
    destruct extra; [by rewrite app_nil_r in Hal | done]. }
  split_and!; [done | done | done | by exists extra | done |].
  intros Hempty.
  assert (created = 0) as Hc.
  { destruct Hempty as [Hr|[He| ->]].
    - rewrite Hr in Hbound. simpl in Hbound. lia.
    - rewrite He in Hbound. simpl in Hbound. lia.
    - simpl in Hbound. lia. }
  auto.
Qed.

Lemma detection_frame_and_bound_witness :
  same_but_alerts Sample.store1 Sample2.store1_after
  ∧ uuid_counter Sample2.store1_after = uuid_counter Sample.store1 + 1
  ∧ 1 ≤ length (rules Sample.store1) * (500 `min` length (events Sample.store1)).
Proof.
  destruct (detection_frame_and_bound Sample.store1 Sample2.store1_after 500 1)
    as (Hsame & Hctr & Hbound & _); [vm_compute; reflexivity|].
  by split_and!.
Defined.

(** ** Dotted paths *)

Lemma split_nonempty (sep : ascii) (s : string) : Py.split sep s ≠ [].
Proof.
  destruct s as [|c s]; simpl; [done|].
  case_decide; [done|]. by destruct (Py.split sep s).
Qed.

Lemma split_dot_free (s : string) : Forall (fun w => dot_free w = true) (Py.split "." s).
Proof.
  induction s as [|c s IH]; simpl; [by repeat constructor|].
  case_decide as Hc; [by constructor|].
  pose proof (split_nonempty "." s) as Hne.
  destruct (Py.split "." s) as [|w ws]; [done|].
  apply Forall_cons in IH as [Hw Hws]. constructor; [|done].
  simpl. by rewrite decide_False.
Qed.

Lemma join_cons2 (sep p q : string) (rest : list string) :
  Py.join sep (p :: q :: rest) = p +:+ sep +:+ Py.join sep (q :: rest).
Proof. done. Qed.

Lemma join_split (s : string) : Py.join "." (Py.split "." s) = s.
Proof.
  induction s as [|c s IH]; simpl; [done|].
  pose proof (split_nonempty "." s) as Hne.
  destruct (Py.split "." s) as [|w ws]; [done|].
  case_decide as Hc.
  - subst c. rewrite join_cons2, IH. done.
  - destruct ws as [|w' ws].
    + simpl in *. by rewrite IH.
    + rewrite join_cons2 in *. by rewrite append_cons, IH.
Qed.

Lemma split_dot_free_id (p : string) : dot_free p = true → Py.split "." p = [p].
Proof.
  induction p as [|c p IH]; simpl; [done|].
  case_decide; [done|]. intros Hp. by rewrite IH.
Qed.

Lemma split_app_dot (p t : string) :
  dot_free p = true → Py.split "." (p +:+ "." +:+ t) = p :: Py.split "." t.
Proof.
  induction p as [|c p IH]; simpl.
  - intros _. by rewrite append_nil_l.
  - case_decide as Hc; [done|]. intros Hp. by rewrite IH.
Qed.

Lemma split_join (segs : list string) :
  segs ≠ [] → Forall (fun k => dot_free k = true) segs →
  Py.split "." (Py.join "." segs) = segs.
Proof.
  induction segs as [|p segs IH]; [done|]. intros _ [Hp Hrest]%Forall_cons.
  destruct segs as [|q segs].
  - simpl. by apply split_dot_free_id.
  - rewrite join_cons2, split_app_dot by done. f_equal. by apply IH.
Qed.

Lemma assoc_get_elem (k : string) (fields : list (string * json)) (v : json) :
  assoc_get k fields = Some v → (k, v) ∈ fields.
Proof.
  induction fields as [|[k' v'] fields IH]; simpl; [done|].
  case_decide as Hk.
  - intros [= ->]. subst. apply elem_of_cons. by left.
  - intros H. apply elem_of_cons. right. by apply IH.
Qed.

(** Property X3. A dotted path addresses exactly the values under a chain of keys
    without dots. The path made of such keys finds the value they lead
    to. Whatever a path finds lies under such a chain, one key at least:
    never the payload itself, nothing below a payload that is not a dict
    (a list, a scalar), nothing under keys that contain a dot. *)
Theorem get_by_path_dotted (obj : json) :
  (∀ segs v, segs ≠ [] → Forall (fun k => dot_free k = true) segs →
             resolve obj segs = Some v →
             _get_by_path obj (Py.join "." segs) = Ok v)
  ∧ (∀ path v, _get_by_path obj path = Ok v → v ≠ JNull →
               ∃ segs, segs ≠ [] ∧ Forall (fun k => dot_free k = true) segs
                       ∧ Py.join "." segs = path ∧ resolve obj segs = Some v)
  ∧ (∀ path, isinstance_dict obj = false → _get_by_path obj path = Ok JNull)
  ∧ (∀ fields path, obj = JDict fields →
                    (∀ k v, (k, v) ∈ fields → dot_free k = false) →
                    _get_by_path obj path = Ok JNull).
Proof.
  split_and!.
  - intros segs v Hne Hfree Hres.
    rewrite get_by_path_resolve. unfold segments. by rewrite split_join, Hres.
  - intros path v Hget Hv. rewrite get_by_path_resolve in Hget.
    exists (Py.split "." path).
    split_and!; [apply split_nonempty | apply split_dot_free | apply join_split |].
    unfold segments in Hget. destruct (resolve obj (Py.split "." path)); simpl in *;
      congruence.
  - intros path Hnd. rewrite get_by_path_resolve. unfold segments.
    pose proof (split_nonempty "." path) as Hne.
    destruct (Py.split "." path) as [|seg rest]; [done|].
    by destruct obj.
  - intros fields path -> Hdots. rewrite get_by_path_resolve. unfold segments.
    pose proof (split_nonempty "." path) as Hne.
    pose proof (split_dot_free path) as Hfree.
    destruct (Py.split "." path) as [|seg rest]; [done|].
    apply Forall_cons in Hfree as [Hseg _]. simpl.
    destruct (assoc_get seg fields) as [v|] eqn:Hget; [|done].
    apply assoc_get_elem, Hdots in Hget. congruence.
Qed.

(** The user name of the sample event under its two keys, and a payload
    whose only key is the dotted text itself. *)
Lemma get_by_path_dotted_witness :
  _get_by_path (Event.raw Sample.ev_root) (Py.join "." ["userIdentity"; "userName"])
  = Ok (JStr "rootuser")
  ∧ _get_by_path (JDict [("userIdentity.userName", JStr "rootuser")])
      "userIdentity.userName" = Ok JNull.
Proof.
  destruct (get_by_path_dotted (Event.raw Sample.ev_root)) as (Hfind & _).
  destruct (get_by_path_dotted (JDict [("userIdentity.userName", JStr "rootuser")]))
    as (_ & _ & _ & Hdots).
  split.
  - apply Hfind; [done | by repeat constructor | reflexivity].
  - apply (Hdots _ _ eq_refl). intros k v [[= -> ->]|Hin%elem_of_nil]%elem_of_cons; done.
Defined.

(** ** Deleting alerts and incidents *)

Lemma filter_ext_in {A} (P Q : A → Prop) `{!∀ x, Decision (P x)} `{!∀ x, Decision (Q x)}
    (l : list A) :
  (∀ x, x ∈ l → P x ↔ Q x) → filter P l = filter Q l.
Proof.
  induction l as [|a l IH]; intros Hext; [done|].
  rewrite !filter_cons.
  assert (filter P l = filter Q l) as ->.
  { apply IH. intros x Hx. apply Hext, elem_of_cons. by right. }
  destruct (Hext a) as [HPQ HQP]; [apply elem_of_cons; by left|].
  repeat case_decide; tauto.
Qed.

Lemma NoDup_fmap_inj_on {A B} (f : A → B) (l : list A) (x y : A) :
  NoDup (f <$> l) → x ∈ l → y ∈ l → f x = f y → x = y.
Proof.
  induction l as [|a l IH]; csimpl; [by intros _ ?%elem_of_nil|].
  intros [Hnotin Hnd]%NoDup_cons [->|Hx]%elem_of_cons [->|Hy]%elem_of_cons Heq; auto.
  - destruct Hnotin. rewrite Heq. apply list_elem_of_fmap. eauto.
  - destruct Hnotin. rewrite <- Heq. apply list_elem_of_fmap. eauto.
Qed.

Lemma first_filter_is_Some {A} (P : A → Prop) `{!∀ x, Decision (P x)} (l : list A) :
  is_Some (first (filter P l)) ↔ ∃ x, x ∈ l ∧ P x.
Proof.
  split.
  - intros [a Ha]. apply (first_filter_Some P) in Ha. eauto.
  - intros (x & Hx & HPx).
    destruct (first (filter P l)) as [a|] eqn:Hfirst; [eauto|].
    pose proof (proj1 (first_filter_None P l) Hfirst x Hx). done.
Qed.

Lemma find_alert_Some (s : Store) (alert_id : string) (a : Alert.t) :
  find_alert s alert_id = Some a → a ∈ alerts s ∧ Alert.id a = alert_id.
Proof. apply (first_filter_Some (fun a => Alert.id a = alert_id)). Qed.

(** The links left by the loop of [delete_alert]. *)
Lemma delete_links_of_alert (s : Store) (alert_id : string) :
  let links := filter (fun l => IncidentAlert.alert_id l = alert_id) (incident_alerts s) in
  incident_alerts (foldl (fun st x => delete_link x st) s links)
  = filter (fun l => IncidentAlert.alert_id l ≠ alert_id) (incident_alerts s).
Proof.
  intros links. destruct (delete_links_spec links s) as (_ & _ & _ & _ & ->).
  apply filter_ext_in. intros l Hl. split.
  - intros Hk Hid. apply Hk, list_elem_of_fmap. exists l. split; [done|].
    apply list_elem_of_filter. by split.
  - intros Hid (l' & Hk & Hin)%list_elem_of_fmap.
    apply list_elem_of_filter in Hin as [Hid' _]. unfold link_key in Hk.
    apply Hid. by simplify_eq.
Qed.

(** The links left by the first loop of [delete_incident]. *)
Lemma delete_links_of_incident (s : Store) (incident_id : string) :
  let links :=
    filter (fun l => IncidentAlert.incident_id l = incident_id) (incident_alerts s) in
  incident_alerts (foldl (fun st x => delete_link x st) s links)
  = filter (fun l => IncidentAlert.incident_id l ≠ incident_id) (incident_alerts s).
Proof.
  intros links. destruct (delete_links_spec links s) as (_ & _ & _ & _ & ->).
  apply filter_ext_in. intros l Hl. split.
  - intros Hk Hid. apply Hk, list_elem_of_fmap. exists l. split; [done|].
    apply list_elem_of_filter. by split.
  - intros Hid (l' & Hk & Hin)%list_elem_of_fmap.
    apply list_elem_of_filter in Hin as [Hid' _]. unfold link_key in Hk.
    apply Hid. by simplify_eq.
Qed.

Lemma delete_links_frame (xs : list IncidentAlert.t) (s : Store) :
  let s' := foldl (fun st x => delete_link x st) s xs in
  rules s' = rules s ∧ events s' = events s ∧ alerts s' = alerts s
  ∧ incidents s' = incidents s ∧ incident_actions s' = incident_actions s
  ∧ evidence_files s' = evidence_files s ∧ files s' = files s
  ∧ clock s' = clock s ∧ uuid_counter s' = uuid_counter s.
Proof.
  revert s. induction xs as [|x xs IH]; intros s; simpl; [done|].
  destruct (IH (delete_link x s)) as (-> & -> & -> & -> & -> & -> & -> & -> & ->).
  done.
Qed.

Lemma delete_actions_frame (xs : list IncidentAction.t) (s : Store) :
  let s' := foldl (fun st x => delete_action x st) s xs in
  rules s' = rules s ∧ events s' = events s ∧ alerts s' = alerts s
  ∧ incidents s' = incidents s ∧ incident_alerts s' = incident_alerts s
  ∧ evidence_files s' = evidence_files s ∧ files s' = files s
  ∧ clock s' = clock s ∧ uuid_counter s' = uuid_counter s.
Proof.
  revert s. induction xs as [|x xs IH]; intros s; simpl; [done|].
  destruct (IH (delete_action x s)) as (-> & -> & -> & -> & -> & -> & -> & -> & ->).
  done.
Qed.

(** Property X4. Deleting an alert on record removes the alert and exactly the links
    that name it, in every incident; the incidents themselves, their
    [updated_at] included, and all other tables stay as they were, and the
    alert can be neither found nor deleted again. *)
Theorem delete_alert_cascades (s : Store) (alert_id : string) (a : Alert.t) :
  find_alert s alert_id = Some a →
  ∃ s1,
    delete_alert s alert_id = Ok (s1, "deleted")
    ∧ alerts s1 = filter (fun x => Alert.id x ≠ alert_id) (alerts s)
    ∧ incident_alerts s1
      = filter (fun l => IncidentAlert.alert_id l ≠ alert_id) (incident_alerts s)
    ∧ incidents s1 = incidents s
    ∧ incident_actions s1 = incident_actions s
    ∧ rules s1 = rules s ∧ events s1 = events s
    ∧ evidence_files s1 = evidence_files s
    ∧ find_alert s1 alert_id = None
    ∧ delete_alert s1 alert_id = Raise (HTTPException 404 "alert not found").
Proof.
  intros Hfind. pose proof (find_alert_Some _ _ _ Hfind) as [_ Hid].
  unfold delete_alert. rewrite Hfind.
  set (links := filter _ (incident_alerts s)).
  set (mid := foldl _ s links).
  destruct (delete_links_frame links s) as (Hr & He & Hal & Hi & Hact & Hev & _).
  fold mid in Hr, He, Hal, Hi, Hact, Hev.
  assert (find_alert (delete_alert_row a mid) alert_id = None) as Hgone.
  { apply (first_filter_None (fun x => Alert.id x = alert_id)). simpl.
    intros x [Hne _]%list_elem_of_filter. congruence. }
  exists (delete_alert_row a mid). rewrite Hgone.
  split_and!; simpl; try done.
  - rewrite Hal, Hid. done.
  - apply delete_links_of_alert.
Qed.

(** The first sample alert, linked to both sample incidents. *)
Lemma delete_alert_cascades_witness :
  ∃ s1,
    delete_alert Sample.store2 "a-1" = Ok (s1, "deleted")
    ∧ incident_alerts s1 = [IncidentAlert.mk "i-1" "a-2" Sample.t2]
    ∧ find_alert s1 "a-1" = None.
Proof.
  destruct (delete_alert_cascades Sample.store2 "a-1" Sample.alert1 eq_refl)
    as (s1 & Hdel & _ & Hlinks & _ & _ & _ & _ & _ & Hgone & _).
  exists s1. split_and!; [exact Hdel | | exact Hgone].
  rewrite Hlinks. reflexivity.
Defined.

(** Property X5. Deleting an incident deletes rows of three tables only: the incident,
    the links that name it, and its actions (exactly those when the ids of
    the actions are unique). The alerts, rules, events, evidence records
    and files stay, and a second deletion answers 404. *)
Theorem delete_incident_frame (s : Store) (incident_id : string) (inc : Incident.t) :
  find_incident s incident_id = Some inc →
  ∃ s1,
    delete_incident s incident_id = Ok (s1, "deleted")
    ∧ incidents s1 = filter (fun i => Incident.id i ≠ incident_id) (incidents s)
    ∧ incident_alerts s1
      = filter (fun l => IncidentAlert.incident_id l ≠ incident_id) (incident_alerts s)
    ∧ (NoDup (IncidentAction.id <$> incident_actions s) →
       incident_actions s1
       = filter (fun act => IncidentAction.incident_id act ≠ incident_id)
                (incident_actions s))
    ∧ alerts s1 = alerts s ∧ rules s1 = rules s ∧ events s1 = events s
    ∧ evidence_files s1 = evidence_files s ∧ files s1 = files s
    ∧ delete_incident s1 incident_id = Raise (HTTPException 404 "incident not found").
Proof.
  intros Hfind. pose proof (find_incident_Some _ _ _ Hfind) as [_ Hid].
  unfold delete_incident at 1. rewrite Hfind. unfold delete_children.
  set (links := filter _ (incident_alerts s)).
  set (mid := foldl (fun st x => delete_link x st) s links).
  set (actions := filter _ (incident_actions s)).
  set (mid2 := foldl _ mid actions).
  destruct (delete_links_frame links s) as (Hr & He & Hal & Hi & Hact & Hev & Hf & _).
  destruct (delete_actions_frame actions mid)
    as (Hr2 & He2 & Hal2 & Hi2 & Hl2 & Hev2 & Hf2 & _).
  destruct (delete_actions_spec actions mid) as (_ & _ & _ & _ & Hacts).
  fold mid in Hr, He, Hal, Hi, Hact, Hev, Hf.
  fold mid2 in Hr2, He2, Hal2, Hi2, Hl2, Hev2, Hf2, Hacts.
  assert (find_incident (delete_incident_row inc mid2) incident_id = None) as Hgone.
  { apply find_incident_None. simpl.
    intros i [Hne _]%list_elem_of_filter. congruence. }
  exists (delete_incident_row inc mid2).
  split_and!; simpl; try congruence.
  - rewrite Hi2, Hi, Hid. done.
  - rewrite Hl2. apply delete_links_of_incident.
  - intros Hnodup. rewrite Hacts, Hact.
    apply filter_ext_in. intros act Hact_in. split.
    + intros Hk Hinc. apply Hk, list_elem_of_fmap. exists act. split; [done|].
      apply list_elem_of_filter. by split.
    + intros Hinc (act' & Hk & Hin)%list_elem_of_fmap.
      apply list_elem_of_filter in Hin as [Hinc' Hin'].
      assert (act = act') as <-; [|done].
      by eapply (NoDup_fmap_inj_on IncidentAction.id (incident_actions s)).
  - unfold delete_incident. by rewrite Hgone.
Qed.

Lemma delete_incident_frame_witness :
  ∃ s1,
    delete_incident Sample.store2 "i-1" = Ok (s1, "deleted")
    ∧ alerts s1 = alerts Sample.store2
    ∧ incidents s1 = [Sample.incident2]
    ∧ delete_incident s1 "i-1" = Raise (HTTPException 404 "incident not found").
Proof.
  destruct (delete_incident_frame Sample.store2 "i-1" Sample.incident1 eq_refl)
    as (s1 & Hdel & Hincs & _ & _ & Hal & _ & _ & _ & _ & Hagain).
  exists s1. split_and!; [exact Hdel | exact Hal | | exact Hagain].
  rewrite Hincs. reflexivity.
Defined.

(** ** The life of an incident *)

Lemma touch_incident_first (incident_id : string) (now : DT.t) (incs : list Incident.t)
    (inc : Incident.t) :
  first (filter (fun i => Incident.id i = incident_id) incs) = Some inc →
  first (filter (fun i => Incident.id i = incident_id) (touch_incident incident_id now incs))
  = Some (Incident.mk (Incident.id inc) (Incident.created_at inc) now (Incident.title inc)
            (Incident.severity inc) (Incident.status inc) (Incident.description inc)).
Proof.
  induction incs as [|i incs IH]; simpl; [done|].
  rewrite filter_cons. case_decide as Hid.
  - intros [= ->]. by rewrite filter_cons_True.
  - intros H. rewrite filter_cons_False by done. by apply IH.
Qed.

Lemma touch_incident_other (incident_id other : string) (now : DT.t)
    (incs : list Incident.t) :
  other ≠ incident_id →
  filter (fun i => Incident.id i = other) (touch_incident incident_id now incs)
  = filter (fun i => Incident.id i = other) incs.
Proof.
  intros Hne. induction incs as [|i incs IH]; simpl; [done|].
  case_decide as Hid.
  - rewrite !filter_cons_False; simpl; congruence.
  - rewrite !filter_cons. by rewrite IH.
Qed.

Lemma touch_incident_ids (incident_id : string) (now : DT.t) (incs : list Incident.t) :
  Incident.id <$> touch_incident incident_id now incs = Incident.id <$> incs.
Proof.
  induction incs as [|i incs IH]; csimpl; [done|].
  case_decide; csimpl; [done|]. by rewrite IH.
Qed.

Lemma close_row_first (incident_id : string) (now : DT.t) (incs : list Incident.t)
    (inc : Incident.t) :
  first (filter (fun i => Incident.id i = incident_id) incs) = Some inc →
  first (filter (fun i => Incident.id i = incident_id) (close_row incident_id now incs))
  = Some (Incident.mk (Incident.id inc) (Incident.created_at inc) now (Incident.title inc)
            (Incident.severity inc) "closed" (Incident.description inc)).
Proof.
  induction incs as [|i incs IH]; simpl; [done|].
  rewrite filter_cons. case_decide as Hid.
  - intros [= ->]. by rewrite filter_cons_True.
  - intros H. rewrite filter_cons_False by done. by apply IH.
Qed.

Lemma close_row_other (incident_id other : string) (now : DT.t) (incs : list Incident.t) :
  other ≠ incident_id →
  filter (fun i => Incident.id i = other) (close_row incident_id now incs)
  = filter (fun i => Incident.id i = other) incs.
Proof.
  intros Hne. induction incs as [|i incs IH]; simpl; [done|].
  case_decide as Hid.
  - rewrite !filter_cons_False; simpl; congruence.
  - rewrite !filter_cons. by rewrite IH.
Qed.

Lemma close_row_ids (incident_id : string) (now : DT.t) (incs : list Incident.t) :
  Incident.id <$> close_row incident_id now incs = Incident.id <$> incs.
Proof.
  induction incs as [|i incs IH]; csimpl; [done|].
  case_decide; csimpl; [done|]. by rewrite IH.
Qed.

(** Property X6. Closing an incident on record answers the incident as stored
    afterwards: closed, updated now, otherwise as it was. No incident is
    added or removed, the other incidents and all other tables are
    untouched, and closing again answers a closed incident again. *)
Theorem close_incident_closes (s : Store) (incident_id : string) (inc : Incident.t) :
  find_incident s incident_id = Some inc →
  ∃ s1 row,
    close_incident s incident_id = Ok (s1, row)
    ∧ find_incident s1 incident_id = Some row
    ∧ Incident.status row = "closed"
    ∧ Incident.updated_at row = utc_now s
    ∧ (Incident.id row = Incident.id inc ∧ Incident.created_at row = Incident.created_at inc
       ∧ Incident.title row = Incident.title inc
       ∧ Incident.severity row = Incident.severity inc
       ∧ Incident.description row = Incident.description inc)
    ∧ Incident.id <$> incidents s1 = Incident.id <$> incidents s
    ∧ (∀ other, other ≠ incident_id → find_incident s1 other = find_incident s other)
    ∧ (alerts s1 = alerts s ∧ incident_alerts s1 = incident_alerts s
       ∧ incident_actions s1 = incident_actions s ∧ evidence_files s1 = evidence_files s
       ∧ rules s1 = rules s ∧ events s1 = events s ∧ files s1 = files s
       ∧ clock s1 = clock s ∧ uuid_counter s1 = uuid_counter s)
    ∧ ∃ s2 row2, close_incident s1 incident_id = Ok (s2, row2)
                 ∧ Incident.status row2 = "closed".
Proof.
  intros Hfind. unfold close_incident at 1. rewrite Hfind.
  set (s1 := set_incident_tables s _ _ _).
  set (row := Incident.mk _ _ _ _ _ _ _).
  assert (find_incident s1 incident_id = Some row) as Hfind1.
  { unfold find_incident. simpl. by apply close_row_first. }
  exists s1, row. split_and!; try done.
  - simpl. apply close_row_ids.
  - intros other Hne. unfold find_incident. simpl. by rewrite close_row_other.
  - unfold close_incident. rewrite Hfind1. eauto.
Qed.

Lemma close_incident_closes_witness :
  ∃ s1 row,
    close_incident Sample.store2 "i-1" = Ok (s1, row)
    ∧ find_incident s1 "i-1" = Some row
    ∧ Incident.status row = "closed"
    ∧ find_incident s1 "i-2" = Some Sample.incident2.
Proof.
  destruct (close_incident_closes Sample.store2 "i-1" Sample.incident1 eq_refl)
    as (s1 & row & Hclose & Hfind & Hstatus & _ & _ & _ & Hother & _).
  exists s1, row. split_and!; [done..|].
  rewrite Hother by done. reflexivity.
Defined.

(** *** What the packet shows *)

Lemma build_incident_packet_fields (s : Store) (incident_id : string) (inc : Incident.t) :
  find_incident s incident_id = Some inc →
  ∃ p, build_incident_packet s incident_id = Ok p
       ∧ Packet.alerts p = List.map packet_alert (query_incident_alerts s incident_id)
       ∧ Packet.actions p = List.map packet_action (query_incident_actions s incident_id)
       ∧ Packet.timeline p
         = sort_timeline
             (timeline_entries (fetch_events s (query_incident_alerts s incident_id))
                (query_incident_alerts s incident_id))
       ∧ Packet.incident p
         = Packet.mk_incident (Incident.id inc) (Incident.title inc)
             (Incident.severity inc) (Incident.status inc)
             (_safe_iso (Incident.created_at inc))
             (_safe_iso (Incident.updated_at inc)) (Incident.description inc).
Proof.
  intros Hfind. unfold build_incident_packet. rewrite Hfind.
  destruct (times _); eexists; (split; [reflexivity|]); by split_and!.
Qed.

Lemma query_incident_alerts_elem (s : Store) (incident_id : string) (a : Alert.t) :
  a ∈ query_incident_alerts s incident_id ↔
  a ∈ alerts s ∧ ∃ l, l ∈ incident_alerts s ∧ IncidentAlert.alert_id l = Alert.id a
                      ∧ IncidentAlert.incident_id l = incident_id.
Proof.
  unfold query_incident_alerts. rewrite sort_by_perm.
  rewrite list_elem_of_In, in_flat_map. split.
  - intros (a' & Ha' & Hin). apply in_map_iff in Hin as (l & <- & Hl).
    apply list_elem_of_In, list_elem_of_filter in Hl as [[Hid Hinc] Hl].
    split; [by apply list_elem_of_In|]. eauto.
  - intros [Ha (l & Hl & Hid & Hinc)]. exists a. split; [by apply list_elem_of_In|].
    apply in_map_iff. exists l. split; [done|].
    apply list_elem_of_In, list_elem_of_filter. by split.
Qed.

Lemma query_incident_actions_elem (s : Store) (incident_id : string)
    (act : IncidentAction.t) :
  act ∈ query_incident_actions s incident_id ↔
  act ∈ incident_actions s ∧ IncidentAction.incident_id act = incident_id.
Proof.
  unfold query_incident_actions. rewrite sort_by_perm, list_elem_of_filter. tauto.
Qed.

Lemma alert_entry_in_timeline (evs : gmap string Event.t) (als : list Alert.t) (a : Alert.t) :
  a ∈ als → alert_entry a ∈ sort_timeline (timeline_entries evs als).
Proof.
  intros Ha. unfold sort_timeline. rewrite sort_by_perm.
  unfold timeline_entries. apply list_elem_of_In, in_flat_map.
  exists a. split; [by apply list_elem_of_In | by left].
Qed.

(** Property X7. An action logged for an incident on record is appended to the log,
    nothing of the log being changed, it marks the incident as updated
    now, and the packet built afterwards shows the action and the new
    [updated_at]. *)
Theorem create_incident_action_logged (s : Store) (incident_id : string)
    (actor : option string) (action_type summary : string) (details : option json)
    (inc : Incident.t) :
  find_incident s incident_id = Some inc →
  ∃ s1 action p,
    create_incident_action s incident_id actor action_type summary details
    = Ok (s1, action)
    ∧ action = IncidentAction.mk (uuid4 s) incident_id (utc_now s) actor action_type
                 summary details
    ∧ incident_actions s1 = incident_actions s ++ [action]
    ∧ action ∈ list_incident_actions s1 incident_id
    ∧ (alerts s1 = alerts s ∧ incident_alerts s1 = incident_alerts s
       ∧ evidence_files s1 = evidence_files s)
    ∧ build_incident_packet s1 incident_id = Ok p
    ∧ packet_action action ∈ Packet.actions p
    ∧ Packet.updated_at (Packet.incident p) = _safe_iso (utc_now s)
    ∧ Packet.created_at (Packet.incident p) = _safe_iso (Incident.created_at inc).
Proof.
  intros Hfind. unfold create_incident_action. rewrite Hfind.
  set (action := IncidentAction.mk _ _ _ _ _ _ _).
  set (s1 := mkStore _ _ _ _ _ _ _ _ _ _).
  assert (find_incident s1 incident_id
          = Some (Incident.mk (Incident.id inc) (Incident.created_at inc) (utc_now s)
                    (Incident.title inc) (Incident.severity inc) (Incident.status inc)
                    (Incident.description inc))) as Hfind1.
  { unfold find_incident. simpl. by apply touch_incident_first. }
  destruct (build_incident_packet_fields s1 incident_id _ Hfind1)
    as (p & Hbuild & _ & Hacts & _ & Hinc).
  assert (action ∈ incident_actions s1) as Hin.
  { simpl. apply elem_of_app. right. apply elem_of_cons. by left. }
  exists s1, action, p. split_and!; try done.
  - unfold list_incident_actions. rewrite sort_by_perm.
    apply list_elem_of_filter. by split.
  - rewrite Hacts. apply list_elem_of_In, in_map, list_elem_of_In.
    apply query_incident_actions_elem. by split.
  - by rewrite Hinc.
  - by rewrite Hinc.
Qed.

Lemma create_incident_action_logged_witness :
  ∃ s1 action p,
    create_incident_action Sample.store2 "i-1" None "containment" "host isolated" None
    = Ok (s1, action)
    ∧ length (incident_actions s1) = 2
    ∧ build_incident_packet s1 "i-1" = Ok p
    ∧ packet_action action ∈ Packet.actions p.
Proof.
  destruct (create_incident_action_logged Sample.store2 "i-1" None "containment"
              "host isolated" None Sample.incident1 eq_refl)
    as (s1 & action & p & Hcreate & _ & Hlog & _ & _ & Hbuild & Hin & _).
  exists s1, action, p. split_and!; [done | | done | done].
  rewrite Hlog, length_app. reflexivity.
Defined.

Lemma find_alert_touch (s : Store) (incs : list Incident.t) (links : list IncidentAlert.t)
    (acts : list IncidentAction.t) (alert_id : string) :
  find_alert (set_incident_tables s incs links acts) alert_id = find_alert s alert_id.
Proof. done. Qed.

(** Property X8. Once an alert is linked to an incident, by this call or an earlier
    one, the packet of the incident lists the alert and carries its
    timeline entry; once an alert is deleted no packet lists it. *)
Theorem linked_alert_in_packet (s s1 : Store) (incident_id alert_id status : string) :
  add_alert_to_incident s incident_id alert_id = Ok (s1, status) →
  (∃ a p, find_alert s alert_id = Some a
          ∧ build_incident_packet s1 incident_id = Ok p
          ∧ packet_alert a ∈ Packet.alerts p
          ∧ alert_entry a ∈ Packet.timeline p)
  ∧ (∀ s2 status2 other p,
       delete_alert s1 alert_id = Ok (s2, status2) →
       build_incident_packet s2 other = Ok p →
       ∀ x, x ∈ Packet.alerts p → Packet.alert_id x ≠ alert_id).
Proof.
  intros Hadd. split.
  - unfold add_alert_to_incident in Hadd.
    destruct (find_incident s incident_id) as [inc|] eqn:Hinc; [|done].
    destruct (find_alert s alert_id) as [a|] eqn:Ha; [|done].
    pose proof (find_alert_Some _ _ _ Ha) as [Hain Haid].
    assert (is_Some (find_incident s1 incident_id)
            ∧ a ∈ alerts s1
            ∧ ∃ l, l ∈ incident_alerts s1 ∧ IncidentAlert.alert_id l = alert_id
                   ∧ IncidentAlert.incident_id l = incident_id) as ([inc1 Hinc1] & Hain1 & Hl).
    { destruct (find_link s incident_id alert_id) as [l|] eqn:Hlink.
      - injection Hadd as <- _. split_and!; [eauto | done |].
        apply (first_filter_Some
                 (fun l => IncidentAlert.incident_id l = incident_id
                           ∧ IncidentAlert.alert_id l = alert_id)) in Hlink
          as [Hl [? ?]].
        eauto.
      - injection Hadd as <- _. split_and!.
        + unfold find_incident. simpl. unfold find_incident in Hinc.
          rewrite (touch_incident_first _ _ _ _ Hinc). eauto.
        + done.
        + exists (IncidentAlert.mk incident_id alert_id (utc_now s)).
          split; [|done]. simpl.
          apply elem_of_app. right. apply elem_of_cons. by left. }
    destruct (build_incident_packet_fields s1 incident_id _ Hinc1)
      as (p & Hbuild & Hals & _ & Htl & _).
    assert (a ∈ query_incident_alerts s1 incident_id) as Hq.
    { apply query_incident_alerts_elem. split; [done|].
      destruct Hl as (l & Hl & Hlid & Hlinc). exists l. split_and!; congruence. }
    exists a, p. split_and!; [done | done | |].
    + rewrite Hals. by apply list_elem_of_In, in_map, list_elem_of_In.
    + rewrite Htl. by apply alert_entry_in_timeline.
  - intros s2 status2 other p Hdel Hbuild x Hx Hxid.
    unfold delete_alert in Hdel.
    destruct (find_alert s1 alert_id) as [a|] eqn:Ha; [|done].
    pose proof (find_alert_Some _ _ _ Ha) as [_ Haid].
    injection Hdel as <- _.
    unfold build_incident_packet in Hbuild.
    destruct (find_incident _ other) as [inc|] eqn:Hinc; [|done].
    destruct (build_incident_packet_fields _ other _ Hinc) as (p' & Hbuild' & Hals & _).
    unfold build_incident_packet in Hbuild'. rewrite Hinc in Hbuild'.
    rewrite Hbuild in Hbuild'. injection Hbuild' as <-.
    rewrite Hals in Hx. apply list_elem_of_In, in_map_iff in Hx as (a' & <- & Ha').
    apply list_elem_of_In, query_incident_alerts_elem in Ha' as [Ha' _].
    simpl in Ha'. apply list_elem_of_filter in Ha' as [Hne _].
    simpl in Hxid. congruence.
Qed.

Lemma linked_alert_in_packet_witness :
  ∃ s1 p,
    add_alert_to_incident Sample.store3 "i-1" "a-1" = Ok (s1, "linked")
    ∧ build_incident_packet s1 "i-1" = Ok p
    ∧ packet_alert Sample.alert1 ∈ Packet.alerts p
    ∧ alert_entry Sample.alert1 ∈ Packet.timeline p.
Proof.
  eexists _. 
  destruct (linked_alert_in_packet Sample.store3 _ "i-1" "a-1" "linked" eq_refl)
    as [(a & p & Ha & Hbuild & Hin & Htl) _].
  injection Ha as <-. exists p. by split_and!.
Defined.

(** ** The packet: time window, alerts, timeline *)






Lemma timeline_entries_alert_count (evs : gmap string Event.t) (als : list Alert.t) :
  length (filter (fun e => Entry.type e = "alert") (timeline_entries evs als)) = length als
  ∧ length als ≤ length (timeline_entries evs als) ≤ 2 * length als.
Proof.
  unfold timeline_entries. induction als as [|a als [IH1 IH2]]; [simpl; split; [done | lia]|].
  assert (flat_map (fun a => alert_entry a :: companion evs a) (a :: als)
          = [alert_entry a] ++ companion evs a
            ++ flat_map (fun a => alert_entry a :: companion evs a) als) as -> by done.
  rewrite !filter_app, !length_app, filter_cons_True, filter_nil by done.
  assert (filter (fun e => Entry.type e = "alert") (companion evs a) = []
          ∧ length (companion evs a) ≤ 1) as [-> Hc].
  { unfold companion. destruct (evs !! Alert.event_id a) as [ev|];
      [|split; [done | simpl; lia]].
    destruct (Event.raw ev); (split; [done | simpl; lia]). }
  simpl. split; lia.
Qed.

(** Property X10. The alerts and actions of a packet are those of the incident, oldest
    first: every listed alert is linked and on record, every listed action
    is logged for the incident. The timeline holds one alert entry per
    listed alert and at most one event entry beside it. *)
Theorem packet_lists_ordered (s : Store) (incident_id : string) (p : Packet.t) :
  build_incident_packet s incident_id = Ok p →
  let als := query_incident_alerts s incident_id in
  let acts := query_incident_actions s incident_id in
  Packet.alerts p = List.map packet_alert als
  ∧ Packet.actions p = List.map packet_action acts
  ∧ StronglySorted (fun a b => DT.leb (Alert.created_at a) (Alert.created_at b) = true) als
  ∧ StronglySorted
      (fun a b => DT.leb (IncidentAction.created_at a) (IncidentAction.created_at b) = true)
      acts
  ∧ (∀ a, a ∈ als ↔
          a ∈ alerts s ∧ ∃ l, l ∈ incident_alerts s
                              ∧ IncidentAlert.alert_id l = Alert.id a
                              ∧ IncidentAlert.incident_id l = incident_id)
  ∧ acts ≡ₚ filter (fun act => IncidentAction.incident_id act = incident_id)
              (incident_actions s)
  ∧ length (filter (fun e => Entry.type e = "alert") (Packet.timeline p))
    = length (Packet.alerts p)
  ∧ length (Packet.alerts p) ≤ length (Packet.timeline p) ≤ 2 * length (Packet.alerts p).
Proof.
  intros Hbuild als acts.
  assert (∃ inc, find_incident s incident_id = Some inc) as [inc Hinc].
  { unfold build_incident_packet in Hbuild.
    destruct (find_incident s incident_id); [eauto | done]. }
  destruct (build_incident_packet_fields s incident_id inc Hinc)
    as (p' & Hbuild' & Hals & Hacts & Htl & _).
  rewrite Hbuild in Hbuild'. injection Hbuild' as <-.
  fold als in Hals, Htl. fold acts in Hacts.
  destruct (timeline_entries_alert_count (fetch_events s als) als) as [Hcount Hlen].
  split_and!.
  - done.
  - done.
  - apply (sort_by_sorted (fun a b => DT.leb (Alert.created_at a) (Alert.created_at b))).
    + intros a b. apply dt_leb_total.
    + intros a b c. apply dt_leb_trans.
  - apply (sort_by_sorted
             (fun a b => DT.leb (IncidentAction.created_at a) (IncidentAction.created_at b))).
    + intros a b. apply dt_leb_total.
    + intros a b c. apply dt_leb_trans.
  - apply query_incident_alerts_elem.
  - apply sort_by_perm.
  - rewrite Htl, Hals, length_map. unfold sort_timeline.
    by rewrite sort_by_perm.
  - rewrite Htl, Hals, length_map. unfold sort_timeline.
    rewrite sort_by_perm. lia.
  - rewrite Htl, Hals, length_map. unfold sort_timeline.
    rewrite sort_by_perm. lia.
Qed.

Lemma packet_lists_ordered_witness :
  ∃ p, build_incident_packet Sample.store2 "i-1" = Ok p
       ∧ length (Packet.alerts p) = 2
       ∧ length (filter (fun e => Entry.type e = "alert") (Packet.timeline p)) = 2.
Proof.
  assert (∃ p, build_incident_packet Sample.store2 "i-1" = Ok p) as [p Hp]
    by (eexists; reflexivity).
  destruct (packet_lists_ordered Sample.store2 "i-1" p Hp)
    as (Hals & _ & _ & _ & _ & _ & Hcount & _).
  exists p. split; [done|]. rewrite Hcount, Hals, length_map. split; reflexivity.
Defined.

(** ** Summaries and addresses of an event *)

Lemma take_length (n : nat) (s : string) : String.length (Py.take n s) ≤ n.
Proof.
  revert s. induction n as [|n IH]; intros [|c s]; simpl; try lia.
  specialize (IH s). lia.
Qed.

Lemma first_text_None (raw : list (string * json)) (keys : list string) :
  (∀ k v, k ∈ keys → assoc_get k raw = Some (JStr v) → Py.strip v = EmptyString) →
  first_text raw keys = None.
Proof.
  induction keys as [|k keys IH]; intros Hblank; cbn [first_text]; [done|].
  assert (first_text raw keys = None) as Hrest.
  { apply IH. intros k' v Hk'. apply Hblank, elem_of_cons. by right. }
  destruct (assoc_get k raw) as [[| | | |v| |]|] eqn:Hget; try done.
  rewrite (Hblank k v); [done | apply elem_of_cons; by left | done].
Qed.

Lemma first_text_first (raw : list (string * json)) (pre post : list string)
    (k v : string) :
  (∀ k' v', k' ∈ pre → assoc_get k' raw = Some (JStr v') → Py.strip v' = EmptyString) →
  assoc_get k raw = Some (JStr v) → Py.strip v ≠ EmptyString →
  first_text raw (pre ++ k :: post) = Some (Py.take 220 (Py.strip v)).
Proof.
  intros Hblank Hget Hv. induction pre as [|k0 pre IH]; cbn [first_text app].
  - rewrite Hget. apply truthy_iff in Hv. by rewrite Hv.
  - assert (first_text raw (pre ++ k :: post) = Some (Py.take 220 (Py.strip v))) as Hrest.
    { apply IH. intros k' v' Hk'. apply Hblank, elem_of_cons. by right. }
    destruct (assoc_get k0 raw) as [[| | | |v0| |]|] eqn:Hget0; try done.
    rewrite (Hblank k0 v0); [done | apply elem_of_cons; by left | done].
Qed.

Lemma first_text_length (raw : list (string * json)) (keys : list string)
    (text : string) :
  first_text raw keys = Some text → String.length text ≤ 220.
Proof.
  induction keys as [|k keys IH]; cbn [first_text]; [done|].
  destruct (assoc_get k raw) as [[| | | |v| |]|]; try done.
  destruct (Py.truthy (Py.strip v)); [|done].
  intros Heq. assert (text = Py.take 220 (Py.strip v)) as -> by congruence.
  apply take_length.
Qed.

(** Property X11. The summary of an event never exceeds 220 characters. It is the
    stripped text under the first of the keys message, summary, event,
    msg, log, description that holds a string which is not blank, cut to
    220 characters; when no such key exists it is the start of the JSON
    text of the payload. *)
Theorem event_summary_spec (raw : list (string * json)) :
  String.length (_event_summary raw) ≤ 220
  ∧ (∀ pre k post v,
       summary_keys = pre ++ k :: post →
       (∀ k' v', k' ∈ pre → assoc_get k' raw = Some (JStr v') →
                 Py.strip v' = EmptyString) →
       assoc_get k raw = Some (JStr v) → Py.strip v ≠ EmptyString →
       _event_summary raw = Py.take 220 (Py.strip v))
  ∧ ((∀ k v, k ∈ summary_keys → assoc_get k raw = Some (JStr v) →
             Py.strip v = EmptyString) →
     _event_summary raw = Py.take 220 (json_dumps (JDict raw))).
Proof.
  split_and!.
  - unfold _event_summary.
    destruct (first_text raw summary_keys) as [text|] eqn:Htext; [|apply take_length].
    by apply (first_text_length raw summary_keys).
  - intros pre k post v Hkeys Hblank Hget Hv. unfold _event_summary.
    by rewrite Hkeys, (first_text_first raw pre post k v).
  - intros Hblank. unfold _event_summary. by rewrite first_text_None.
Qed.

(** A payload whose message is blank and whose event text is not. *)
Lemma event_summary_spec_witness :
  _event_summary [("message", JStr "   "); ("event", JStr " ConsoleLogin ")]
  = "ConsoleLogin".
Proof.
  destruct (event_summary_spec
              [("message", JStr "   "); ("event", JStr " ConsoleLogin ")])
    as (_ & Hfirst & _).
  rewrite (Hfirst ["message"; "summary"] "event" ["msg"; "log"; "description"]
             " ConsoleLogin "); [reflexivity | reflexivity | | reflexivity | done].
  intros k' v' [->|[->|?%elem_of_nil]%elem_of_cons]%elem_of_cons; [|done..].
  by intros [= <-].
Defined.

(** Property X12. The addresses read from a payload: no address twice, none empty, and
    exactly the stripped strings that are not blank and sit under one of
    the eight address keys, directly or as an item of a list there, in the
    order in which the keys and the items yield them first. *)
Theorem extract_ips_spec (raw : list (string * json)) :
  NoDup (_extract_ips raw)
  ∧ (∀ ip, ip ∈ _extract_ips raw ↔
           ∃ k s, k ∈ ip_keys ∧ ip = Py.strip s ∧ ip ≠ EmptyString
                  ∧ (assoc_get k raw = Some (JStr s)
                     ∨ ∃ items, assoc_get k raw = Some (JList items) ∧ JStr s ∈ items))
  ∧ in_first_seen_order (flat_map (fun k => ips_of_value (assoc_get k raw)) ip_keys)
      (_extract_ips raw).
Proof.
  set (ips := flat_map (fun k => ips_of_value (assoc_get k raw)) ip_keys).
  assert (∀ ip, ip ∈ ips ↔
                ∃ k s, k ∈ ip_keys ∧ ip = Py.strip s ∧ ip ≠ EmptyString
                       ∧ (assoc_get k raw = Some (JStr s)
                          ∨ ∃ items, assoc_get k raw = Some (JList items)
                                     ∧ JStr s ∈ items)) as Hips.
  { intros ip. unfold ips. rewrite list_elem_of_In, in_flat_map. split.
    - intros (k & Hk & Hip). apply list_elem_of_In, ips_of_value_elem in Hip
        as (s & ? & ? & ?).
      exists k, s. split_and!; [by apply list_elem_of_In | done..].
    - intros (k & s & Hk & ? & ? & ?). exists k. split; [by apply list_elem_of_In|].
      apply list_elem_of_In, ips_of_value_elem. eauto. }
  assert (_extract_ips raw = _uniq ips) as ->.
  { unfold _extract_ips, _uniq. fold ips. apply dedupe_loop_uniq_loop.
    apply Forall_forall. intros ip (k & s & _ & _ & Hne & _)%Hips.
    by apply truthy_iff. }
  destruct (uniq_in_first_seen_order ips) as (Hnd & Helem & Horder).
  split_and!; [done | | by split_and!].
  intros ip. rewrite Helem, Hips. split; [by intros [? _]|].
  intros (k & s & Hk & Hip & Hne & Hsrc). split; [eauto 10 | done].
Qed.

(** An address given twice, once in a list. *)
Lemma extract_ips_spec_witness :
  _extract_ips [("src_ip", JStr " 10.0.0.7 ");
                ("ip", JList [JStr "10.0.0.8"; JInt 4; JStr "10.0.0.7"; JStr " "])]
  = ["10.0.0.7"; "10.0.0.8"]
  ∧ NoDup (_extract_ips
             [("src_ip", JStr " 10.0.0.7 ");
              ("ip", JList [JStr "10.0.0.8"; JInt 4; JStr "10.0.0.7"; JStr " "])]).
Proof.
  split; [reflexivity|].
  apply (extract_ips_spec
           [("src_ip", JStr " 10.0.0.7 ");
            ("ip", JList [JStr "10.0.0.8"; JInt 4; JStr "10.0.0.7"; JStr " "])]).
Defined.

(** ** Evidence records and the exported report *)

(** The packet is read from the incidents, the alerts, the links, the
    actions and the events only. *)
Lemma build_incident_packet_frame (s s' : Store) (incident_id : string) :
  incidents s' = incidents s → alerts s' = alerts s →
  incident_alerts s' = incident_alerts s → incident_actions s' = incident_actions s →
  events s' = events s →
  build_incident_packet s' incident_id = build_incident_packet s incident_id.
Proof.
  intros Hi Ha Hl Hact He.
  unfold build_incident_packet, find_incident, query_incident_alerts,
    query_incident_actions, fetch_events.
  by rewrite Hi, Ha, Hl, Hact, He.
Qed.

Lemma join_occurs (sep : string) (parts : list string) (x : string) :
  x ∈ parts → occurs_in x (Py.join sep parts).
Proof.
  induction parts as [|p rest IH]; [by intros ?%elem_of_nil|].
  intros [->|Hx]%elem_of_cons.
  - destruct rest as [|q rest]; cbn [Py.join].
    + exists EmptyString, EmptyString. by rewrite append_nil_l, append_nil_r.
    + exists EmptyString, (sep +:+ Py.join sep (q :: rest)). by rewrite append_nil_l.
  - destruct (IH Hx) as (before & after & Hjoin).
    destruct rest as [|q rest]; [by apply elem_of_nil in Hx|].
    cbn [Py.join]. cbn [Py.join] in Hjoin. rewrite Hjoin.
    exists (p +:+ sep +:+ before), after. by rewrite !append_assoc.
Qed.

Lemma query_evidence_elem (s : Store) (incident_id : string) (e : EvidenceFile.t) :
  e ∈ query_evidence s incident_id ↔
  e ∈ evidence_files s ∧ EvidenceFile.incident_id e = incident_id.
Proof.
  unfold query_evidence. rewrite sort_by_perm, list_elem_of_filter. tauto.
Qed.

Lemma evidence_of_elem (s : Store) (incident_id sha : string) (e : EvidenceFile.t) :
  e ∈ evidence_of s incident_id sha ↔
  e ∈ evidence_files s ∧ EvidenceFile.incident_id e = incident_id
  ∧ EvidenceFile.filename e = evidence_filename incident_id
  ∧ EvidenceFile.sha256 e = sha.
Proof. unfold evidence_of. rewrite list_elem_of_filter. tauto. Qed.

Section EvidenceMore.
Variable sha256_hex : string → string.

Lemma write_evidence_tables (s : Store) (incident_id : string) (packet : json) :
  let s1 := (write_packet_evidence sha256_hex s incident_id packet).1 in
  rules s1 = rules s ∧ events s1 = events s ∧ alerts s1 = alerts s
  ∧ incidents s1 = incidents s ∧ incident_alerts s1 = incident_alerts s
  ∧ incident_actions s1 = incident_actions s ∧ clock s1 = clock s
  ∧ files s1 = <[evidence_filename incident_id := packet_payload packet]> (files s).
Proof.
  unfold write_packet_evidence. cbn [fst].
  by destruct (existing_evidence s incident_id _).
Qed.

Lemma write_evidence_recorded (s : Store) (incident_id : string) (packet : json) :
  ∃ e, e ∈ evidence_of (write_packet_evidence sha256_hex s incident_id packet).1
             incident_id (sha256_hex (packet_payload packet)).
Proof.
  rewrite write_evidence_same.
  destruct (evidence_of s incident_id _) as [|e rows]; eexists; apply elem_of_cons; by left.
Qed.

(** Property X13. What one call of the evidence writer leaves behind: the file of the
    incident holds the bytes of the packet and no other file moves; only
    the evidence table changes; the list returned is made of the records
    of this incident, newest first, and names a record with the digest of
    the bytes written; and when no such record stood before, exactly one
    is added, with the length of these bytes as its size. *)
Theorem evidence_write_manifest (s : Store) (incident_id : string) (packet : json) :
  let r := write_packet_evidence sha256_hex s incident_id packet in
  let payload := packet_payload packet in
  files r.1 !! evidence_filename incident_id = Some payload
  ∧ (∀ path, path ≠ evidence_filename incident_id → files r.1 !! path = files s !! path)
  ∧ (rules r.1 = rules s ∧ events r.1 = events s ∧ alerts r.1 = alerts s
     ∧ incidents r.1 = incidents s ∧ incident_alerts r.1 = incident_alerts s
     ∧ incident_actions r.1 = incident_actions s)
  ∧ (∀ e, e ∈ r.2 ↔ e ∈ evidence_files r.1 ∧ EvidenceFile.incident_id e = incident_id)
  ∧ StronglySorted
      (fun a b => DT.leb (EvidenceFile.created_at b) (EvidenceFile.created_at a) = true) r.2
  ∧ (∃ e, e ∈ r.2 ∧ EvidenceFile.filename e = evidence_filename incident_id
          ∧ EvidenceFile.sha256 e = sha256_hex payload)
  ∧ (existing_evidence s incident_id (sha256_hex payload) = None →
     ∃ e, evidence_files r.1 = evidence_files s ++ [e]
          ∧ EvidenceFile.size_bytes e = String.length payload
          ∧ EvidenceFile.content_type e = "application/json"
          ∧ EvidenceFile.sha256 e = sha256_hex payload
          ∧ EvidenceFile.id e = uuid4 s)
  ∧ (is_Some (existing_evidence s incident_id (sha256_hex payload)) →
     evidence_files r.1 = evidence_files s).
Proof.
  intros r payload.
  destruct (write_evidence_tables s incident_id packet)
    as (Hr & He & Ha & Hi & Hl & Hact & _ & Hfiles).
  fold r in Hr, He, Ha, Hi, Hl, Hact, Hfiles.
  split_and!.
  - rewrite Hfiles. apply lookup_insert_eq.
  - intros path Hpath. rewrite Hfiles. by apply lookup_insert_ne.
  - done.
  - done.
  - done.
  - done.
  - done.
  - done.
  - intros e. apply query_evidence_elem.
  - apply (sort_by_sorted
             (fun a b => DT.leb (EvidenceFile.created_at b) (EvidenceFile.created_at a))).
    + intros a b. apply dt_leb_total.
    + intros a b c Hab Hbc. by apply (dt_leb_trans _ (EvidenceFile.created_at b)).
  - destruct (write_evidence_recorded s incident_id packet) as [e He'].
    apply evidence_of_elem in He' as (Hin & Hid & Hname & Hsha).
    exists e. split_and!; [|done..]. by apply query_evidence_elem.
  - intros Hnone. unfold r. rewrite write_evidence_files.
    rewrite existing_evidence_of in Hnone.
    destruct (evidence_of s incident_id _); [|done]. eauto 10.
  - intros [e Hsome]. unfold r. rewrite write_evidence_files.
    rewrite existing_evidence_of in Hsome.
    by destruct (evidence_of s incident_id _).
Qed.

(** Property X14. An evidence record goes stale: once a packet with another digest has
    been recorded for the incident, the record of the first packet is
    still listed under the one file name of the incident, while the file
    holds the bytes of the second packet, whose digest is not the one on
    the record. *)
Theorem evidence_record_goes_stale (s : Store) (incident_id : string) (p1 p2 : json) :
  sha256_hex (packet_payload p1) ≠ sha256_hex (packet_payload p2) →
  let r1 := write_packet_evidence sha256_hex s incident_id p1 in
  let r2 := write_packet_evidence sha256_hex r1.1 incident_id p2 in
  ∃ e, e ∈ r2.2
       ∧ EvidenceFile.sha256 e = sha256_hex (packet_payload p1)
       ∧ files r2.1 !! EvidenceFile.filename e = Some (packet_payload p2)
       ∧ sha256_hex (packet_payload p2) ≠ EvidenceFile.sha256 e.
Proof.
  intros Hne r1 r2.
  destruct (write_evidence_recorded s incident_id p1) as [e He]. fold r1 in He.
  assert (e ∈ evidence_of r2.1 incident_id (sha256_hex (packet_payload p1))) as He2.
  { unfold r2. by rewrite write_evidence_other. }
  apply evidence_of_elem in He2 as (Hin & Hid & Hname & Hsha).
  exists e. split_and!.
  - by apply query_evidence_elem.
  - done.
  - rewrite Hname.
    destruct (write_evidence_tables r1.1 incident_id p2)
      as (_ & _ & _ & _ & _ & _ & _ & Hfiles).
    unfold r2. rewrite Hfiles. apply lookup_insert_eq.
  - by rewrite Hsha.
Qed.

End EvidenceMore.

(** Two sample packets under the stand-in digest: the record of the first
    outlives its bytes. *)
Lemma evidence_record_goes_stale_witness :
  let r1 := write_packet_evidence Sample.toy_digest Sample.store3 "i-1" Sample.packet_a in
  let r2 := write_packet_evidence Sample.toy_digest r1.1 "i-1" Sample.packet_b in
  ∃ e, e ∈ r2.2
       ∧ files r2.1 !! EvidenceFile.filename e = Some (packet_payload Sample.packet_b)
       ∧ Sample.toy_digest (packet_payload Sample.packet_b) ≠ EvidenceFile.sha256 e.
Proof.
  intros r1 r2.
  destruct (evidence_record_goes_stale Sample.toy_digest Sample.store3 "i-1"
              Sample.packet_a Sample.packet_b)
    as (e & He & _ & Hfile & Hsha); [vm_compute; discriminate|].
  exists e. by split_and!.
Defined.

(** ** The Markdown export *)

Section ExportProofs.
Variable sha256_hex : string → string.
Variable str_upper : string → string.

(** Recording again the packet whose record and bytes are in place leaves
    the session as it is. *)
Lemma write_evidence_again (s : Store) (incident_id : string) (packet : json) :
  files s !! evidence_filename incident_id = Some (packet_payload packet) →
  is_Some (existing_evidence s incident_id (sha256_hex (packet_payload packet))) →
  write_packet_evidence sha256_hex s incident_id packet = (s, query_evidence s incident_id).
Proof.
  intros Hfile [e He]. unfold write_packet_evidence. rewrite He.
  rewrite (insert_id _ _ _ Hfile). by destruct s.
Qed.

Lemma render_markdown_lists_evidence (p : Packet.t) (evidence : list EvidenceFile.t)
    (e : EvidenceFile.t) :
  e ∈ evidence → occurs_in (markdown_evidence e) (render_markdown str_upper p evidence).
Proof.
  intros He. unfold render_markdown. apply join_occurs.
  rewrite !elem_of_app. do 4 right. unfold markdown_evidence_section.
  rewrite !elem_of_app. right; left.
  destruct evidence as [|e0 evidence]; [by apply elem_of_nil in He|].
  apply list_elem_of_In, in_map, list_elem_of_In, He.
Qed.

(** Property X15. The Markdown export of an incident that is not on record raises the
    ValueError of the packet builder, not an HTTP error. For an incident
    on record it records the packet as evidence and returns a report that
    lists, among the evidence, a record of this incident carrying the
    digest of the bytes now in the file; exporting again straight away
    changes nothing and returns the same report. *)
Theorem export_markdown_spec (s : Store) (incident_id : string) :
  (find_incident s incident_id = None →
   export_markdown sha256_hex str_upper s incident_id
   = Raise (ValueError "incident not found"))
  ∧ (is_Some (find_incident s incident_id) →
     ∃ p s1 report,
       build_incident_packet s incident_id = Ok p
       ∧ export_markdown sha256_hex str_upper s incident_id = Ok (s1, report)
       ∧ s1 = (write_packet_evidence sha256_hex s incident_id (packet_json p)).1
       ∧ (∃ e, e ∈ evidence_files s1 ∧ EvidenceFile.incident_id e = incident_id
               ∧ EvidenceFile.sha256 e = sha256_hex (packet_payload (packet_json p))
               ∧ files s1 !! EvidenceFile.filename e
                 = Some (packet_payload (packet_json p))
               ∧ occurs_in (markdown_evidence e) report)
       ∧ export_markdown sha256_hex str_upper s1 incident_id = Ok (s1, report)).
Proof.
  split.
  { intros Hnone. unfold export_markdown, build_incident_packet. by rewrite Hnone. }
  intros [inc Hinc].
  destruct (build_incident_packet_fields s incident_id inc Hinc) as (p & Hp & _).
  set (r := write_packet_evidence sha256_hex s incident_id (packet_json p)).
  destruct (write_evidence_tables sha256_hex s incident_id (packet_json p))
    as (_ & Hev & Hal & Hincs & Hl & Hact & _ & Hfiles).
  fold r in Hev, Hal, Hincs, Hl, Hact, Hfiles.
  destruct (write_evidence_recorded sha256_hex s incident_id (packet_json p)) as [e He].
  fold r in He.
  assert (files r.1 !! evidence_filename incident_id
          = Some (packet_payload (packet_json p))) as Hfile.
  { rewrite Hfiles. apply lookup_insert_eq. }
  assert (export_markdown sha256_hex str_upper s incident_id
          = Ok (r.1, render_markdown str_upper p r.2)) as Hexport.
  { unfold export_markdown. by rewrite Hp. }
  exists p, r.1, (render_markdown str_upper p r.2). split_and!; [done..| |].
  - pose proof He as He'.
    apply evidence_of_elem in He' as (Hin & Hid & Hname & Hsha).
    exists e. split_and!; [done | done | done | by rewrite Hname |].
    apply render_markdown_lists_evidence.
    change (e ∈ query_evidence r.1 incident_id). by apply query_evidence_elem.
  - unfold export_markdown.
    rewrite (build_incident_packet_frame s r.1) by done. rewrite Hp. cbn [exc_bind].
    rewrite write_evidence_again; [done | done |].
    rewrite existing_evidence_of.
    destruct (evidence_of r.1 incident_id _); [by apply elem_of_nil in He | done].
Qed.

End ExportProofs.

(** The export of the incident of the sample store, under the stand-in
    digest: a record is added and listed, and a second export adds none. *)
Lemma export_markdown_spec_witness :
  ∃ s1 report,
    export_markdown Sample.toy_digest Sample2.ascii_upper Sample.store2 "i-1"
    = Ok (s1, report)
    ∧ export_markdown Sample.toy_digest Sample2.ascii_upper s1 "i-1" = Ok (s1, report)
    ∧ export_markdown Sample.toy_digest Sample2.ascii_upper Sample.store2 "i-9"
      = Raise (ValueError "incident not found").
Proof.
  destruct (export_markdown_spec Sample.toy_digest Sample2.ascii_upper Sample.store2 "i-1")
    as [_ Hsome].
  destruct Hsome as (p & s1 & report & _ & Hexport & _ & _ & Hagain);
    [by eexists|].
  exists s1, report. split_and!; [done | done |].
  by apply (export_markdown_spec Sample.toy_digest Sample2.ascii_upper Sample.store2 "i-9").
Defined.

(** ** The API key *)

(** Property X16. A request passes the key check exactly when a key is configured, is
    not empty, and is the key the request sends. A missing or empty
    configured key gives status 500 whatever the request sends; every
    other refusal is a 401. *)
Theorem api_key_check (expected x_api_key : option string) :
  (require_admin_api_key expected x_api_key = Ok tt ↔
   ∃ k, k ≠ EmptyString ∧ expected = Some k ∧ x_api_key = Some k)
  ∧ (require_admin_api_key expected x_api_key
     = Raise (HTTPException 500 "ADMIN_API_KEY is not set on the server") ↔
     expected = None ∨ expected = Some EmptyString)
  ∧ (require_admin_api_key expected x_api_key = Raise (HTTPException 401 "Invalid API key") ↔
     ∃ k, k ≠ EmptyString ∧ expected = Some k ∧ x_api_key ≠ Some k).
Proof.
  unfold require_admin_api_key.
  destruct expected as [[|c k]|]; simpl.
  - split_and!; split; try done; [intros (k & ? & [= <-] & _) | auto | intros (k & ? & [= <-] & _)];
      done.
  - destruct x_api_key as [[|c' k']|]; simpl.
    + split_and!; split; try done.
      * intros (k0 & _ & [= <-] & ?). done.
      * intros [?|?]; done.
      * intros _. exists (String c k). done.
    + case_bool_decide as Heq; simpl.
      * injection Heq as -> ->. split_and!; split; try done.
        -- intros _. by exists (String c k).
        -- intros [?|?]; done.
        -- intros (k0 & _ & [= <-] & Hne). done.
      * split_and!; split; try done.
        -- intros (k0 & _ & [= <-] & ?). done.
        -- intros [?|?]; done.
        -- intros _. exists (String c k). done.
    + split_and!; split; try done.
      * intros (k0 & _ & [= <-] & ?). done.
      * intros [?|?]; done.
      * intros _. exists (String c k). done.
  - split_and!; split; try done; [intros (k & ? & ? & _) | auto | intros (k & ? & ? & _)];
      done.
Qed.

(** ** The list endpoints *)

Lemma newest_rows {A} (key : A → DT.t) (l : list A) (limit : nat) :
  let rows := take limit (sort_by (fun a b => DT.leb (key b) (key a)) l) in
  length rows = limit `min` length l
  ∧ rows ⊆+ l
  ∧ StronglySorted (fun a b => DT.leb (key b) (key a) = true) rows
  ∧ (∀ a b, a ∈ rows → b ∈ l → b ∉ rows → DT.leb (key b) (key a) = true).
Proof.
  intros rows.
  assert (StronglySorted (fun a b => DT.leb (key b) (key a) = true)
            (sort_by (fun a b => DT.leb (key b) (key a)) l)) as Hsorted.
  { apply (sort_by_sorted (fun a b => DT.leb (key b) (key a))).
    - intros a b. apply dt_leb_total.
    - intros a b c Hab Hbc. by apply (dt_leb_trans _ (key b)). }
  split_and!.
  - unfold rows. by rewrite length_take, sort_by_perm.
  - unfold rows. etrans; [apply sublist_submseteq, sublist_take|].
    by rewrite sort_by_perm.
  - unfold rows. clear rows. revert limit.
    induction Hsorted as [|x l' Hs IH Hall]; intros [|limit]; simpl; try constructor.
    + apply IH.
    + apply Forall_forall. intros y Hy%subseteq_take.
      rewrite Forall_forall in Hall. by apply Hall.
  - intros a b Ha Hb Hnb. unfold rows in Ha, Hnb.
    apply list_elem_of_lookup_1 in Ha as [i Hi].
    rewrite <- (sort_by_perm (fun a b => DT.leb (key b) (key a))) in Hb.
    apply list_elem_of_lookup_1 in Hb as [j Hj].
    destruct (decide (j < limit)) as [Hlt|Hge].
    { exfalso. apply Hnb. apply list_elem_of_lookup_2 with j.
      by rewrite lookup_take_lt. }
    assert (i < limit) as Hilt.
    { apply lookup_lt_Some in Hi. rewrite length_take in Hi. lia. }
    rewrite lookup_take_lt in Hi by done.
    apply (StronglySorted_lookup _ _ i j a b Hsorted Hi Hj). lia.
Qed.

(** Property X17. The lists of alerts, incidents and events hold as many rows as the
    limit allows, each a row of the table, newest first, and no row left
    out is newer than a row listed. *)
Theorem lists_newest_first (s : Store) (limit : nat) :
  (length (list_alerts s limit) = limit `min` length (alerts s)
   ∧ list_alerts s limit ⊆+ alerts s
   ∧ StronglySorted (fun a b => DT.leb (Alert.created_at b) (Alert.created_at a) = true)
       (list_alerts s limit)
   ∧ (∀ a b, a ∈ list_alerts s limit → b ∈ alerts s → b ∉ list_alerts s limit →
             DT.leb (Alert.created_at b) (Alert.created_at a) = true))
  ∧ (length (list_incidents s limit) = limit `min` length (incidents s)
     ∧ list_incidents s limit ⊆+ incidents s
     ∧ StronglySorted
         (fun a b => DT.leb (Incident.created_at b) (Incident.created_at a) = true)
         (list_incidents s limit)
     ∧ (∀ a b, a ∈ list_incidents s limit → b ∈ incidents s →
               b ∉ list_incidents s limit →
               DT.leb (Incident.created_at b) (Incident.created_at a) = true))
  ∧ (length (list_events s limit) = limit `min` length (events s)
     ∧ list_events s limit ⊆+ events s
     ∧ StronglySorted
         (fun a b => DT.leb (Event.received_at b) (Event.received_at a) = true)
         (list_events s limit)
     ∧ (∀ a b, a ∈ list_events s limit → b ∈ events s → b ∉ list_events s limit →
               DT.leb (Event.received_at b) (Event.received_at a) = true)).
Proof.
  split_and!;
    first [ apply (newest_rows Alert.created_at (alerts s) limit)
          | apply (newest_rows Incident.created_at (incidents s) limit)
          | apply (newest_rows Event.received_at (events s) limit) ].
Qed.

(** ** Deleting a rule *)

Lemma find_rule_Some (s : Store) (rule_id : string) (r : Rule.t) :
  find_rule s rule_id = Some r → r ∈ rules s ∧ Rule.id r = rule_id.
Proof. apply (first_filter_Some (fun r => Rule.id r = rule_id)). Qed.

Lemma find_rule_None (s : Store) (rule_id : string) :
  find_rule s rule_id = None ↔ ∀ r, r ∈ rules s → Rule.id r ≠ rule_id.
Proof. apply (first_filter_None (fun r => Rule.id r = rule_id)). Qed.

(** A detection run on a session in which no rule has the id adds no
    alert under that id. *)
Lemma run_without_rule (st : Store) (rule_id : string) (limit : nat) :
  (∀ r, r ∈ rules st → Rule.id r ≠ rule_id) →
  ∃ st' created,
    run_detections st limit = Ok (st', created)
    ∧ rules st' = rules st
    ∧ ∀ a, a ∈ alerts st' → Alert.rule_id a = rule_id → a ∈ alerts st.
Proof.
  intros Hnone.
  destruct (run_detections_spec st limit) as (st' & created & Hrun & _).
  exists st', created. split; [done|].
  destruct (run_detections_detect_inv _ _ _ _ Hrun)
    as ((Hrules & _) & _ & extra & Hal & _ & Hall).
  cbn [fst] in Hal, Hrules. split; [done|].
  intros a Ha Ha_id. rewrite Hal in Ha.
  apply elem_of_app in Ha as [Ha|Ha]; [done|]. exfalso.
  rewrite Forall_forall in Hall.
  destruct (Hall a Ha) as (r & ev & Hr & _ & _ & _ & Hsnap & _).
  rewrite query_rules_perm in Hr. apply (Hnone r Hr). by rewrite <- Hsnap.
Qed.

Section RuleProofs.
Variable sha256_hex : string → string.
Variable str_upper : string → string.

(** No request stores a rule, and only a detection run adds alerts. *)
Lemma handle_rules_alerts (req : request) (st st' : Store) (rule_id : string) :
  handle sha256_hex str_upper req st = Ok st' →
  (∀ r, r ∈ rules st → Rule.id r ≠ rule_id) →
  (∀ r, r ∈ rules st' → Rule.id r ≠ rule_id)
  ∧ (∀ a, a ∈ alerts st' → Alert.rule_id a = rule_id → a ∈ alerts st).
Proof.
  intros Hhandle Hnone. destruct req; unfold handle in Hhandle.
  - unfold run in Hhandle.
    destruct (run_without_rule st rule_id 500 Hnone) as (s1 & n & Hrun & Hrules & Hal).
    rewrite Hrun in Hhandle. cbn [exc_bind fst] in Hhandle.
    assert (st' = s1) as -> by congruence. by rewrite Hrules.
  - assert (st' = (ingest_event st payload source host user).1) as -> by congruence.
    by unfold ingest_event.
  - unfold delete_rule in Hhandle. destruct (find_rule st rule_id0); [|done].
    cbn [exc_bind fst] in Hhandle.
    match type of Hhandle with Ok ?x = Ok _ => assert (st' = x) as -> by congruence end.
    cbn [rules alerts]. split; [|done].
    intros r [_ Hr]%list_elem_of_filter. by apply Hnone.
  - unfold delete_alert in Hhandle. destruct (find_alert st alert_id) as [a0|]; [|done].
    cbn [exc_bind fst] in Hhandle.
    match type of Hhandle with Ok ?x = Ok _ => assert (st' = x) as -> by congruence end.
    match goal with
    | |- context [foldl ?f st ?links] =>
        destruct (delete_links_frame links st) as (Hr & _ & Hal & _)
    end.
    unfold delete_alert_row. cbn [rules alerts]. rewrite Hr, Hal. split; [done|].
    by intros a [_ Ha]%list_elem_of_filter.
  - unfold delete_incident in Hhandle.
    destruct (find_incident st incident_id) as [inc|]; [|done].
    cbn [exc_bind fst] in Hhandle.
    match type of Hhandle with Ok ?x = Ok _ => assert (st' = x) as -> by congruence end.
    unfold delete_incident_row, set_incident_tables, delete_children. cbn [rules alerts].
    match goal with
    | |- context [foldl _ (foldl ?f st ?links) ?acts] =>
        destruct (delete_actions_frame acts (foldl f st links)) as (-> & _ & -> & _);
        destruct (delete_links_frame links st) as (-> & _ & -> & _)
    end.
    done.
  - unfold add_alert_to_incident in Hhandle.
    destruct (find_incident st incident_id); [|done].
    destruct (find_alert st alert_id); [|done].
    destruct (find_link st incident_id alert_id);
      cbn [exc_bind fst] in Hhandle;
      match type of Hhandle with Ok ?x = Ok _ => assert (st' = x) as -> by congruence end;
      done.
  - unfold create_incident_action in Hhandle.
    destruct (find_incident st incident_id); [|done].
    cbn [exc_bind fst] in Hhandle.
    match type of Hhandle with Ok ?x = Ok _ => assert (st' = x) as -> by congruence end.
    done.
  - unfold close_incident in Hhandle.
    destruct (find_incident st incident_id); [|done].
    cbn [exc_bind fst] in Hhandle.
    match type of Hhandle with Ok ?x = Ok _ => assert (st' = x) as -> by congruence end.
    done.
  - unfold export_markdown in Hhandle.
    destruct (build_incident_packet st incident_id) as [p|]; [|done].
    cbn [exc_bind fst] in Hhandle.
    assert (st' = (write_packet_evidence sha256_hex st incident_id (packet_json p)).1)
      as -> by congruence.
    destruct (write_evidence_tables sha256_hex st incident_id (packet_json p))
      as (-> & _ & -> & _).
    done.
Qed.

Lemma serve_rules_alerts (reqs : list request) (st : Store) (rule_id : string) :
  (∀ r, r ∈ rules st → Rule.id r ≠ rule_id) →
  (∀ r, r ∈ rules (foldl (serve sha256_hex str_upper) st reqs) → Rule.id r ≠ rule_id)
  ∧ (∀ a, a ∈ alerts (foldl (serve sha256_hex str_upper) st reqs) →
          Alert.rule_id a = rule_id → a ∈ alerts st).
Proof.
  revert st. induction reqs as [|req reqs IH]; intros st Hnone; [done|].
  cbn [foldl]. unfold serve at 2 4.
  destruct (handle sha256_hex str_upper req st) as [st1|] eqn:Hhandle; [|by apply IH].
  destruct (handle_rules_alerts req st st1 rule_id Hhandle Hnone) as [Hnone1 Hal1].
  destruct (IH st1 Hnone1) as [Hnone2 Hal2].
  split; [done|]. intros a Ha Hid. apply Hal1; [|done]. by apply Hal2.
Qed.

(** Property X18. Deleting a rule answers 404 when no rule has the id. Otherwise the
    rule goes and every other table, the files, the clock and the counter
    of identifiers stay as they are, so the alerts the rule raised stay on
    record; and whatever requests are served afterwards, detection runs
    among them, a detection run then adds no alert under the id: an alert
    under the id is one that was on record before the deletion. No
    request served here stores a rule; in any session, as long as no rule
    has the id, a detection run adds no alert under it. *)
Theorem delete_rule_keeps_alerts (s : Store) (rule_id : string) :
  ((∀ r, r ∈ rules s → Rule.id r ≠ rule_id) →
   delete_rule s rule_id = Raise (HTTPException 404 "rule not found"))
  ∧ ((∃ r, r ∈ rules s ∧ Rule.id r = rule_id) →
     ∃ s1, delete_rule s rule_id = Ok (s1, "deleted")
           ∧ rules s1 = filter (fun r => Rule.id r ≠ rule_id) (rules s)
           ∧ alerts s1 = alerts s ∧ events s1 = events s
           ∧ incidents s1 = incidents s ∧ incident_alerts s1 = incident_alerts s
           ∧ incident_actions s1 = incident_actions s
           ∧ evidence_files s1 = evidence_files s ∧ files s1 = files s
           ∧ clock s1 = clock s ∧ uuid_counter s1 = uuid_counter s
           ∧ ∀ reqs limit, ∃ s2 created,
               run_detections (foldl (serve sha256_hex str_upper) s1 reqs) limit
               = Ok (s2, created)
               ∧ (∀ r, r ∈ rules s2 → Rule.id r ≠ rule_id)
               ∧ ∀ a, a ∈ alerts s2 → Alert.rule_id a = rule_id → a ∈ alerts s)
  ∧ (∀ st limit, (∀ r, r ∈ rules st → Rule.id r ≠ rule_id) →
                 ∃ st' created,
                   run_detections st limit = Ok (st', created)
                   ∧ ∀ a, a ∈ alerts st' → Alert.rule_id a = rule_id → a ∈ alerts st).
Proof.
  split_and!.
  { intros Hnone%find_rule_None. unfold delete_rule. by rewrite Hnone. }
  - intros Hsome.
    destruct (find_rule s rule_id) as [r|] eqn:Hfind; cycle 1.
    { destruct Hsome as (r & Hr & Hid).
      by destruct (proj1 (find_rule_None s rule_id) Hfind r Hr). }
    apply find_rule_Some in Hfind as Hr. destruct Hr as [Hr Hid].
    unfold delete_rule. rewrite Hfind. eexists. split; [reflexivity|].
    cbn [rules alerts events incidents incident_alerts incident_actions evidence_files
           files clock uuid_counter].
    rewrite Hid. split_and!; try done.
    intros reqs limit.
    match goal with |- context [foldl _ ?st reqs] => set (s1 := st) end.
    assert (∀ r', r' ∈ rules s1 → Rule.id r' ≠ rule_id) as Hnone.
    { intros r' [Hne _]%list_elem_of_filter. done. }
    destruct (serve_rules_alerts reqs s1 rule_id Hnone) as [Hnone' Hal'].
    destruct (run_without_rule _ rule_id limit Hnone') as (s2 & created & Hrun & Hrules & Hal).
    exists s2, created. split_and!; [done | by rewrite Hrules |].
    intros a Ha Ha_id. apply (Hal' a); [|done]. by apply Hal.
  - intros st limit Hnone.
    destruct (run_without_rule st rule_id limit Hnone) as (st' & created & Hrun & _ & Hal).
    by exists st', created.
Qed.

End RuleProofs.

(** The rule of the sample store that raised an alert is deleted; an
    event, a detection run and an export are served, and a run follows. *)
Lemma delete_rule_keeps_alerts_witness :
  ∃ s1, delete_rule Sample.store2 "r-root" = Ok (s1, "deleted")
        ∧ alerts s1 = alerts Sample.store2
        ∧ (∃ s2 created,
             run_detections
               (foldl (serve Sample.toy_digest Sample2.ascii_upper) s1
                  [IngestEvent [("userIdentity", JDict [("userName", JStr "root")])]
                     "aws-cloudtrail" None None;
                   RunDetections; ExportMarkdown "i-1"]) 500
             = Ok (s2, created)
             ∧ ∀ a, a ∈ alerts s2 → Alert.rule_id a = "r-root" → a ∈ alerts Sample.store2)
        ∧ delete_rule Sample.store2 "r-none"
          = Raise (HTTPException 404 "rule not found").
Proof.
  destruct (delete_rule_keeps_alerts Sample.toy_digest Sample2.ascii_upper
              Sample.store2 "r-root") as (_ & Hsome & _).
  destruct Hsome as (s1 & Hdel & _ & Hal & _ & _ & _ & _ & _ & _ & _ & _ & Hlater).
  { exists Sample.rule_root. split; [|reflexivity]. apply list_elem_of_In. by left. }
  exists s1. split_and!; [done | done | |].
  - destruct (Hlater [IngestEvent [("userIdentity", JDict [("userName", JStr "root")])]
                        "aws-cloudtrail" None None;
                      RunDetections; ExportMarkdown "i-1"] 500)
      as (s2 & created & Hrun & _ & Hkeep).
    by exists s2, created.
  - apply (delete_rule_keeps_alerts Sample.toy_digest Sample2.ascii_upper
             Sample.store2 "r-none").
    intros r Hr%list_elem_of_In. simpl in Hr. destruct Hr as [<-|[<-|[]]]; done.
Defined.

(** ** The import of a JSONL file *)

Lemma rev_app_spec (s1 s2 : string) : String.rev_app s1 s2 = String.rev s1 +:+ s2.
Proof.
  revert s2. induction s1 as [|a s1 IH]; intros s2; [by rewrite append_nil_l|].
  unfold String.rev. cbn [String.rev_app]. rewrite (IH (String a s2)), (IH (String a EmptyString)).
  by rewrite append_assoc, append_cons, append_nil_l.
Qed.

Lemma rev_cons (c : ascii) (s : string) :
  String.rev (String c s) = String.rev s +:+ String c EmptyString.
Proof. unfold String.rev at 1. cbn [String.rev_app]. apply rev_app_spec. Qed.

Lemma rev_empty (s : string) : String.rev s = EmptyString → s = EmptyString.
Proof.
  destruct s as [|c s]; [done|]. rewrite rev_cons. intros H.
  destruct (String.rev s); rewrite ?append_nil_l, ?append_cons in H; done.
Qed.

Lemma splitlines_go_line (l cur rest : string) :
  line_break_free l = true →
  splitlines_go cur false (l +:+ String newline rest)
  = (String.rev cur +:+ l) :: splitlines_go EmptyString false rest.
Proof.
  revert cur. induction l as [|c l IH]; intros cur Hfree.
  - rewrite append_nil_l, append_nil_r. cbn [splitlines_go].
    by rewrite decide_True.
  - cbn [line_break_free] in Hfree. rewrite append_cons. cbn [splitlines_go].
    destruct (decide (c = newline)); [done|].
    destruct (decide (c = carriage_return)); [done|].
    rewrite IH by done. rewrite rev_cons.
    by rewrite append_assoc, append_cons, append_nil_l.
Qed.

Lemma splitlines_go_end (l cur : string) :
  line_break_free l = true →
  splitlines_go cur false l
  = match String.rev cur +:+ l with
    | EmptyString => []
    | line => [line]
    end.
Proof.
  revert cur. induction l as [|c l IH]; intros cur Hfree.
  - rewrite append_nil_r. cbn [splitlines_go].
    destruct cur as [|c cur]; [done|].
    destruct (String.rev (String c cur)) eqn:Hrev; [|done].
    by apply rev_empty in Hrev.
  - cbn [line_break_free] in Hfree. cbn [splitlines_go].
    destruct (decide (c = newline)); [done|].
    destruct (decide (c = carriage_return)); [done|].
    rewrite IH by done. rewrite rev_cons.
    by rewrite append_assoc, append_cons, append_nil_l.
Qed.

Lemma import_events_spec (counter : nat) (now : DT.t) (source : string)
    (host user : option string) (payloads : list json) :
  let evs := import_events counter now source host user payloads in
  List.map Event.raw evs = payloads
  ∧ length evs = length payloads
  ∧ Forall (fun e => Event.source e = source ∧ Event.host e = host
                     ∧ Event.user e = user ∧ Event.received_at e = now) evs.
Proof.
  revert counter. induction payloads as [|obj rest IH]; intros counter; simpl.
  - split_and!; [done | done | constructor].
  - destruct (IH (S counter)) as (Hraw & Hlen & Hall).
    split_and!; [by f_equal | by f_equal | by constructor].
Qed.

Section ImportProofs.
Variable sha256_hex : string → string.
Variable json_loads : string → option json.

Lemma parse_lines_join (lines : list string) :
  Forall (fun l => line_break_free l = true) lines →
  parse_lines json_loads (Py.join (String newline EmptyString) lines)
  = omap (fun raw_line =>
            if Py.truthy (bytes_strip raw_line) then json_loads (bytes_strip raw_line)
            else None) lines.
Proof.
  unfold parse_lines, bytes_splitlines. cbn zeta.
  induction lines as [|l rest IH]; intros Hfree; [done|].
  apply Forall_cons in Hfree as [Hl Hrest].
  destruct rest as [|l2 rest].
  - cbn [Py.join]. rewrite splitlines_go_end by done.
    change (String.rev EmptyString) with EmptyString. rewrite append_nil_l. by destruct l.
  - cbn [Py.join]. rewrite append_cons, append_nil_l.
    rewrite splitlines_go_line by done.
    change (String.rev EmptyString) with EmptyString. rewrite append_nil_l.
    csimpl. csimpl in IH. by rewrite IH.
Qed.

(** Property X19. Importing a file made of lines joined by line feeds adds one job and
    one event per line that is not blank and that the JSON reader accepts,
    in the order of the lines, each event under the source, host and user
    of the request; the job counts these events and carries the digest of
    the whole file; alerts, rules and incidents are not touched. *)
Theorem import_jsonl_lines (jobs : list ImportJob.t) (s : Store) (lines : list string)
    (file_name : option string) (source : string) (host user : option string) :
  Forall (fun l => line_break_free l = true) lines →
  let data := Py.join (String newline EmptyString) lines in
  let payloads :=
    omap (fun raw_line =>
            if Py.truthy (bytes_strip raw_line) then json_loads (bytes_strip raw_line)
            else None) lines in
  let r := import_jsonl sha256_hex json_loads jobs s data file_name source host user in
  r.1.1 = jobs ++ [r.2]
  ∧ ImportJob.events_ingested r.2 = length payloads
  ∧ ImportJob.sha256 r.2 = sha256_hex data
  ∧ ImportJob.id r.2 = uuid4 s
  ∧ (∃ evs, events r.1.2 = events s ++ evs
            ∧ List.map Event.raw evs = payloads
            ∧ Forall (fun e => Event.source e = source ∧ Event.host e = host
                               ∧ Event.user e = user) evs)
  ∧ uuid_counter r.1.2 = S (uuid_counter s) + length payloads
  ∧ alerts r.1.2 = alerts s ∧ rules r.1.2 = rules s ∧ incidents r.1.2 = incidents s
  ∧ incident_alerts r.1.2 = incident_alerts s.
Proof.
  intros Hfree data payloads r.
  pose proof (parse_lines_join lines Hfree) as Hparse.
  fold payloads in Hparse. fold data in Hparse.
  destruct (import_events_spec (S (uuid_counter s)) (utc_now s) source host user
              (parse_lines json_loads data)) as (Hraw & Hlen & Hall).
  unfold r, import_jsonl. cbn [fst snd ImportJob.events_ingested ImportJob.sha256
    ImportJob.id events uuid_counter alerts rules incidents incident_alerts].
  rewrite Hparse in Hraw, Hlen, Hall |- *. rewrite Hlen.
  split_and!; try done.
  eexists. split; [reflexivity|]. split; [by rewrite Hraw|].
  eapply Forall_impl; [exact Hall|]. simpl. tauto.
Qed.

End ImportProofs.

(** A file of five lines, one blank and one that cannot be read. *)
Lemma import_jsonl_lines_witness :
  ImportJob.events_ingested
    (import_jsonl Sample.toy_digest Sample2.toy_loads [] Sample.store1
       (Py.join (String newline EmptyString) ["{}"; "   "; "oops"; " 1 "; EmptyString])
       None "syslog" None None).2 = 2.
Proof.
  destruct (import_jsonl_lines Sample.toy_digest Sample2.toy_loads [] Sample.store1
              ["{}"; "   "; "oops"; " 1 "; EmptyString] None "syslog" None None)
    as (_ & Hcount & _).
  - repeat constructor.
  - rewrite Hcount. reflexivity.
Defined.

(** ** Consistency of the session under the requests *)

Lemma find_incident_is_Some (s : Store) (incident_id : string) :
  is_Some (find_incident s incident_id) ↔ incident_id ∈ Incident.id <$> incidents s.
Proof.
  unfold find_incident.
  rewrite (first_filter_is_Some (fun i => Incident.id i = incident_id)), list_elem_of_fmap.
  split; intros (i & ? & ?); exists i; done.
Qed.

Lemma find_alert_is_Some (s : Store) (alert_id : string) :
  is_Some (find_alert s alert_id) ↔ alert_id ∈ Alert.id <$> alerts s.
Proof.
  unfold find_alert.
  rewrite (first_filter_is_Some (fun a => Alert.id a = alert_id)), list_elem_of_fmap.
  split; intros (a & ? & ?); exists a; done.
Qed.

Lemma consistent_alt (s : Store) :
  consistent s ↔
  NoDup (alert_key <$> alerts s)
  ∧ NoDup (link_key <$> incident_alerts s)
  ∧ (∀ l, l ∈ incident_alerts s →
          IncidentAlert.incident_id l ∈ Incident.id <$> incidents s
          ∧ IncidentAlert.alert_id l ∈ Alert.id <$> alerts s)
  ∧ (∀ act, act ∈ incident_actions s →
            IncidentAction.incident_id act ∈ Incident.id <$> incidents s)
  ∧ (∀ a, a ∈ alerts s → Alert.event_id a ∈ Event.id <$> events s).
Proof.
  unfold consistent, alerts_unique, links_unique, links_resolve, actions_resolve,
    alerts_have_event.
  split; intros (Hau & Hlu & Hl & Hact & Hev); split_and!; try done.
  - intros l Hin. destruct (Hl l Hin) as [Hi Ha].
    by apply find_incident_is_Some in Hi; apply find_alert_is_Some in Ha.
  - intros act Hin. by apply find_incident_is_Some, Hact.
  - intros a Hin. destruct (Hev a Hin) as (ev & Hevin & <-).
    apply list_elem_of_fmap. eauto.
  - intros l Hin. destruct (Hl l Hin) as [Hi Ha].
    by apply find_incident_is_Some in Hi; apply find_alert_is_Some in Ha.
  - intros act Hin. by apply find_incident_is_Some, Hact.
  - intros a Hin. pose proof (Hev a Hin) as Hx; apply list_elem_of_fmap in Hx as (ev & ? & ?). eauto.
Qed.

(** A step that keeps the alerts, the events it had and the ids of the
    incidents, and adds only links and actions that resolve. *)
Lemma consistent_update (s s' : Store) :
  consistent s →
  alerts s' = alerts s →
  events s ⊆ events s' →
  Incident.id <$> incidents s' = Incident.id <$> incidents s →
  NoDup (link_key <$> incident_alerts s') →
  (∀ l, l ∈ incident_alerts s' →
        l ∈ incident_alerts s
        ∨ (IncidentAlert.incident_id l ∈ Incident.id <$> incidents s
           ∧ IncidentAlert.alert_id l ∈ Alert.id <$> alerts s)) →
  (∀ act, act ∈ incident_actions s' →
          act ∈ incident_actions s
          ∨ IncidentAction.incident_id act ∈ Incident.id <$> incidents s) →
  consistent s'.
Proof.
  rewrite !consistent_alt. intros (Hau & Hlu & Hl & Hact & Hev) Hal Hevs Hids Hlu' Hl' Hact'.
  rewrite Hal, Hids. split_and!; [done | done | | |].
  - intros l [Hin|Hnew]%Hl'; [by apply Hl | done].
  - intros act [Hin|Hnew]%Hact'; [by apply Hact | done].
  - intros a Hin. pose proof (Hev a Hin) as Hx; apply list_elem_of_fmap in Hx as (ev & -> & Hevin).
    apply list_elem_of_fmap. exists ev. split; [done|]. by apply Hevs.
Qed.

Lemma NoDup_fmap_filter {A B} (f : A → B) (P : A → Prop) `{!∀ x, Decision (P x)}
    (l : list A) :
  NoDup (f <$> l) → NoDup (f <$> filter P l).
Proof.
  intros Hnd. eapply sublist_NoDup; [exact Hnd|]. apply fmap_sublist, sublist_filter.
Qed.

Lemma delete_children_links (s : Store) (incident_id : string) :
  incident_alerts (delete_children s incident_id)
  = filter (fun l => IncidentAlert.incident_id l ≠ incident_id) (incident_alerts s).
Proof.
  unfold delete_children.
  match goal with
  | |- context [foldl _ (foldl ?f s ?links) ?acts] =>
      destruct (delete_actions_frame acts (foldl f s links)) as (_ & _ & _ & _ & -> & _)
  end.
  apply delete_links_of_incident.
Qed.

Section InvariantProofs.
Variable sha256_hex : string → string.
Variable str_upper : string → string.

Lemma run_consistent (s s1 : Store) (limit created : nat) :
  consistent s → run_detections s limit = Ok (s1, created) → consistent s1.
Proof.
  intros Hc Hrun.
  destruct (run_detections_spec s limit) as (s1' & created' & Hrun' & _ & Hu & _).
  rewrite Hrun in Hrun'. injection Hrun' as <- <-.
  destruct (run_detections_detect_inv _ _ _ _ Hrun)
    as ((_ & Hev & Hincs & Hl & Hact & _) & _ & extra & Hal & _ & Hall).
  cbn [fst] in Hev, Hincs, Hl, Hact, Hal.
  apply consistent_alt in Hc as (Hau & Hlu & Hlr & Hactr & Hevr).
  apply consistent_alt. rewrite Hl, Hact, Hincs, Hev. split_and!.
  - by apply Hu.
  - done.
  - intros l Hin. destruct (Hlr l Hin) as [Hi Ha]. split; [done|].
    rewrite Hal, fmap_app, elem_of_app. by left.
  - done.
  - intros a. rewrite Hal, elem_of_app. intros [Hin|Hin]; [by apply Hevr|].
    rewrite Forall_forall in Hall.
    destruct (Hall a Hin) as (r & ev & _ & Hevin & _ & _ & Hsnap).
    destruct Hsnap as (_ & _ & _ & -> & _).
    apply list_elem_of_fmap. exists ev. split; [done|].
    by apply (query_events_subseteq s limit).
Qed.

Lemma delete_alert_consistent (s s1 : Store) (alert_id msg : string) :
  consistent s → delete_alert s alert_id = Ok (s1, msg) → consistent s1.
Proof.
  intros Hc. unfold delete_alert.
  destruct (find_alert s alert_id) as [a|] eqn:Hfind; [|done].
  apply find_alert_Some in Hfind as [_ Hid]. intros [= <- _].
  set (links := filter (fun l => IncidentAlert.alert_id l = alert_id) (incident_alerts s)).
  destruct (delete_links_frame links s) as (_ & Hev & Hal & Hincs & Hact & _).
  pose proof (delete_links_of_alert s alert_id) as Hl. fold links in Hl. cbn zeta in Hl.
  apply consistent_alt in Hc as (Hau & Hlu & Hlr & Hactr & Hevr).
  apply consistent_alt. unfold delete_alert_row.
  cbn [alerts incident_alerts incidents incident_actions events].
  rewrite Hev, Hal, Hincs, Hact, Hl, Hid. split_and!.
  - by apply NoDup_fmap_filter.
  - by apply NoDup_fmap_filter.
  - intros l [Hne Hin]%list_elem_of_filter. destruct (Hlr l Hin) as [Hi Ha].
    split; [done|].
    apply list_elem_of_fmap in Ha as (a' & Ha' & Hin').
    apply list_elem_of_fmap. exists a'. split; [done|].
    apply list_elem_of_filter. split; [congruence | done].
  - done.
  - intros a' [_ Hin]%list_elem_of_filter. by apply Hevr.
Qed.

Lemma delete_incident_consistent (s s1 : Store) (incident_id msg : string) :
  consistent s → delete_incident s incident_id = Ok (s1, msg) → consistent s1.
Proof.
  intros Hc. unfold delete_incident.
  destruct (find_incident s incident_id) as [inc|] eqn:Hfind; [|done].
  apply find_incident_Some in Hfind as [_ Hid]. intros [= <- _].
  destruct (delete_children_spec s incident_id)
    as (Hincs & _ & Hal & _ & _ & Hacts).
  pose proof (delete_children_links s incident_id) as Hl.
  assert (events (delete_children s incident_id) = events s) as Hev.
  { unfold delete_children.
    match goal with
    | |- context [foldl _ (foldl ?f s ?links) ?acts] =>
        destruct (delete_actions_frame acts (foldl f s links)) as (_ & -> & _);
        by destruct (delete_links_frame links s) as (_ & -> & _)
    end. }
  apply consistent_alt in Hc as (Hau & Hlu & Hlr & Hactr & Hevr).
  apply consistent_alt. unfold delete_incident_row, set_incident_tables.
  cbn [alerts incident_alerts incidents incident_actions events].
  rewrite Hev, Hal, Hincs, Hl, Hid. split_and!.
  - done.
  - by apply NoDup_fmap_filter.
  - intros l [Hne Hin]%list_elem_of_filter. destruct (Hlr l Hin) as [Hi Ha].
    split; [|done].
    apply list_elem_of_fmap in Hi as (i & Hi & Hin').
    apply list_elem_of_fmap. exists i. split; [done|].
    apply list_elem_of_filter. split; [congruence | done].
  - intros act [Hin Hne]%Hacts.
    pose proof (Hactr act Hin) as Hx; apply list_elem_of_fmap in Hx as (i & Hi & Hin').
    apply list_elem_of_fmap. exists i. split; [done|].
    apply list_elem_of_filter. split; [congruence | done].
  - done.
Qed.

Lemma add_alert_consistent (s s1 : Store) (incident_id alert_id msg : string) :
  consistent s → add_alert_to_incident s incident_id alert_id = Ok (s1, msg) →
  consistent s1.
Proof.
  intros Hc. unfold add_alert_to_incident.
  destruct (find_incident s incident_id) as [inc|] eqn:Hinc; [|done].
  destruct (find_alert s alert_id) as [a|] eqn:Ha; [|done].
  destruct (find_link s incident_id alert_id) as [l|] eqn:Hlink; [by intros [= <- _]|].
  intros [= <- _].
  assert (incident_id ∈ Incident.id <$> incidents s) as Hi
    by (apply find_incident_is_Some; eauto).
  assert (alert_id ∈ Alert.id <$> alerts s) as Ha'
    by (apply find_alert_is_Some; eauto).
  apply (consistent_update s); cbn [alerts events incidents incident_alerts
    incident_actions set_incident_tables]; try done.
  - apply touch_incident_ids.
  - rewrite fmap_app. apply NoDup_app. split_and!.
    + apply consistent_alt in Hc. tauto.
    + intros k Hk [->|?%elem_of_nil]%elem_of_cons; [|done].
      apply list_elem_of_fmap in Hk as (l & Hk & Hin).
      unfold link_key in Hk. simpl in Hk. injection Hk as Hk1 Hk2.
      eapply (proj1 (first_filter_None
                       (fun l => IncidentAlert.incident_id l = incident_id
                                 ∧ IncidentAlert.alert_id l = alert_id)
                       (incident_alerts s)) Hlink l Hin). done.
    + apply NoDup_singleton.
  - intros l [Hin|Hnew%list_elem_of_singleton]%elem_of_app; [by left | subst l; by right].
  - auto.
Qed.

Lemma create_action_consistent (s s1 : Store) (incident_id : string)
    (actor : option string) (action_type summary : string) (details : option json)
    (action : IncidentAction.t) :
  consistent s →
  create_incident_action s incident_id actor action_type summary details
  = Ok (s1, action) →
  consistent s1.
Proof.
  intros Hc. unfold create_incident_action.
  destruct (find_incident s incident_id) as [inc|] eqn:Hinc; [|done].
  intros [= <- _].
  assert (incident_id ∈ Incident.id <$> incidents s) as Hi
    by (apply find_incident_is_Some; eauto).
  apply (consistent_update s); cbn [alerts events incidents incident_alerts
    incident_actions]; try done.
  - apply touch_incident_ids.
  - apply consistent_alt in Hc. tauto.
  - auto.
  - intros act [Hin|Hnew%list_elem_of_singleton]%elem_of_app; [by left | subst act; by right].
Qed.

Lemma close_incident_consistent (s s1 : Store) (incident_id : string) (inc : Incident.t) :
  consistent s → close_incident s incident_id = Ok (s1, inc) → consistent s1.
Proof.
  intros Hc. unfold close_incident.
  destruct (find_incident s incident_id) as [inc0|] eqn:Hinc; [|done].
  intros [= <- _].
  apply (consistent_update s); cbn [alerts events incidents incident_alerts
    incident_actions set_incident_tables]; try done.
  - apply close_row_ids.
  - apply consistent_alt in Hc. tauto.
  - auto.
  - auto.
Qed.

Lemma export_markdown_consistent (s s1 : Store) (incident_id report : string) :
  consistent s →
  export_markdown sha256_hex str_upper s incident_id = Ok (s1, report) →
  consistent s1.
Proof.
  intros Hc. unfold export_markdown.
  destruct (build_incident_packet s incident_id) as [p|] eqn:Hp; [|done].
  cbn [exc_bind]. intros Heq.
  assert (s1 = (write_packet_evidence sha256_hex s incident_id (packet_json p)).1) as ->
    by congruence.
  clear Heq.
  destruct (write_evidence_tables sha256_hex s incident_id (packet_json p))
    as (_ & Hev & Hal & Hincs & Hl & Hact & _).
  apply (consistent_update s); try done.
  - by rewrite Hev.
  - by rewrite Hincs.
  - rewrite Hl. apply consistent_alt in Hc. tauto.
  - rewrite Hl. auto.
  - rewrite Hact. auto.
Qed.

Lemma handle_consistent (req : request) (s s1 : Store) :
  consistent s → handle sha256_hex str_upper req s = Ok s1 → consistent s1.
Proof.
  intros Hc. destruct req; unfold handle.
  - unfold run. destruct (run_detections s 500) as [[s' n]|] eqn:Hrun; [|done].
    intros [= <-]. by eapply run_consistent.
  - intros [= <-]. unfold ingest_event. cbn [fst].
    apply (consistent_update s); cbn [alerts events incidents incident_alerts
      incident_actions]; try done.
    + intros ev Hin. apply elem_of_app. by left.
    + apply consistent_alt in Hc. tauto.
    + auto.
    + auto.
  - unfold delete_rule. destruct (find_rule s rule_id); [|done].
    intros [= <-]. cbn [fst].
    apply (consistent_update s); cbn [alerts events incidents incident_alerts
      incident_actions]; try done.
    + apply consistent_alt in Hc. tauto.
    + auto.
    + auto.
  - destruct (delete_alert s alert_id) as [[s' msg]|] eqn:Hdel; [|done].
    intros [= <-]. by eapply delete_alert_consistent.
  - destruct (delete_incident s incident_id) as [[s' msg]|] eqn:Hdel; [|done].
    intros [= <-]. by eapply delete_incident_consistent.
  - destruct (add_alert_to_incident s incident_id alert_id) as [[s' msg]|] eqn:Hadd;
      [|done].
    intros [= <-]. by eapply add_alert_consistent.
  - destruct (create_incident_action s incident_id actor action_type summary details)
      as [[s' act]|] eqn:Hcreate; [|done].
    intros [= <-]. by eapply create_action_consistent.
  - destruct (close_incident s incident_id) as [[s' inc]|] eqn:Hclose; [|done].
    intros [= <-]. by eapply close_incident_consistent.
  - destruct (export_markdown sha256_hex str_upper s incident_id) as [[s' report]|]
      eqn:Hexport; [|done].
    intros [= <-]. by eapply export_markdown_consistent.
Qed.

(** Property X20. Whatever requests are served, in whatever order and whether they
    succeed or fail, a consistent session stays consistent: at most one
    alert per rule and event, at most one link per incident and alert,
    every link between an incident and an alert on record, every action
    under an incident on record, every alert on an event on record. *)
Theorem requests_keep_consistency (s : Store) (reqs : list request) :
  consistent s → consistent (foldl (serve sha256_hex str_upper) s reqs).
Proof.
  revert s. induction reqs as [|req reqs IH]; intros s Hc; [done|].
  cbn [foldl]. apply IH. unfold serve.
  destruct (handle sha256_hex str_upper req s) as [s1|] eqn:Hhandle; [|done].
  by eapply handle_consistent.
Qed.

End InvariantProofs.

(** The sample session with its alerts, links and action, served an
    event, a detection run, a link that exists already, a new action, the
    deletion of an alert, an export and the deletion of an incident. *)
Lemma requests_keep_consistency_witness :
  consistent Sample.store2
  ∧ consistent
      (foldl (serve Sample.toy_digest Sample2.ascii_upper) Sample.store2
         [IngestEvent [("user", JStr "root")] "syslog" None None;
          RunDetections; LinkAlert "i-1" "a-1";
          CreateAction "i-2" (Some "alice") "note" "checked" None;
          DeleteAlert "a-2"; ExportMarkdown "i-1"; DeleteIncident "i-1"]).
Proof.
  assert (consistent Sample.store2) as Hc.
  { apply consistent_alt. split_and!.
    - apply (bool_decide_unpack _). by vm_compute.
    - apply (bool_decide_unpack _). by vm_compute.
    - apply Forall_forall. apply (bool_decide_unpack _). by vm_compute.
    - apply Forall_forall. apply (bool_decide_unpack _). by vm_compute.
    - apply Forall_forall. apply (bool_decide_unpack _). by vm_compute. }
  split; [exact Hc|].
  by apply (requests_keep_consistency Sample.toy_digest Sample2.ascii_upper).
Defined.

(** ** The lists of an incident *)

Lemma sorted_newest_first {A} (key : A → DT.t) (l : list A) :
  StronglySorted (fun a b => DT.leb (key b) (key a) = true)
    (sort_by (fun a b => DT.leb (key b) (key a)) l).
Proof.
  apply (sort_by_sorted (fun a b => DT.leb (key b) (key a))).
  - intros a b. apply dt_leb_total.
  - intros a b c Hab Hbc. by apply (dt_leb_trans _ (key b)).
Qed.

Lemma filter_none {A} (P : A → Prop) `{!∀ x, Decision (P x)} (l : list A) :
  (∀ x, x ∈ l → ¬ P x) → filter P l = [].
Proof.
  induction l as [|a l IH]; intros Hall; [done|].
  rewrite filter_cons_False by (apply Hall, elem_of_cons; by left).
  apply IH. intros x Hx. apply Hall, elem_of_cons. by right.
Qed.

(** Property X21. The rules, the actions of an incident and its evidence records are
    listed in full, newest first, whether or not the incident is on
    record. Once the incident has been deleted it can no longer be read
    and its list of actions is empty, while its list of evidence still
    returns the records it returned before. *)
Theorem incident_lists (s : Store) (incident_id : string) :
  (list_rules s ≡ₚ rules s
   ∧ StronglySorted (fun a b => DT.leb (Rule.created_at b) (Rule.created_at a) = true)
       (list_rules s))
  ∧ (list_incident_actions s incident_id
       ≡ₚ filter (fun act => IncidentAction.incident_id act = incident_id)
            (incident_actions s)
     ∧ StronglySorted
         (fun a b => DT.leb (IncidentAction.created_at b) (IncidentAction.created_at a)
                     = true)
         (list_incident_actions s incident_id))
  ∧ (list_evidence s incident_id
       ≡ₚ filter (fun e => EvidenceFile.incident_id e = incident_id) (evidence_files s)
     ∧ StronglySorted
         (fun a b => DT.leb (EvidenceFile.created_at b) (EvidenceFile.created_at a) = true)
         (list_evidence s incident_id))
  ∧ (∀ s1 msg, delete_incident s incident_id = Ok (s1, msg) →
               get_incident s1 incident_id = Raise (HTTPException 404 "incident not found")
               ∧ list_incident_actions s1 incident_id = []
               ∧ list_evidence s1 incident_id = list_evidence s incident_id).
Proof.
  split_and!.
  - apply sort_by_perm.
  - apply (sorted_newest_first Rule.created_at).
  - apply sort_by_perm.
  - apply (sorted_newest_first IncidentAction.created_at).
  - apply sort_by_perm.
  - apply (sorted_newest_first EvidenceFile.created_at).
  - intros s1 msg. unfold delete_incident.
    destruct (find_incident s incident_id) as [inc|] eqn:Hfind; [|done].
    apply find_incident_Some in Hfind as [_ Hid].
    intros Heq.
    assert (s1 = delete_incident_row inc (delete_children s incident_id)) as ->
      by congruence.
    clear Heq.
    destruct (delete_children_spec s incident_id) as (Hincs & Hev & _ & _ & _ & Hacts).
    split_and!.
    + unfold get_incident.
      assert (find_incident (delete_incident_row inc (delete_children s incident_id))
                incident_id = None) as ->; [|done].
      apply find_incident_None. intros i [Hne _]%list_elem_of_filter. congruence.
    + unfold list_incident_actions.
      rewrite (filter_none (fun act => IncidentAction.incident_id act = incident_id));
        [done|].
      intros act Hin. by apply Hacts.
    + unfold list_evidence, query_evidence.
      by cbn [evidence_files delete_incident_row set_incident_tables]; rewrite Hev.
Qed.

(** The first incident of the sample store is deleted: its evidence
    record is still listed. *)
Lemma incident_lists_witness :
  ∃ s1, delete_incident Sample.store2 "i-1" = Ok (s1, "deleted")
        ∧ list_incident_actions s1 "i-1" = []
        ∧ list_evidence s1 "i-1" = list_evidence Sample.store2 "i-1".
Proof.
  assert (∃ s1, delete_incident Sample.store2 "i-1" = Ok (s1, "deleted")) as [s1 Hdel]
    by (eexists; reflexivity).
  destruct (incident_lists Sample.store2 "i-1") as (_ & _ & _ & Hafter).
  destruct (Hafter s1 "deleted" Hdel) as (_ & Hacts & Hev).
  exists s1. by split_and!.
Defined.

(** ** The Markdown report *)

Lemma take_cut {A B} (m : nat) (placeholder : list B) (f : A → B) (l : list A) :
  match take (S m) l with
  | [] => placeholder
  | x :: l' => List.map f (take (S m) (x :: l'))
  end
  = match l with
    | [] => placeholder
    | x :: l' => List.map f (take (S m) (x :: l'))
    end.
Proof.
  destruct l as [|x l]; [done|]. cbn [take]. by rewrite take_take, Nat.min_id.
Qed.

Section ReportProofs.
Variable str_upper : string → string.

Lemma report_line (p : Packet.t) (evidence : list EvidenceFile.t) (line : string) :
  line ∈ markdown_head p ++ markdown_scope p ++ markdown_actions p
         ++ markdown_timeline str_upper p ++ markdown_evidence_section evidence →
  occurs_in line (render_markdown str_upper p evidence).
Proof. apply join_occurs. Qed.

(** Property X22. The report shows every row it is given: each line of each action,
    the line of each of the first 500 timeline entries and the line of
    each evidence record occur in it, and an empty list is replaced by
    its placeholder. Timeline entries after the first 500 have no part in
    it: the report is the report of the packet cut to 500 entries. *)
Theorem report_lists_rows (p : Packet.t) (evidence : list EvidenceFile.t) :
  let report := render_markdown str_upper p evidence in
  (∀ a line, a ∈ Packet.actions p → line ∈ markdown_action a → occurs_in line report)
  ∧ (∀ i t, Packet.timeline p !! i = Some t → i < 500 →
            occurs_in (markdown_entry str_upper t) report)
  ∧ (∀ e, e ∈ evidence → occurs_in (markdown_evidence e) report)
  ∧ (Packet.actions p = [] → occurs_in "_No actions recorded._" report)
  ∧ (Packet.timeline p = [] → occurs_in "_No timeline entries._" report)
  ∧ (evidence = [] → occurs_in "_No evidence files recorded._" report)
  ∧ report
    = render_markdown str_upper
        (Packet.mk (Packet.incident p) (Packet.scope p) (Packet.alerts p)
           (take 500 (Packet.timeline p)) (Packet.actions p))
        evidence.
Proof.
  intros report. split_and!.
  - intros a line Ha Hline. apply report_line.
    rewrite !elem_of_app. right; right; left. unfold markdown_actions.
    rewrite !elem_of_app. right; left.
    destruct (Packet.actions p) as [|a0 acts] eqn:Hacts; [by apply elem_of_nil in Ha|].
    apply list_elem_of_In, in_flat_map. exists a.
    split; by apply list_elem_of_In.
  - intros i t Ht Hi. apply report_line.
    rewrite !elem_of_app. do 3 right. left. unfold markdown_timeline.
    rewrite !elem_of_app. right; left.
    destruct (Packet.timeline p) as [|t0 tl] eqn:Htl; [done|].
    apply list_elem_of_In, in_map, list_elem_of_In.
    apply list_elem_of_lookup_2 with i. by rewrite lookup_take_lt.
  - intros e He. apply report_line.
    rewrite !elem_of_app. do 4 right. unfold markdown_evidence_section.
    rewrite !elem_of_app. right; left.
    destruct evidence as [|e0 evidence]; [by apply elem_of_nil in He|].
    by apply list_elem_of_In, in_map, list_elem_of_In.
  - intros Hnone. apply report_line.
    rewrite !elem_of_app. right; right; left. unfold markdown_actions.
    rewrite Hnone, !elem_of_app, !list_elem_of_singleton. auto.
  - intros Hnone. apply report_line.
    rewrite !elem_of_app. do 3 right. left. unfold markdown_timeline.
    rewrite Hnone, !elem_of_app, !list_elem_of_singleton. auto.
  - intros ->. apply report_line.
    rewrite !elem_of_app. do 4 right. unfold markdown_evidence_section.
    rewrite !elem_of_app, !list_elem_of_singleton. auto.
  - unfold report, render_markdown. f_equal. f_equal. f_equal. f_equal.
    unfold markdown_timeline. cbn [Packet.timeline]. f_equal. f_equal. f_equal.
    symmetry. apply (take_cut 499).
Qed.

End ReportProofs.
